(** * Folder-Sync-Python: a verified model of [src/app.py]

    The development embeds the two components of the program:

    - the content fingerprint [calculate_hash] (MD5 over a file read in
      4096-byte chunks through an incremental hash object), and
    - the tree reconciler [sync_folders] (create/update, restore and prune
      phases over the source and the replica directory trees),

    together with the start-up decision of [main].

    Modelling conventions.  A directory tree is a finite map from relative
    paths to nodes.  A path is the list of its components, innermost first,
    so that [os.path.join dirpath name] is [name :: dirpath] and the root of
    a tree is [[]].  The source tree and the replica tree are two separate
    maps: the program is run on two directories neither of which lies inside
    the other, the log file lies outside both, and
    [dirpath.replace(source_folder, replica_folder, 1)] re-roots a path, so
    it is the identity on relative paths; this holds of two folder names
    that do not end with a slash, and is proved of [str_replace_first]
    below.  The source tree is only read by
    [sync_folders]; the replica tree, the log and the record of fingerprint
    computations form the mutable state.  Exceptions are explicit: every
    operation returns either a value and a state, or an exception and the
    state reached when it was raised. *)

From stdpp Require Import gmap strings list fin_maps.
From Stdlib Require Import ZArith Strings.Byte Strings.Ascii Lia.

Local Open Scope Z_scope.

(* ===================================================================== *)
(** * MD5, as provided by [hashlib.md5] *)
(* ===================================================================== *)

Module MD5.

Definition wrap32 (x : Z) : Z := Z.land x 0xffffffff.
Definition add32 (a b : Z) : Z := wrap32 (a + b).
Definition not32 (x : Z) : Z := Z.lxor x 0xffffffff.
Definition rotl32 (x s : Z) : Z :=
  wrap32 (Z.lor (Z.shiftl x s) (Z.shiftr x (32 - s))).

Definition s_table : list Z :=
  [ 7; 12; 17; 22;  7; 12; 17; 22;  7; 12; 17; 22;  7; 12; 17; 22;
    5;  9; 14; 20;  5;  9; 14; 20;  5;  9; 14; 20;  5;  9; 14; 20;
    4; 11; 16; 23;  4; 11; 16; 23;  4; 11; 16; 23;  4; 11; 16; 23;
    6; 10; 15; 21;  6; 10; 15; 21;  6; 10; 15; 21;  6; 10; 15; 21 ].

Definition k_table : list Z :=
  [ 0xd76aa478; 0xe8c7b756; 0x242070db; 0xc1bdceee;
    0xf57c0faf; 0x4787c62a; 0xa8304613; 0xfd469501;
    0x698098d8; 0x8b44f7af; 0xffff5bb1; 0x895cd7be;
    0x6b901122; 0xfd987193; 0xa679438e; 0x49b40821;
    0xf61e2562; 0xc040b340; 0x265e5a51; 0xe9b6c7aa;
    0xd62f105d; 0x02441453; 0xd8a1e681; 0xe7d3fbc8;
    0x21e1cde6; 0xc33707d6; 0xf4d50d87; 0x455a14ed;
    0xa9e3e905; 0xfcefa3f8; 0x676f02d9; 0x8d2a4c8a;
    0xfffa3942; 0x8771f681; 0x6d9d6122; 0xfde5380c;
    0xa4beea44; 0x4bdecfa9; 0xf6bb4b60; 0xbebfbc70;
    0x289b7ec6; 0xeaa127fa; 0xd4ef3085; 0x04881d05;
    0xd9d4d039; 0xe6db99e5; 0x1fa27cf8; 0xc4ac5665;
    0xf4292244; 0x432aff97; 0xab9423a7; 0xfc93a039;
    0x655b59c3; 0x8f0ccc92; 0xffeff47d; 0x85845dd1;
    0x6fa87e4f; 0xfe2ce6e0; 0xa3014314; 0x4e0811a1;
    0xf7537e82; 0xbd3af235; 0x2ad7d2bb; 0xeb86d391 ].

(** The four 32-bit chaining words. *)
Definition words : Type := Z * Z * Z * Z.

Definition init_words : words :=
  (0x67452301, 0xefcdab89, 0x98badcfe, 0x10325476).

Definition byte_val (b : byte) : Z := Z.of_N (Byte.to_N b).

(** Little-endian 32-bit words of a block. *)
Fixpoint words_of (l : list byte) : list Z :=
  match l with
  | b0 :: b1 :: b2 :: b3 :: r =>
      (byte_val b0 + Z.shiftl (byte_val b1) 8
       + Z.shiftl (byte_val b2) 16 + Z.shiftl (byte_val b3) 24)
      :: words_of r
  | _ => []
  end.

Definition step (M : list Z) (st : words) (i : nat) : words :=
  let '(a, b, c, d) := st in
  let '(f, g) :=
    if (i <? 16)%nat then
      (Z.lor (Z.land b c) (Z.land (not32 b) d), i)
    else if (i <? 32)%nat then
      (Z.lor (Z.land d b) (Z.land (not32 d) c), ((5 * i + 1) mod 16)%nat)
    else if (i <? 48)%nat then
      (Z.lxor (Z.lxor b c) d, ((3 * i + 5) mod 16)%nat)
    else
      (Z.lxor c (Z.lor b (not32 d)), ((7 * i) mod 16)%nat) in
  let f' := add32 (add32 (add32 f a) (nth i k_table 0)) (nth g M 0) in
  (d, add32 b (rotl32 f' (nth i s_table 0)), b, c).

(** One 64-byte block. *)
Definition compress (h : words) (block : list byte) : words :=
  let '(a0, b0, c0, d0) := h in
  let '(a, b, c, d) := fold_left (step (words_of block)) (seq 0 64) h in
  (add32 a0 a, add32 b0 b, add32 c0 c, add32 d0 d).

(** Absorb every complete 64-byte block of [l]; what is left over (fewer
    than 64 bytes) stays buffered. *)
Fixpoint absorb_fuel (fuel : nat) (h : words) (l : list byte)
  : words * list byte :=
  match fuel with
  | O => (h, l)
  | S fuel' =>
      if (64 <=? length l)%nat
      then absorb_fuel fuel' (compress h (take 64 l)) (drop 64 l)
      else (h, l)
  end.

Definition absorb (h : words) (l : list byte) : words * list byte :=
  absorb_fuel (length l) h l.

(** The hash object: chaining words, pending bytes, bytes seen so far. *)
Record t : Type := mk { h : words; buf : list byte; len : Z }.

(** [hashlib.md5()] *)
Definition new : t := {| h := init_words; buf := []; len := 0 |}.

(** [m.update(data)] *)
Definition update (m : t) (data : list byte) : t :=
  let '(h', rest) := absorb (h m) (buf m ++ data) in
  {| h := h'; buf := rest; len := len m + Z.of_nat (length data) |}.

Definition byte_of (z : Z) : byte :=
  match Byte.of_N (Z.to_N (Z.land z 0xff)) with
  | Some b => b
  | None => x00
  end.

Definition le_bytes (n : nat) (z : Z) : list byte :=
  map (fun i : nat => byte_of (Z.shiftr z (8 * Z.of_nat i))) (seq 0 n).

Definition padding (n : Z) : list byte :=
  x80 :: repeat x00 (Z.to_nat ((55 - n) mod 64))
      ++ le_bytes 8 (Z.land (8 * n) 0xffffffffffffffff).

(** [m.digest()]: the 16 bytes of the final chaining words. *)
Definition digest (m : t) : list byte :=
  let '(a, b, c, d) := fst (absorb (h m) (buf m ++ padding (len m))) in
  le_bytes 4 a ++ le_bytes 4 b ++ le_bytes 4 c ++ le_bytes 4 d.

Definition hex_digit (z : Z) : ascii :=
  nth (Z.to_nat z)
    (String.list_ascii_of_string "0123456789abcdef") "0"%char.

Definition hex_byte (b : byte) : list ascii :=
  [hex_digit (Z.shiftr (byte_val b) 4); hex_digit (Z.land (byte_val b) 15)].

(** [m.hexdigest()] *)
Definition hexdigest (m : t) : string :=
  String.string_of_list_ascii (concat (map hex_byte (digest m))).

End MD5.

(** The whole byte sequence hashed by one call:
    [hashlib.md5(data).hexdigest()]. *)
Definition md5_hex (data : list byte) : string :=
  MD5.hexdigest (MD5.update MD5.new data).

(* ===================================================================== *)
(** * Content fingerprint: [calculate_hash] *)
(* ===================================================================== *)

(** [f.read(n)] on an open binary file: the next [n] bytes (fewer at the
    end of the file) and the file advanced past them. *)
Definition file_read (n : nat) (f : list byte) : list byte * list byte :=
  (take n f, drop n f).

(** [for chunk in iter(lambda: f.read(n), b""): hash_md5.update(chunk)].
    The sentinel [b""] ends the loop.  Every turn that does not end the loop
    consumes at least one byte, so [S (length f)] turns always suffice. *)
Fixpoint read_loop (fuel : nat) (n : nat) (f : list byte) (m : MD5.t) : MD5.t :=
  match fuel with
  | O => m
  | S fuel' =>
      let '(chunk, f') := file_read n f in
      match chunk with
      | [] => m
      | _ :: _ => read_loop fuel' n f' (MD5.update m chunk)
      end
  end.

(** The body of [calculate_hash] on the content of an opened file, with the
    chunk size as a parameter. *)
Definition hash_chunked (n : nat) (data : list byte) : string :=
  MD5.hexdigest (read_loop (S (length data)) n data MD5.new).

(** [calculate_hash] reads 4096 bytes at a time. *)
Definition chunk_size : nat := 4096.

Definition hash_content (data : list byte) : string :=
  hash_chunked chunk_size data.

(** Hexadecimal literals for file contents. *)
Definition unhex_digit (c : ascii) : Z :=
  let n := Z.of_nat (nat_of_ascii c) in
  if (48 <=? n) && (n <=? 57) then n - 48
  else if (97 <=? n) && (n <=? 102) then n - 87
  else 0.

Fixpoint unhex (s : string) : list byte :=
  match s with
  | String c1 (String c2 r) =>
      MD5.byte_of (16 * unhex_digit c1 + unhex_digit c2) :: unhex r
  | _ => []
  end.

Definition bytes_of_string (s : string) : list byte :=
  map byte_of_ascii (String.list_ascii_of_string s).

(* ===================================================================== *)
(** * The file system *)
(* ===================================================================== *)

(** Relative paths, innermost component first. *)
Abbreviation path := (list string).

(** A node is a regular file (can it be opened for reading, can it be
    opened for writing, modification time, content) or a directory.  The
    entries of a directory are the nodes whose path extends the
    directory's path by one component. *)
Inductive node : Type :=
  | File (readable writable : bool) (mtime : Z) (data : list byte)
  | Dir.

Abbreviation fs := (gmap path node).

Global Instance byte_eq_dec : EqDecision byte := Byte.byte_eq_dec.

Global Instance node_eq_dec : EqDecision node.
Proof. solve_decision. Defined.

Definition is_file (o : option node) : bool :=
  match o with Some (File _ _ _ _) => true | _ => false end.

Definition is_dir (o : option node) : bool :=
  match o with Some Dir => true | _ => false end.

(** The name of the entry at a relative path: [os.path.basename] of the
    joined path. *)
Definition basename (p : path) : string :=
  match p with
  | n :: _ => n
  | [] => ""%string
  end.

(** ** Path names as the program computes them

    [posixpath.basename], [posixpath.dirname] and [posixpath.join] on the
    names [main] and [sync_folders] receive as strings. *)

Definition slash : ascii := "/"%char.

Fixpoint take_until_slash (l : list ascii) : list ascii :=
  match l with
  | [] => []
  | c :: r => if Ascii.eqb c slash then [] else c :: take_until_slash r
  end.

Fixpoint drop_until_slash (l : list ascii) : list ascii :=
  match l with
  | [] => []
  | c :: r => if Ascii.eqb c slash then l else drop_until_slash r
  end.

Fixpoint drop_slashes (l : list ascii) : list ascii :=
  match l with
  | [] => []
  | c :: r => if Ascii.eqb c slash then drop_slashes r else l
  end.

(** [os.path.basename(p)]: what follows the last slash. *)
Definition os_path_basename (p : string) : string :=
  String.string_of_list_ascii
    (rev (take_until_slash (rev (String.list_ascii_of_string p)))).

(** [os.path.dirname(p)]: what precedes the last slash, without trailing
    slashes unless it consists of slashes only. *)
Definition os_path_dirname (p : string) : string :=
  let head := drop_until_slash (rev (String.list_ascii_of_string p)) in
  String.string_of_list_ascii
    (rev (match drop_slashes head with [] => head | stripped => stripped end)).

(** [os.path.join(a, b)] *)
Definition os_path_join (a b : string) : string :=
  match String.list_ascii_of_string b with
  | c :: _ =>
      if Ascii.eqb c slash then b
      else
        match rev (String.list_ascii_of_string a) with
        | [] => b
        | d :: _ => if Ascii.eqb d slash then (a +:+ b)%string
                    else (a +:+ "/" +:+ b)%string
        end
  | [] =>
      match rev (String.list_ascii_of_string a) with
      | [] => b
      | d :: _ => if Ascii.eqb d slash then a else (a +:+ "/")%string
      end
  end.

(** The subclasses of [OSError] the file operations raise. *)
Inductive exn : Type :=
  | FileNotFoundError
  | NotADirectoryError
  | IsADirectoryError
  | PermissionError
  | FileExistsError.

(** The error of a system call on a path that does not resolve: [ENOTDIR]
    when a regular file stands in the way, [ENOENT] otherwise. *)
Fixpoint missing_error (m : fs) (p : path) : exn :=
  match p with
  | [] => FileNotFoundError
  | _ :: q =>
      match m !! q with
      | Some (File _ _ _ _) => NotADirectoryError
      | Some Dir => FileNotFoundError
      | None => missing_error m q
      end
  end.

(** Can an entry be created at the free path [p]?  The directory that
    holds a tree's root lies outside the tree and exists. *)
Definition creatable (m : fs) (p : path) : option exn :=
  match p with
  | [] => None
  | _ :: q =>
      match m !! q with
      | Some Dir => None
      | _ => Some (missing_error m p)
      end
  end.

(** [os.path.exists] *)
Definition path_exists (m : fs) (p : path) : bool :=
  match m !! p with Some _ => true | None => false end.

(** [os.mkdir] *)
Definition mkdir (m : fs) (p : path) : exn + fs :=
  match m !! p with
  | Some _ => inl FileExistsError
  | None =>
      match creatable m p with
      | Some e => inl e
      | None => inr (<[p := Dir]> m)
      end
  end.

(** [os.makedirs(name)] with [exist_ok=False]: the parent is created first
    when it is missing (a [FileExistsError] of that recursive call is
    passed over), then [os.mkdir(name)]. *)
Fixpoint makedirs (m : fs) (p : path) : exn + fs :=
  match p with
  | [] => mkdir m p
  | _ :: q =>
      if path_exists m q then mkdir m p
      else
        match makedirs m q with
        | inr m' => mkdir m' p
        | inl FileExistsError => mkdir m p
        | inl e => inl e
        end
  end.

(** [open(p, "rb")] followed by reading: the content of a readable file. *)
Definition open_rb (m : fs) (p : path) : exn + (Z * list byte) :=
  match m !! p with
  | None => inl (missing_error m p)
  | Some Dir => inl IsADirectoryError
  | Some (File false _ _ _) => inl PermissionError
  | Some (File true _ t d) => inr (t, d)
  end.

(** [open(p, "wb")], writing, and [shutil.copystat]: [p] becomes the
    regular file [f].  An existing file is truncated, which takes the
    permission to write it; a new file takes a directory to hold it. *)
Definition write_file (m : fs) (p : path) (f : node) : exn + fs :=
  match m !! p with
  | Some Dir => inl IsADirectoryError
  | Some (File _ false _ _) => inl PermissionError
  | Some (File _ true _ _) => inr (<[p := f]> m)
  | None =>
      match creatable m p with
      | Some e => inl e
      | None => inr (<[p := f]> m)
      end
  end.

(** The permission to write that [os.stat] reports. *)
Definition writable_of (o : option node) : bool :=
  match o with
  | Some (File _ w _ _) => w
  | _ => true
  end.

(** [shutil.copy2(src, dst)] from the tree [source] into the tree [m]:
    content, permission bits and modification time.  A [dst] that is a
    directory stands for the file of [src]'s name inside it.  The source is
    opened before the destination; the copy gets the permission bits of
    the source file, so the copy of a read-only file is read-only. *)
Definition copy2 (source m : fs) (src dst : path) : exn + fs :=
  let dst' := if is_dir (m !! dst) then basename src :: dst else dst in
  match open_rb source src with
  | inl e => inl e
  | inr (t, d) => write_file m dst' (File true (writable_of (source !! src)) t d)
  end.

(** [os.remove] *)
Definition remove (m : fs) (p : path) : exn + fs :=
  match m !! p with
  | None => inl (missing_error m p)
  | Some Dir => inl IsADirectoryError
  | Some (File _ _ _ _) => inr (delete p m)
  end.

(** [shutil.rmtree]: the directory and everything below it. *)
Definition rmtree (m : fs) (p : path) : exn + fs :=
  match m !! p with
  | None => inl (missing_error m p)
  | Some (File _ _ _ _) => inl NotADirectoryError
  | Some Dir => inr (filter (λ kv : path * node, ¬ p `suffix_of` kv.1) m)
  end.

(** The entries of the directory [top], in the order the system lists
    them. *)
Definition entries (m : fs) (top : path) : list (string * node) :=
  omap (λ kv : path * node,
          match kv.1 with
          | n :: q => if decide (q = top) then Some (n, kv.2) else None
          | [] => None
          end) (map_to_list m).

Definition dir_names (es : list (string * node)) : list string :=
  omap (λ e : string * node, if is_dir (Some e.2) then Some e.1 else None) es.

Definition file_names (es : list (string * node)) : list string :=
  omap (λ e : string * node, if is_file (Some e.2) then Some e.1 else None) es.

(** [os.scandir] as [os.walk] uses it: the names of the sub-directories and
    of the other entries; [None] when [top] cannot be listed, an error that
    [os.walk] passes over. *)
Definition scandir (m : fs) (top : path) : option (list string * list string) :=
  match m !! top with
  | Some Dir => Some (dir_names (entries m top), file_names (entries m top))
  | _ => None
  end.

(** A bound on the nesting of a tree. *)
Definition depth (m : fs) : nat :=
  max_list ((λ kv : path * node, length kv.1) <$> map_to_list m).

(** [os.walk(top)] (top-down) over a tree that does not change during the
    walk: the triples [(dirpath, dirnames, filenames)] it yields. *)
Fixpoint os_walk_fuel (fuel : nat) (m : fs) (top : path)
  : list (path * list string * list string) :=
  match fuel with
  | O => []
  | S fuel' =>
      match scandir m top with
      | None => []
      | Some (dirs, files) =>
          (top, dirs, files)
            :: mjoin ((λ d, os_walk_fuel fuel' m (d :: top)) <$> dirs)
      end
  end.

Definition os_walk (m : fs) (top : path) : list (path * list string * list string) :=
  os_walk_fuel (S (depth m)) m top.

(* ===================================================================== *)
(** * State, exceptions and the program monad *)
(* ===================================================================== *)

(** One line of the log written through [logging.info]. *)
Inductive log_entry : Type :=
  | DirCreated (p : path)      (* "Directory created: ..." *)
  | FileCopied (p : path)      (* "File copied: ..." *)
  | FileUpdated (p : path)     (* "File updated: ..." *)
  | FileRestored (p : path)    (* "File restored: ..." *)
  | FileDeleted (p : path)     (* "File deleted: ..." *)
  | DirDeleted (p : path).     (* "Directory deleted: ..." *)

Global Instance log_entry_eq_dec : EqDecision log_entry.
Proof. solve_decision. Defined.

(** The tree a hashed file lives in. *)
Inductive tree_id : Type := Source | Replica.

(** The state [sync_folders] acts on: the replica tree, the lines logged so
    far, and the calls of [calculate_hash] made so far. *)
Record state : Type := mkState {
  replica : fs;
  log : list log_entry;
  hashed : list (tree_id * path)
}.

Inductive result (A : Type) : Type :=
  | Ok (a : A) (st : state)
  | Raise (e : exn) (st : state).
Arguments Ok {A} a st.
Arguments Raise {A} e st.

Definition M (A : Type) : Type := state → result A.

Definition ret {A} (a : A) : M A := λ st, Ok a st.

Definition bind {A B} (c : M A) (k : A → M B) : M B :=
  λ st, match c st with
        | Ok a st' => k a st'
        | Raise e st' => Raise e st'
        end.

Notation "'let*' x ':=' c 'in' k" := (bind c (λ x, k))
  (at level 61, x name, c at next level, k at level 200, right associativity).
Notation "c ;;; k" := (bind c (λ _, k))
  (at level 100, k at level 200, right associativity).

(** [for x in l: body x] *)
Fixpoint for_each {A} (l : list A) (body : A → M unit) : M unit :=
  match l with
  | [] => ret tt
  | x :: l' => body x ;;; for_each l' body
  end.

(** A [for] loop that updates a local variable. *)
Fixpoint for_fold {A B} (l : list A) (acc : B) (body : A → B → M B) : M B :=
  match l with
  | [] => ret acc
  | x :: l' => let* acc' := body x acc in for_fold l' acc' body
  end.

(** An operation on the replica tree. *)
Definition on_replica (op : fs → exn + fs) : M unit :=
  λ st, match op (replica st) with
        | inr m' => Ok tt (mkState m' (log st) (hashed st))
        | inl e => Raise e st
        end.

(** [os.path.exists] on a replica path. *)
Definition os_path_exists (p : path) : M bool :=
  λ st, Ok (path_exists (replica st) p) st.

Definition os_makedirs (p : path) : M unit := on_replica (λ m, makedirs m p).

Definition shutil_copy2 (source : fs) (src dst : path) : M unit :=
  on_replica (λ m, copy2 source m src dst).

Definition os_remove (p : path) : M unit := on_replica (λ m, remove m p).

Definition shutil_rmtree (p : path) : M unit := on_replica (λ m, rmtree m p).

Definition logging_info (e : log_entry) : M unit :=
  λ st, Ok tt (mkState (replica st) (log st ++ [e]) (hashed st)).

(** [calculate_hash(file_path)] on a file of the tree [m], known as
    [which]: the call is recorded, the file is opened and hashed. *)
Definition calculate_hash (which : tree_id) (m : fs) (p : path) : M string :=
  λ st,
    let st' := mkState (replica st) (log st) (hashed st ++ [(which, p)]) in
    match open_rb m p with
    | inl e => Raise e st'
    | inr (_, d) => Ok (hash_content d) st'
    end.

Definition calculate_hash_replica (p : path) : M string :=
  λ st, calculate_hash Replica (replica st) p st.

(** [os.walk(replica_folder, topdown=False)] with the loop body run at
    every triple.  The generator lists a directory when it reaches it,
    walks the sub-directories one after the other, and only then yields the
    directory's own triple, with the names as they were listed.  [fuel]
    bounds the nesting. *)
Fixpoint walk_bottomup (fuel : nat)
    (body : path * list string * list string → M unit) (top : path) : M unit :=
  match fuel with
  | O => ret tt
  | S fuel' =>
      λ st,
        match scandir (replica st) top with
        | None => Ok tt st
        | Some (dirs, files) =>
            (for_each dirs (λ d, walk_bottomup fuel' body (d :: top)) ;;;
             body (top, dirs, files)) st
        end
  end.

(* ===================================================================== *)
(** * The tree reconciler: [sync_folders] *)
(* ===================================================================== *)

(** Lines 34-36, 42-44 and 65-67: create a replica directory that does not
    exist. *)
Definition ensure_dir (p : path) : M unit :=
  let* e := os_path_exists p in
  if negb e then
    os_makedirs p ;;;
    logging_info (DirCreated p)
  else ret tt.

(** Lines 53-59: copy a new file, update a file whose fingerprint
    differs. *)
Definition sync_file (source : fs) (p : path) : M unit :=
  let* e := os_path_exists p in
  if negb e then
    shutil_copy2 source p p ;;;
    logging_info (FileCopied p)
  else
    let* h1 := calculate_hash Source source p in
    let* h2 := calculate_hash_replica p in
    if bool_decide (h1 ≠ h2) then
      shutil_copy2 source p p ;;;
      logging_info (FileUpdated p)
    else ret tt.

(** Lines 39-59: the body of the first loop.  [source_files] maps the
    replica path of every file visited to its source path; the two are the
    same relative path. *)
Definition create_update (source : fs) (log_file : string)
    (t : path * list string * list string) (source_files : gmap path path)
  : M (gmap path path) :=
  let '(dirpath, _, filenames) := t in
  ensure_dir dirpath ;;;
  for_fold filenames source_files (λ filename source_files,
    if bool_decide (filename = os_path_basename log_file) then ret source_files
    else
      let p := filename :: dirpath in
      let source_files := <[p := p]> source_files in
      sync_file source p ;;;
      ret source_files).

(** Lines 73-75 for one file. *)
Definition restore_file (source : fs) (p : path) : M unit :=
  let* e := os_path_exists p in
  if negb e then
    shutil_copy2 source p p ;;;
    logging_info (FileRestored p)
  else ret tt.

(** Lines 62-75: the body of the second loop. *)
Definition restore (source : fs) (t : path * list string * list string) : M unit :=
  let '(dirpath, _, filenames) := t in
  ensure_dir dirpath ;;;
  for_each filenames (λ filename, restore_file source (filename :: dirpath)).

(** Lines 81-84 for one file and lines 87-91 for one directory. *)
Definition prune_file (source_files : gmap path path) (p : path) : M unit :=
  if bool_decide (source_files !! p = None) then
    let* e := os_path_exists p in
    if e then
      os_remove p ;;;
      logging_info (FileDeleted p)
    else ret tt
  else ret tt.

Definition prune_subdir (source : fs) (p : path) : M unit :=
  if negb (path_exists source p) then
    shutil_rmtree p ;;;
    logging_info (DirDeleted p)
  else ret tt.

(** Lines 78-91: the body of the third loop. *)
Definition prune (source : fs) (source_files : gmap path path)
    (t : path * list string * list string) : M unit :=
  let '(dirpath, dirnames, filenames) := t in
  for_each filenames (λ filename, prune_file source_files (filename :: dirpath)) ;;;
  for_each dirnames (λ dirname, prune_subdir source (dirname :: dirpath)).

(** [sync_folders(source_folder, replica_folder, log_file)].  [source] is
    the tree at [source_folder]; the tree at [replica_folder] is in the
    state. *)
Definition sync_folders (source : fs) (log_file : string) : M unit :=
  ensure_dir [] ;;;
  let* source_files := for_fold (os_walk source []) ∅ (create_update source log_file) in
  for_each (os_walk source []) (restore source) ;;;
  λ st, walk_bottomup (S (depth (replica st))) (prune source source_files) [] st.




(* ===================================================================== *)
(** * The entry point: [main] *)
(* ===================================================================== *)

(** What [main] acts on: the tree at [source_folder] (without a root entry
    when the path does not exist), the state of [sync_folders] (the tree at
    the replica path and the lines logged), the file the logging module was
    configured with, if it was, and the lines printed. *)
Record world : Type := mkWorld {
  source_tree : fs;
  disk : state;
  logging_file : option string;
  stdout : list string
}.

Inductive outcome : Type :=
  | Returned
  | Crashed (e : exn).

(** Lines 143 and 146. *)
Definition replica_folder_of (source_folder : string) : string :=
  os_path_join (os_path_dirname source_folder)
               (os_path_basename source_folder +:+ "_sync").

Definition log_file_path_of (source_folder : string) : string :=
  os_path_join (os_path_dirname source_folder) "sync.log".

(** [setup_logging(log_path)].  It is called once the source folder is
    known to exist, so the directory of the log file, which is the
    directory of the source folder, exists unless its name is empty; with
    the empty name [os.path.exists] is false and [os.makedirs] raises. *)
Definition setup_logging (log_path : string) (w : world) : exn + world :=
  let log_dir := os_path_dirname log_path in
  if bool_decide (log_dir = ""%string) then inl FileNotFoundError
  else inr (mkWorld (source_tree w) (disk w) (Some log_path) (stdout w)).

(** The loop of lines 165-167, left by [KeyboardInterrupt] after [ticks]
    periods. *)
Fixpoint timer_loop (ticks : nat) (log_file : string) (w : world) : outcome * world :=
  match ticks with
  | O => (Returned, w)
  | S ticks' =>
      match sync_folders (source_tree w) log_file (disk w) with
      | Ok _ st =>
          timer_loop ticks' log_file
            (mkWorld (source_tree w) st (logging_file w) (stdout w))
      | Raise e st =>
          (Crashed e, mkWorld (source_tree w) st (logging_file w) (stdout w))
      end
  end.

(** [main()] with the command-line argument [source_folder].  The passes
    the file-system observer triggers in its own thread are not part of
    the model.  The two trees of the world are separate, and a pass maps a
    path of one to the same relative path of the other: this is what lines
    40, 63 and 88 do for a source folder [d/n] whose last component [n] is
    a name other than [.] and [..], for which line 143 makes the replica
    folder the sibling [d/n_sync].  With a trailing slash, or with [.] or
    [..] as the last component, the replica folder lies inside the source
    folder, and the passes [main] runs are not those of this model; the
    properties of the passes of [main] are stated for the first kind of
    name only. *)
Definition main (source_folder : string) (ticks : nat) (w : world) : outcome * world :=
  let log_file_path := log_file_path_of source_folder in
  if negb (path_exists (source_tree w) []) then
    (Returned,
     mkWorld (source_tree w) (disk w) (logging_file w)
       (stdout w ++ [("Source folder does not exist: " +:+ source_folder)%string]))
  else
    match setup_logging log_file_path w with
    | inl e => (Crashed e, w)
    | inr w1 =>
        match sync_folders (source_tree w1) log_file_path (disk w1) with
        | Ok _ st =>
            timer_loop ticks log_file_path
              (mkWorld (source_tree w1) st (logging_file w1) (stdout w1))
        | Raise e st =>
            (Crashed e, mkWorld (source_tree w1) st (logging_file w1) (stdout w1))
        end
    end.

(* ===================================================================== *)
(** * Specification vocabulary *)
(* ===================================================================== *)

(** ** Well-formed trees *)

Definition parent_is_dir (m : fs) (p : path) : bool :=
  match p with
  | [] => true
  | _ :: q => is_dir (m !! q)
  end.

(** Every entry lies in a directory of the tree. *)
Definition closed (m : fs) : Prop :=
  map_Forall (λ p _, parent_is_dir m p = true) m.

Global Instance closed_dec m : Decision (closed m).
Proof. unfold closed. apply _. Defined.

(** A tree whose root is an existing directory. *)
Definition tree (m : fs) : Prop := closed m ∧ m !! [] = Some Dir.

Global Instance tree_dec m : Decision (tree m).
Proof. unfold tree. apply _. Defined.

(** ** The log-file name *)

Definition log_named (log_file : string) (p : path) : Prop :=
  basename p = os_path_basename log_file.

Global Instance log_named_dec log_file p : Decision (log_named log_file p).
Proof. unfold log_named. apply _. Defined.

(** No regular file of the tree bears the name of the log file. *)
Definition no_log_named (log_file : string) (m : fs) : Prop :=
  map_Forall (λ p v, is_file (Some v) && bool_decide (log_named log_file p) = false) m.

Global Instance no_log_named_dec log_file m : Decision (no_log_named log_file m).
Proof. unfold no_log_named. apply _. Defined.

(** ** Replicas a pass can process without an exception

    No source directory faces a regular file in the replica, every source
    file can be read, and a source file that is mirrored faces nothing, or
    a readable regular file that has the same fingerprint or can be
    written. *)

Definition dir_or_absent (o : option node) : bool :=
  match o with
  | None | Some Dir => true
  | Some (File _ _ _ _) => false
  end.

(** What the source content [d] can be brought to: nothing, or a readable
    file that need not be rewritten or can be. *)
Definition syncable (o : option node) (d : list byte) : bool :=
  match o with
  | None => true
  | Some (File true w' _ d') =>
      w' || bool_decide (hash_content d = hash_content d')
  | Some (File false _ _ _) | Some Dir => false
  end.

Definition compatible_entry (log_file : string) (m : fs) (p : path) (v : node) : bool :=
  match v with
  | Dir => dir_or_absent (m !! p)
  | File r _ _ d =>
      r && (bool_decide (log_named log_file p) || syncable (m !! p) d)
  end.

Definition compatible (log_file : string) (source m : fs) : Prop :=
  map_Forall (λ p v, compatible_entry log_file m p v = true) source.

Global Instance compatible_dec log_file source m : Decision (compatible log_file source m).
Proof. unfold compatible. apply _. Defined.

(** ** Observations *)

(** The relative paths of the regular files of a tree. *)
Definition file_paths (m : fs) : gset path :=
  dom (filter (λ kv : path * node, is_file (Some kv.2) = true) m).

(** The content and the fingerprint of the file at a path. *)
Definition content (m : fs) (p : path) : option (list byte) :=
  match m !! p with
  | Some (File _ _ _ d) => Some d
  | _ => None
  end.

Definition fingerprint (m : fs) (p : path) : option string :=
  hash_content <$> content m p.

(** The state of a result, however the run ended. *)
Definition final {A} (r : result A) : state :=
  match r with
  | Ok _ st => st
  | Raise _ st => st
  end.

Definition returns {A} (r : result A) : Prop :=
  match r with
  | Ok _ _ => True
  | Raise _ _ => False
  end.

(** ** Hoare triples with an exceptional postcondition *)

Definition hoare {A} (P : state → Prop) (c : M A)
    (Q : A → state → Prop) (E : exn → state → Prop) : Prop :=
  ∀ st, P st →
    match c st with
    | Ok a st' => Q a st'
    | Raise e st' => E e st'
    end.

(** Two states that differ at most in the record of fingerprint calls. *)
Definition same_effects (st1 st2 : state) : Prop :=
  replica st1 = replica st2 ∧ log st1 = log st2.

Definition same_outcome {A} (r1 r2 : result A) : Prop :=
  match r1, r2 with
  | Ok a1 st1, Ok a2 st2 => a1 = a2 ∧ same_effects st1 st2
  | Raise e1 st1, Raise e2 st2 => e1 = e2 ∧ same_effects st1 st2
  | _, _ => False
  end.

(** ** Concrete contents used in examples: the two 128-byte messages of
    Wang and Yu with the same MD5 digest *)

Definition collision_a : list byte := unhex
  ("d131dd02c5e6eec4693d9a0698aff95c2fcab58712467eab4004583eb8fb7f89" +:+
   "55ad340609f4b30283e488832571415a085125e8f7cdc99fd91dbdf280373c5b" +:+
   "d8823e3156348f5bae6dacd436c919c6dd53e2b487da03fd02396306d248cda0" +:+
   "e99f33420f577ee8ce54b67080a80d1ec69821bcb6a8839396f9652b6ff72a70").

Definition collision_b : list byte := unhex
  ("d131dd02c5e6eec4693d9a0698aff95c2fcab50712467eab4004583eb8fb7f89" +:+
   "55ad340609f4b30283e4888325f1415a085125e8f7cdc99fd91dbd7280373c5b" +:+
   "d8823e3156348f5bae6dacd436c919c6dd53e23487da03fd02396306d248cda0" +:+
   "e99f33420f577ee8ce54b67080280d1ec69821bcb6a8839396f965ab6ff72a70").

(** A tree given by the list of its entries. *)
Definition tree_of (l : list (path * node)) : fs := list_to_map l.

Definition text (s : string) : node := File true true 0 (bytes_of_string s).

(** ** What the steps of a pass do to the replica *)

(** The create/update and restore phases only add: a directory where there
    was nothing (the root, or a path that is a directory in the source), or
    the copy of a readable source file at its own path, where there was
    nothing or a file with another fingerprint. *)
Definition grown (source m m' : fs) : Prop :=
  ∀ q, m' !! q = m !! q
       ∨ (m !! q = None ∧ m' !! q = Some Dir ∧ (q = [] ∨ source !! q = Some Dir))
       ∨ (q ≠ [] ∧ ∃ w t d, source !! q = Some (File true w t d)
                            ∧ m' !! q = Some (File true w t d)
                            ∧ (m !! q = None
                               ∨ ∃ t' d', m !! q = Some (File true true t' d')
                                          ∧ hash_content d ≠ hash_content d')).

(** The prune phase only removes, only below the root, and only a file
    that the first loop did not record or what lies in a directory that
    the source does not have. *)
Definition shrunk (source : fs) (source_files : gmap path path) (m m' : fs) : Prop :=
  ∀ q, m' !! q = m !! q
       ∨ (m' !! q = None ∧ q ≠ []
          ∧ ((is_file (m !! q) = true ∧ source_files !! q = None)
             ∨ ∃ a, a `suffix_of` q ∧ m !! a = Some Dir ∧ source !! a = None)).

(** The replica holds a readable file with the fingerprint of the source
    file at the same path. *)
Definition mirrored (source m : fs) (p : path) : Prop :=
  ∃ w t d w' t' d', source !! p = Some (File true w t d)
                    ∧ m !! p = Some (File true w' t' d')
                    ∧ hash_content d = hash_content d'.

(** A source file can be mirrored: it can be read, and it faces nothing in
    an existing directory, or a readable file that has the same fingerprint
    or can be written. *)
Definition can_sync (source m : fs) (p : path) : Prop :=
  (∃ w t d, source !! p = Some (File true w t d) ∧ syncable (m !! p) d = true)
  ∧ (m !! p = None → parent_is_dir m p = true).

(** The outcomes of lines 34-36 (42-44, 65-67). *)
Inductive ensure_dir_outcome (p : path) (st : state) : result unit → Prop :=
  | ed_exists :
      is_Some (replica st !! p) →
      ensure_dir_outcome p st (Ok tt st)
  | ed_created m' :
      replica st !! p = None →
      (∀ q, q `suffix_of` p → dir_or_absent (replica st !! q) = true) →
      (∀ q, m' !! q = if decide (q `suffix_of` p ∧ replica st !! q = None)
                      then Some Dir else replica st !! q) →
      ensure_dir_outcome p st
        (Ok tt (mkState m' (log st ++ [DirCreated p]) (hashed st)))
  | ed_raised e q :
      q `suffix_of` p → is_file (replica st !! q) = true →
      ensure_dir_outcome p st (Raise e st).

(** The outcomes of lines 53-59. *)
Inductive sync_file_outcome (source : fs) (p : path) (st : state)
  : result unit → Prop :=
  | sf_copied w t d :
      replica st !! p = None →
      source !! p = Some (File true w t d) →
      parent_is_dir (replica st) p = true →
      sync_file_outcome source p st
        (Ok tt (mkState (<[p := File true w t d]> (replica st))
                        (log st ++ [FileCopied p]) (hashed st)))
  | sf_updated w t d t' d' :
      source !! p = Some (File true w t d) →
      replica st !! p = Some (File true true t' d') →
      hash_content d ≠ hash_content d' →
      sync_file_outcome source p st
        (Ok tt (mkState (<[p := File true w t d]> (replica st))
                        (log st ++ [FileUpdated p])
                        (hashed st ++ [(Source, p); (Replica, p)])))
  | sf_unchanged w t d w' t' d' :
      source !! p = Some (File true w t d) →
      replica st !! p = Some (File true w' t' d') →
      hash_content d = hash_content d' →
      sync_file_outcome source p st
        (Ok tt (mkState (replica st) (log st)
                        (hashed st ++ [(Source, p); (Replica, p)])))
  | sf_raised e h :
      ¬ can_sync source (replica st) p →
      sync_file_outcome source p st (Raise e (mkState (replica st) (log st) h)).

Inductive restore_file_outcome (source : fs) (p : path) (st : state)
  : result unit → Prop :=
  | rf_exists :
      is_Some (replica st !! p) →
      restore_file_outcome source p st (Ok tt st)
  | rf_restored w t d :
      replica st !! p = None →
      source !! p = Some (File true w t d) →
      parent_is_dir (replica st) p = true →
      restore_file_outcome source p st
        (Ok tt (mkState (<[p := File true w t d]> (replica st))
                        (log st ++ [FileRestored p]) (hashed st)))
  | rf_raised e :
      replica st !! p = None →
      ¬ can_sync source (replica st) p →
      restore_file_outcome source p st (Raise e st).

Inductive prune_file_outcome (source_files : gmap path path) (p : path)
    (st : state) : result unit → Prop :=
  | pf_kept :
      is_Some (source_files !! p) ∨ replica st !! p = None →
      prune_file_outcome source_files p st (Ok tt st)
  | pf_deleted :
      source_files !! p = None →
      is_file (replica st !! p) = true →
      prune_file_outcome source_files p st
        (Ok tt (mkState (delete p (replica st))
                        (log st ++ [FileDeleted p]) (hashed st)))
  | pf_raised e :
      source_files !! p = None →
      replica st !! p = Some Dir →
      prune_file_outcome source_files p st (Raise e st).

Inductive prune_subdir_outcome (source : fs) (p : path) (st : state)
  : result unit → Prop :=
  | pd_kept :
      is_Some (source !! p) →
      prune_subdir_outcome source p st (Ok tt st)
  | pd_deleted :
      source !! p = None →
      replica st !! p = Some Dir →
      prune_subdir_outcome source p st
        (Ok tt (mkState (filter (λ kv : path * node, ¬ p `suffix_of` kv.1) (replica st))
                        (log st ++ [DirDeleted p]) (hashed st)))
  | pd_raised e :
      source !! p = None →
      replica st !! p ≠ Some Dir →
      prune_subdir_outcome source p st (Raise e st).

(** ** Invariants of the three loops *)

(** The files the first loop has dealt with after the triples [ts]: the
    listed files that do not bear the name of the log file. *)
Definition visited (log_file : string) (ts : list (path * list string * list string))
    (p : path) : Prop :=
  ∃ d dirs files n, (d, dirs, files) ∈ ts ∧ n ∈ files
                    ∧ n ≠ os_path_basename log_file ∧ p = n :: d.

(** What a line logged by the first loop says about the replica [m0] the
    pass started from. *)
Definition entry_ok1 (source m0 : fs) (e : log_entry) : Prop :=
  match e with
  | DirCreated q => m0 !! q = None ∧ (q = [] ∨ source !! q = Some Dir)
  | FileCopied q => m0 !! q = None ∧ is_file (source !! q) = true
  | FileUpdated q =>
      ∃ w t d t' d', source !! q = Some (File true w t d)
                     ∧ m0 !! q = Some (File true true t' d')
                     ∧ hash_content d ≠ hash_content d'
  | FileRestored _ | FileDeleted _ | DirDeleted _ => False
  end.

(** Every file the first loop wrote has its line. *)
Definition log_complete1 (m0 m : fs) (new : list log_entry) : Prop :=
  ∀ q, is_file (m !! q) = true → m !! q ≠ m0 !! q →
       (m0 !! q = None ∧ FileCopied q ∈ new)
       ∨ (is_file (m0 !! q) = true ∧ FileUpdated q ∈ new).

(** What a line logged by the second loop says about the replica [m1] the
    loop started from. *)
Definition entry_ok2 (source m1 : fs) (e : log_entry) : Prop :=
  match e with
  | DirCreated q => m1 !! q = None ∧ source !! q = Some Dir
  | FileRestored q => m1 !! q = None ∧ is_file (source !! q) = true
  | FileCopied _ | FileUpdated _ | FileDeleted _ | DirDeleted _ => False
  end.

(** The third loop logs deletions only: of a file of the replica [m2] it
    started from that the first loop did not record, of a directory of [m2]
    that the source does not have. *)
Definition entry_ok3 (source : fs) (source_files : gmap path path) (m2 : fs)
    (e : log_entry) : Prop :=
  match e with
  | FileDeleted q => is_file (m2 !! q) = true ∧ source_files !! q = None
  | DirDeleted q => m2 !! q = Some Dir ∧ source !! q = None
  | DirCreated _ | FileCopied _ | FileUpdated _ | FileRestored _ => False
  end.

(** What a deletion logged by the third loop says about the source. *)
Definition deletion_sound (log_file : string) (source : fs) (e : log_entry) : Prop :=
  match e with
  | FileDeleted q => ¬ (is_file (source !! q) = true ∧ ¬ log_named log_file q)
  | DirDeleted q => source !! q = None
  | DirCreated _ | FileCopied _ | FileUpdated _ | FileRestored _ => False
  end.

(** The path a logged line is about. *)
Definition entry_path (e : log_entry) : path :=
  match e with
  | DirCreated q | FileCopied q | FileUpdated q | FileRestored q
  | FileDeleted q | DirDeleted q => q
  end.

(** The pass started from the replica [m0] and the log [l0], and the
    replica [m0] can be processed. *)
Definition good (log_file : string) (source m0 : fs) : Prop :=
  compatible log_file source m0 ∧ source !! [] = Some Dir.

(** What holds of the state when the first or the second loop is left by an
    exception. *)
Definition aborted (log_file : string) (source m0 : fs) (l0 : list log_entry)
    (st : state) : Prop :=
  closed (replica st) ∧ grown source m0 (replica st)
  ∧ (∃ new, log st = l0 ++ new) ∧ ¬ good log_file source m0.

(** The invariant of the first loop, after the triples [done], with the
    local variable [source_files]. *)
Definition inv1 (log_file : string) (source m0 : fs) (l0 : list log_entry)
    (done : list (path * list string * list string))
    (source_files : gmap path path) (st : state) : Prop :=
  closed (replica st) ∧ grown source m0 (replica st)
  ∧ (∃ new, log st = l0 ++ new ∧ Forall (entry_ok1 source m0) new
            ∧ log_complete1 m0 (replica st) new)
  ∧ (∀ p, is_Some (source_files !! p) ↔ visited log_file done p)
  ∧ (∀ p, visited log_file done p → mirrored source (replica st) p)
  ∧ (∀ d dirs files, (d, dirs, files) ∈ done → is_Some (replica st !! d)).

(** The invariant of the second loop, started from the replica [m1] and the
    log [l1]. *)
Definition inv2 (source m1 : fs) (l1 : list log_entry) (st : state) : Prop :=
  closed (replica st) ∧ grown source m1 (replica st)
  ∧ (∃ new, log st = l1 ++ new ∧ Forall (entry_ok2 source m1) new).

(** [q] lies strictly below [top]. *)
Definition below (top q : path) : Prop := top `suffix_of` q ∧ q ≠ top.

(** Below [top] and down to the nesting [fuel], the replica holds no file
    that the first loop did not record and no directory that the source
    does not have. *)
Definition pruned (source : fs) (source_files : gmap path path)
    (fuel : nat) (top : path) (m : fs) : Prop :=
  ∀ q, below top q → (length q < length top + fuel)%nat →
    match m !! q with
    | Some (File _ _ _ _) => is_Some (source_files !! q)
    | Some Dir => is_Some (source !! q)
    | None => True
    end.

(** What the third loop does between two states: it only removes, only at
    the paths [touched], and it logs deletions only. *)
Definition pruning (source : fs) (source_files : gmap path path)
    (touched : path → Prop) (st st' : state) : Prop :=
  closed (replica st') ∧ shrunk source source_files (replica st) (replica st')
  ∧ (∀ q, ¬ touched q → replica st' !! q = replica st !! q)
  ∧ (∃ new, log st' = log st ++ new
            ∧ Forall (entry_ok3 source source_files (replica st)) new).

(** The outcome of a walk of the third loop from [top], started in the
    state [st]. *)
Definition walked (source : fs) (source_files : gmap path path)
    (fuel : nat) (top : path) (st : state) (r : result unit) : Prop :=
  match r with
  | Ok _ st' =>
      pruning source source_files (below top) st st'
      ∧ pruned source source_files fuel top (replica st')
  | Raise _ _ => False
  end.

(** What holds of the state a pass returns in, when it was started from
    the replica [m0] and the log [l0]: [m1] and [m2] are the replica after
    the first and after the second loop. *)
Definition pass_ok (log_file : string) (source m0 : fs) (l0 : list log_entry)
    (st' : state) : Prop :=
  ∃ (source_files : gmap path path) (m1 m2 : fs) (new1 new2 new3 : list log_entry),
    closed m2 ∧ closed (replica st')
    ∧ grown source m0 m1 ∧ grown source m1 m2
    ∧ shrunk source source_files m2 (replica st')
    ∧ (∀ p, is_Some (source_files !! p) ↔ visited log_file (os_walk source []) p)
    ∧ (∀ p, visited log_file (os_walk source []) p → mirrored source m1 p)
    ∧ (∀ d dirs files, (d, dirs, files) ∈ os_walk source [] → is_Some (m1 !! d))
    ∧ is_Some (m1 !! [])
    ∧ log st' = l0 ++ new1 ++ new2 ++ new3
    ∧ Forall (entry_ok1 source m0) new1 ∧ log_complete1 m0 m1 new1
    ∧ Forall (entry_ok2 source m1) new2
    ∧ Forall (entry_ok3 source source_files m2) new3
    ∧ pruned source source_files (S (depth m2)) [] (replica st').

(** The replica [m] mirrors the source: the state a pass leaves behind. *)
Definition settled (log_file : string) (source m : fs) : Prop :=
  closed m ∧ compatible log_file source m ∧ m !! [] = Some Dir
  ∧ (∀ p, is_file (m !! p) = true →
          is_file (source !! p) = true ∧ ¬ log_named log_file p)
  ∧ (∀ p, is_file (source !! p) = true → ¬ log_named log_file p →
          mirrored source m p)
  ∧ (∀ d, source !! d = Some Dir → m !! d = Some Dir)
  ∧ (∀ q, m !! q = Some Dir → is_Some (source !! q)).

(** ** Concrete trees used in examples *)

Definition log_path : string := "/data/sync.log".

(** The tree of the end-to-end scenario. *)
Definition demo_source : fs :=
  tree_of [([], Dir); (["a.txt"], text "hello");
           (["sub"], Dir); (["b.txt"; "sub"], text "world")].

(** A state with the replica [m], an empty log and no fingerprint call. *)
Definition fresh (m : fs) : state := mkState m [] [].

(** A source file and a replica file with different bytes and the same
    MD5 digest. *)
Definition collision_source : fs :=
  tree_of [([], Dir); (["a.bin"], File true true 0 collision_a)].

Definition collision_replica : fs :=
  tree_of [([], Dir); (["a.bin"], File true true 0 collision_b)].

(** An empty source directory that faces a regular file. *)
Definition conflict_source : fs := tree_of [([], Dir); (["d"], Dir)].

Definition conflict_replica : fs := tree_of [([], Dir); (["d"], text "x")].

(** A source that holds a file with the name of the log file. *)
Definition logfile_source : fs :=
  tree_of [([], Dir); (["sync.log"], text "x")].

(** A source file that cannot be read, and a replica with a stale file. *)
Definition unreadable_source : fs :=
  tree_of [([], Dir); (["a.txt"], File false true 0 (bytes_of_string "secret"))].


Definition stale_replica : fs :=
  tree_of [([], Dir); (["old.txt"], text "old")].

(** A replica whose copy of [a.txt] has other bytes and another
    modification time than the one of [demo_source]. *)
Definition outdated_replica : fs :=
  tree_of [([], Dir); (["a.txt"], File true true 7 (bytes_of_string "HELLO"))].

(** A source without entries, and a replica path that is a regular file. *)
Definition empty_source : fs := tree_of [([], Dir)].

Definition file_at_root : fs := tree_of [([], text "not a directory")].

(** ** Two programs with the same effects

    Started in states with the same replica and the same log, they end the
    same way, with the same value or the same exception, the same replica
    and the same log. *)
Definition sim {A} (c1 c2 : M A) : Prop :=
  ∀ st1 st2, same_effects st1 st2 → same_outcome (c1 st1) (c2 st2).

(** ** Folder names as [main] receives them *)

(** A name without a slash, and a name that does not end with one. *)
Definition slash_free (s : string) : Prop :=
  Forall (λ c, c ≠ slash) (String.list_ascii_of_string s).

Global Instance slash_free_dec s : Decision (slash_free s).
Proof. unfold slash_free. apply _. Defined.

Definition no_trailing_slash (s : string) : Prop :=
  last (String.list_ascii_of_string s) ≠ Some slash.

Global Instance no_trailing_slash_dec s : Decision (no_trailing_slash s).
Proof. unfold no_trailing_slash. apply _. Defined.

(* ===================================================================== *)
(** * The event handler: [SyncHandler] *)
(* ===================================================================== *)

Module SyncHandler.

(** Lines 120-123: the three names the handler is built with. *)
Record t : Type := mk {
  source_folder : string;
  replica_folder : string;
  log_file : string
}.

(** [on_any_event(self, event)], lines 125-126: a pass over the trees at
    the two folders of the handler, whatever the event is.  An exception
    of the pass leaves the handler. *)
Definition on_any_event {E} (self : t) (event : E) (w : world) : outcome * world :=
  match sync_folders (source_tree w) (log_file self) (disk w) with
  | Ok _ st => (Returned, mkWorld (source_tree w) st (logging_file w) (stdout w))
  | Raise e st => (Crashed e, mkWorld (source_tree w) st (logging_file w) (stdout w))
  end.

End SyncHandler.

(** Line 159: the handler [main] creates. *)
Definition handler_of (source_folder : string) : SyncHandler.t :=
  SyncHandler.mk source_folder (replica_folder_of source_folder)
    (log_file_path_of source_folder).

(** ** Further trees used in examples *)

(** A source directory that holds a file, facing a regular file; a source
    file facing a directory. *)
Definition nested_source : fs :=
  tree_of [([], Dir); (["d"], Dir); (["f.txt"; "d"], text "x")].

Definition dir_for_file_replica : fs :=
  tree_of [([], Dir); (["a.txt"], Dir)].

(** A replica with a stale directory that holds a file. *)
Definition cluttered_replica : fs :=
  tree_of [([], Dir); (["old"], Dir); (["x.txt"; "old"], text "x");
           (["a.txt"], text "hello")].

(** ** What a logged line says

    What a line logged by a pass says about the source and about the
    replica [m0] the pass started from. *)
Definition entry_sound (log_file : string) (source m0 : fs) (e : log_entry) : Prop :=
  match e with
  | DirCreated q => m0 !! q = None ∧ (q = [] ∨ source !! q = Some Dir)
  | FileCopied q => m0 !! q = None ∧ is_file (source !! q) = true
  | FileUpdated q =>
      ∃ w t d t' d', source !! q = Some (File true w t d)
                     ∧ m0 !! q = Some (File true true t' d')
                     ∧ hash_content d ≠ hash_content d'
  | FileRestored q =>
      m0 !! q = None ∧ is_file (source !! q) = true ∧ log_named log_file q
  | FileDeleted q =>
      ¬ (is_file (source !! q) = true ∧ ¬ log_named log_file q)
      ∧ (is_file (m0 !! q) = true
         ∨ (is_file (source !! q) = true ∧ log_named log_file q))
  | DirDeleted q => m0 !! q = Some Dir ∧ source !! q = None
  end.

(** The replica has a directory where the source file [p] goes, or a
    regular file where one of the directories above [p] goes. *)
Definition blocked (m : fs) (p : path) : Prop :=
  m !! p = Some Dir
  ∨ ∃ a, a `suffix_of` p ∧ a ≠ p ∧ is_file (m !! a) = true.

(** ** The fingerprints a pass computes *)

(** The calls of [calculate_hash] for the files at [ps]: for each, the
    source file and then the replica file (line 57). *)
Definition fingerprint_calls (ps : list path) : list (tree_id * path) :=
  mjoin ((λ p, [(Source, p); (Replica, p)]) <$> ps).

(** The record of the fingerprint calls during the first loop, after the
    triples [done], in a pass started from the replica [m0] and the record
    [h0]: the files dealt with that had a counterpart, once each; and
    the files not dealt with yet face what they faced at the start. *)
Definition inv_hashed (log_file : string) (source m0 : fs)
    (h0 : list (tree_id * path))
    (done : list (path * list string * list string)) (st : state) : Prop :=
  ∃ ps, hashed st = h0 ++ fingerprint_calls ps ∧ NoDup ps
        ∧ (∀ p, p ∈ ps ↔ visited log_file done p ∧ is_Some (m0 !! p))
        ∧ (∀ p, is_file (source !! p) = true → ¬ visited log_file done p →
                replica st !! p = m0 !! p).

(** A program that computes no fingerprint. *)
Definition keeps_hashed {A} (c : M A) : Prop :=
  ∀ st, hashed (final (c st)) = hashed st.

(** A source file that can be read but not written, and a replica with a
    copy of it that has other bytes. *)
Definition read_only_source : fs :=
  tree_of [([], Dir); (["a.txt"], File true false 0 (bytes_of_string "hello"))].

Definition read_only_replica : fs :=
  tree_of [([], Dir); (["a.txt"], File true false 7 (bytes_of_string "HELLO"))].

(** A source with an unreadable file between two readable ones. *)
Definition partly_unreadable_source : fs :=
  tree_of [([], Dir); (["a.txt"], text "first");
           (["b.txt"], File false true 0 (bytes_of_string "secret"));
           (["c.txt"], text "last")].

(** ** The files of the first loop, in the order of the walk *)

(** The replica files that the first loop deals with in the directory [d]
    and in the whole walk, in its order: the files named like the log
    file are passed over. *)
Definition files_of (log_file : string) (d : path) (files : list string) : list path :=
  (λ n, n :: d) <$> filter (λ n, n ≠ os_path_basename log_file) files.

Definition walk_files (log_file : string)
    (ts : list (path * list string * list string)) : list path :=
  mjoin ((λ t : path * list string * list string,
            files_of log_file t.1.1 t.2) <$> ts).






(** ** Re-rooting a path name (lines 40, 63 and 88) *)

Fixpoint starts_with (old s : list ascii) : bool :=
  match old, s with
  | [], _ => true
  | _ :: _, [] => false
  | c :: old', c' :: s' => Ascii.eqb c c' && starts_with old' s'
  end.

(** [s.replace(old, new, 1)]: the first occurrence of [old] in [s], from
    the left, is replaced by [new]. *)
Fixpoint replace_first (old new s : list ascii) : list ascii :=
  if starts_with old s then new ++ drop (length old) s
  else match s with
       | [] => []
       | c :: s' => c :: replace_first old new s'
       end.

Definition str_replace_first (s old new : string) : string :=
  String.string_of_list_ascii
    (replace_first (String.list_ascii_of_string old)
                   (String.list_ascii_of_string new)
                   (String.list_ascii_of_string s)).

(** The name [os.walk(top)] yields for the directory at the relative path
    [q], and the name [os.path.join] makes for a file at [q]. *)
Fixpoint path_name (top : string) (q : path) : string :=
  match q with
  | [] => top
  | n :: d => os_path_join (path_name top d) n
  end.

(** The name of an entry of a directory: not empty, without a slash. *)
Definition entry_name (n : string) : Prop := n ≠ ""%string ∧ slash_free n.

(** The text that follows the name of the folder in [path_name]. *)
Fixpoint rel_chars (q : path) : list ascii :=
  match q with
  | [] => []
  | n :: d => rel_chars d ++ slash :: String.list_ascii_of_string n
  end.

(* ===================================================================== *)
(** * The fingerprint: facts about MD5 and the read loop *)
(* ===================================================================== *)

Example md5_empty : md5_hex [] = "d41d8cd98f00b204e9800998ecf8427e"%string.
Proof. vm_compute. reflexivity. Qed.

Example md5_hello :
  md5_hex (bytes_of_string "hello") = "5d41402abc4b2a76b9719d911017c592"%string.
Proof. vm_compute. reflexivity. Qed.


Example collision_distinct : collision_a ≠ collision_b.
Proof. vm_compute. discriminate. Qed.

Example collision_digest :
  md5_hex collision_a = "79054025255fb1a26e4bc422aef54eb4"%string
  ∧ md5_hex collision_b = "79054025255fb1a26e4bc422aef54eb4"%string.
Proof. split; vm_compute; reflexivity. Qed.

Example basename_log : os_path_basename "/data/sync.log" = "sync.log"%string.
Proof. reflexivity. Qed.

Example dirname_bare : os_path_dirname "src" = ""%string.
Proof. reflexivity. Qed.

Example dirname_nested : os_path_dirname "/data/src" = "/data"%string.
Proof. reflexivity. Qed.

Example paths_of_main :
  replica_folder_of "/data/src" = "/data/src_sync"%string
  ∧ log_file_path_of "/data/src" = "/data/sync.log"%string.
Proof. split; reflexivity. Qed.

(** ** The incremental hash object *)

Lemma absorb_fuel_enough (f1 f2 : nat) (h : MD5.words) (l : list byte) :
  (length l ≤ f1)%nat → (length l ≤ f2)%nat →
  MD5.absorb_fuel f1 h l = MD5.absorb_fuel f2 h l.
Proof.
  revert f2 h l. induction f1 as [|f1 IH]; intros f2 h l H1 H2.
  - destruct l; [|simpl in H1; lia]. destruct f2; reflexivity.
  - destruct f2 as [|f2].
    + destruct l; [reflexivity|simpl in H2; lia].
    + cbn [MD5.absorb_fuel]. destruct (64 <=? length l)%nat eqn:Hlen; [|done].
      apply Nat.leb_le in Hlen.
      apply IH; rewrite length_drop; lia.
Qed.

Lemma absorb_step (h : MD5.words) (l : list byte) :
  (64 ≤ length l)%nat →
  MD5.absorb h l = MD5.absorb (MD5.compress h (take 64 l)) (drop 64 l).
Proof.
  intros Hlen. unfold MD5.absorb.
  destruct (length l) as [|k] eqn:Hk; [lia|].
  cbn [MD5.absorb_fuel]. rewrite Hk.
  destruct (64 <=? S k)%nat eqn:Hle; [|apply Nat.leb_gt in Hle; lia].
  apply absorb_fuel_enough; rewrite length_drop; lia.
Qed.

Lemma absorb_short (h : MD5.words) (l : list byte) :
  (length l < 64)%nat → MD5.absorb h l = (h, l).
Proof.
  intros Hlen. unfold MD5.absorb.
  destruct (length l) as [|k] eqn:Hk; [done|].
  cbn [MD5.absorb_fuel]. rewrite Hk.
  by destruct (64 <=? S k)%nat eqn:Hle; [apply Nat.leb_le in Hle; lia|].
Qed.

Lemma absorb_app (h : MD5.words) (l m : list byte) :
  MD5.absorb h (l ++ m)
  = MD5.absorb (MD5.absorb h l).1 ((MD5.absorb h l).2 ++ m).
Proof.
  remember (length l) as n eqn:Hn.
  revert h l Hn. induction (lt_wf n) as [n _ IH]; intros h l ->.
  destruct (decide (64 ≤ length l)%nat) as [Hlen|Hlen].
  - rewrite (absorb_step h l) by done.
    rewrite (absorb_step h (l ++ m)) by (rewrite length_app; lia).
    rewrite take_app_le, drop_app_le by done.
    eapply IH; [|reflexivity]. rewrite length_drop. lia.
  - by rewrite (absorb_short h l) by lia.
Qed.

Lemma md5_update_app (m : MD5.t) (a b : list byte) :
  MD5.update (MD5.update m a) b = MD5.update m (a ++ b).
Proof.
  unfold MD5.update.
  rewrite (app_assoc (MD5.buf m) a b), (absorb_app (MD5.h m) (MD5.buf m ++ a) b).
  destruct (MD5.absorb (MD5.h m) (MD5.buf m ++ a)) as [h1 r1]. simpl.
  destruct (MD5.absorb h1 (r1 ++ b)) as [h2 r2].
  f_equal. rewrite length_app. lia.
Qed.

(** ** The read loop *)

Lemma read_loop_update (fuel n : nat) (f a : list byte) (m0 : MD5.t) :
  (0 < n)%nat → (length f < fuel)%nat →
  read_loop fuel n f (MD5.update m0 a) = MD5.update m0 (a ++ f).
Proof.
  intros Hn. revert f a. induction fuel as [|fuel IH]; intros f a Hf; [lia|].
  simpl. destruct (take n f) as [|b chunk] eqn:Hchunk.
  - destruct f as [|b f]; [by rewrite app_nil_r|].
    destruct n; [lia|discriminate].
  - rewrite md5_update_app, <- Hchunk, IH.
    + by rewrite <- app_assoc, take_drop.
    + rewrite length_drop. destruct f; [by rewrite take_nil in Hchunk|].
      simpl in *. lia.
Qed.

Lemma hash_chunked_whole (n : nat) (data : list byte) :
  (0 < n)%nat → hash_chunked n data = md5_hex data.
Proof.
  intros Hn. unfold hash_chunked, md5_hex.
  change MD5.new with (MD5.update MD5.new []) at 1.
  rewrite read_loop_update by (done || lia). done.
Qed.

Lemma hash_content_whole (data : list byte) : hash_content data = md5_hex data.
Proof. apply hash_chunked_whole. unfold chunk_size. lia. Qed.

(** ** The digest has a fixed length *)

Lemma length_string_of_list_ascii (l : list ascii) :
  String.length (String.string_of_list_ascii l) = length l.
Proof. induction l as [|c l IH]; simpl; [done|by rewrite IH]. Qed.

Lemma length_hex (l : list byte) :
  length (concat (map MD5.hex_byte l)) = (2 * length l)%nat.
Proof. induction l as [|b l IH]; simpl; [done|rewrite IH; lia]. Qed.

Lemma length_digest (m : MD5.t) : length (MD5.digest m) = 16%nat.
Proof.
  unfold MD5.digest.
  destruct (MD5.absorb _ _).1 as [[[a b] c] d].
  by rewrite !length_app; unfold MD5.le_bytes; rewrite !length_map, !length_seq.
Qed.

Lemma length_hexdigest (m : MD5.t) : String.length (MD5.hexdigest m) = 32%nat.
Proof.
  unfold MD5.hexdigest.
  by rewrite length_string_of_list_ascii, length_hex, length_digest.
Qed.

(* ===================================================================== *)
(** * Trees: well-formedness, listings, walks *)
(* ===================================================================== *)

Lemma is_dir_Some (o : option node) : is_dir o = true ↔ o = Some Dir.
Proof. destruct o as [[]|]; simpl; split; congruence. Qed.

Lemma is_file_Some (o : option node) :
  is_file o = true ↔ ∃ r w t d, o = Some (File r w t d).
Proof.
  destruct o as [[r w t d|]|]; simpl; split; try congruence; eauto;
    by intros (?&?&?&?&?).
Qed.

Lemma path_exists_true (m : fs) (p : path) :
  path_exists m p = true ↔ is_Some (m !! p).
Proof.
  unfold path_exists. destruct (m !! p); split; eauto; try done.
Qed.

Lemma path_exists_false (m : fs) (p : path) :
  path_exists m p = false ↔ m !! p = None.
Proof. unfold path_exists. destruct (m !! p); split; congruence. Qed.

Lemma closed_parent (m : fs) (n : string) (q : path) :
  closed m → is_Some (m !! (n :: q)) → m !! q = Some Dir.
Proof.
  intros Hc [v Hv]. apply is_dir_Some.
  exact (map_Forall_lookup_1 _ _ _ _ Hc Hv).
Qed.

Lemma closed_intro (m : fs) :
  (∀ n q, is_Some (m !! (n :: q)) → m !! q = Some Dir) → closed m.
Proof.
  intros H. apply map_Forall_lookup_2. intros [|n q] v Hv; [done|].
  simpl. apply is_dir_Some, (H n). eauto.
Qed.

(** Every proper ancestor of an entry is a directory. *)
Lemma closed_ancestor (m : fs) (p q : path) :
  closed m → is_Some (m !! p) → q `suffix_of` p → q ≠ p → m !! q = Some Dir.
Proof.
  intros Hc. induction p as [|n p IH]; intros Hp Hq Hne.
  - apply suffix_nil_inv in Hq. done.
  - pose proof (closed_parent m n p Hc Hp) as Hpar.
    destruct q as [|n' q'].
    + destruct p as [|n2 p2]; [done|]. apply IH; [by rewrite Hpar|apply suffix_nil|done].
    + apply suffix_cons_inv in Hq as [Heq|Hq]; [done|].
      destruct (decide (n' :: q' = p)) as [<-|Hne']; [done|].
      apply IH; [by rewrite Hpar|done|done].
Qed.

Lemma closed_prefix_exists (m : fs) (p q : path) :
  closed m → is_Some (m !! p) → q `suffix_of` p → is_Some (m !! q).
Proof.
  intros Hc Hp Hq. destruct (decide (q = p)) as [->|Hne]; [done|].
  by rewrite (closed_ancestor m p q).
Qed.

Lemma closed_empty : closed (∅ : fs).
Proof. apply map_Forall_empty. Qed.

(** A closed tree without a root is empty. *)
Lemma closed_no_root (m : fs) (p : path) :
  closed m → m !! [] = None → m !! p = None.
Proof.
  intros Hc Hroot. destruct (m !! p) eqn:Hp; [|done].
  assert (is_Some (m !! [])) as [? ?]; [|congruence].
  eapply closed_prefix_exists; [done|by rewrite Hp|apply suffix_nil].
Qed.

(** ** Listings *)

Lemma elem_of_entries (m : fs) (top : path) (n : string) (v : node) :
  (n, v) ∈ entries m top ↔ m !! (n :: top) = Some v.
Proof.
  unfold entries. rewrite list_elem_of_omap. split.
  - intros ([k w] & Hin & Hf). apply elem_of_map_to_list in Hin.
    simpl in Hf. destruct k as [|n' q]; [done|].
    case_decide; [|done]. by simplify_eq.
  - intros H. exists (n :: top, v). split; [by apply elem_of_map_to_list|].
    simpl. by rewrite decide_True.
Qed.

Lemma NoDup_omap_inj {A B} (f : A → option B) (l : list A) :
  (∀ x y z, x ∈ l → y ∈ l → f x = Some z → f y = Some z → x = y) →
  NoDup l → NoDup (omap f l).
Proof.
  intros Hinj Hnd. induction Hnd as [|x l Hx Hnd IH]; simpl; [constructor|].
  assert (NoDup (omap f l)) as IH'.
  { apply IH. intros ??? ??. apply Hinj; by apply list_elem_of_further. }
  destruct (f x) as [z|] eqn:Hfx; [|done].
  constructor; [|done].
  intros (y & Hy & Hfy)%list_elem_of_omap.
  assert (x = y) as <-; [|done].
  eapply Hinj; [apply list_elem_of_here|by apply list_elem_of_further|done..].
Qed.

Lemma NoDup_entries (m : fs) (top : path) : NoDup (entries m top).
Proof.
  apply NoDup_omap_inj; [|apply NoDup_map_to_list].
  intros [k1 v1] [k2 v2] [n v] _ _ H1 H2. simpl in *.
  destruct k1 as [|n1 q1], k2 as [|n2 q2]; try done.
  repeat case_decide; by simplify_eq.
Qed.

Lemma elem_of_dir_names (m : fs) (top : path) (n : string) :
  n ∈ dir_names (entries m top) ↔ m !! (n :: top) = Some Dir.
Proof.
  unfold dir_names. rewrite list_elem_of_omap. split.
  - intros ([n' v] & Hin & Hf). apply elem_of_entries in Hin. simpl in Hf.
    destruct v; simplify_eq/=. done.
  - intros H. exists (n, Dir). by rewrite elem_of_entries.
Qed.

Lemma elem_of_file_names (m : fs) (top : path) (n : string) :
  n ∈ file_names (entries m top) ↔ is_file (m !! (n :: top)) = true.
Proof.
  unfold file_names. rewrite list_elem_of_omap, is_file_Some. split.
  - intros ([n' v] & Hin & Hf). apply elem_of_entries in Hin. simpl in Hf.
    destruct v; simplify_eq/=. eauto.
  - intros (r & w & t & d & H). exists (n, File r w t d).
    by rewrite elem_of_entries.
Qed.

Lemma NoDup_dir_names (m : fs) (top : path) : NoDup (dir_names (entries m top)).
Proof.
  apply NoDup_omap_inj; [|apply NoDup_entries].
  intros [n1 v1] [n2 v2] n H1%elem_of_entries H2%elem_of_entries Hf1 Hf2.
  simpl in *. destruct v1, v2; simplify_eq/=. done.
Qed.

Lemma NoDup_file_names (m : fs) (top : path) : NoDup (file_names (entries m top)).
Proof.
  apply NoDup_omap_inj; [|apply NoDup_entries].
  intros [n1 v1] [n2 v2] n H1%elem_of_entries H2%elem_of_entries Hf1 Hf2.
  simpl in *. destruct v1, v2; simplify_eq/=. done.
Qed.

Lemma scandir_Some (m : fs) (top : path) (dirs files : list string) :
  scandir m top = Some (dirs, files) ↔
  m !! top = Some Dir
  ∧ dirs = dir_names (entries m top) ∧ files = file_names (entries m top).
Proof.
  unfold scandir. destruct (m !! top) as [[]|];
    (split; [intros ?|intros (? & -> & ->)]); by simplify_eq.
Qed.

Lemma scandir_None (m : fs) (top : path) :
  scandir m top = None ↔ m !! top ≠ Some Dir.
Proof. unfold scandir. destruct (m !! top) as [[]|]; split; congruence. Qed.

(** ** Nesting *)

Lemma depth_bound (m : fs) (p : path) :
  is_Some (m !! p) → (length p ≤ depth m)%nat.
Proof.
  intros [v Hv]. unfold depth. apply max_list_elem_of_le.
  apply list_elem_of_fmap. exists (p, v). split; [done|].
  by apply elem_of_map_to_list.
Qed.

(** ** Walks of a tree that does not change *)

Lemma os_walk_fuel_scandir (fuel : nat) (m : fs) (top d : path)
    (dirs files : list string) :
  (d, dirs, files) ∈ os_walk_fuel fuel m top → scandir m d = Some (dirs, files).
Proof.
  revert top. induction fuel as [|fuel IH]; intros top; simpl.
  - by intros ?%elem_of_nil.
  - destruct (scandir m top) as [[ds fs]|] eqn:Hscan; [|by intros ?%elem_of_nil].
    intros [Heq|Hin]%elem_of_cons; [by simplify_eq|].
    apply list_elem_of_join in Hin as (l & Hin & Hl).
    apply list_elem_of_fmap in Hl as (d' & -> & _). by eapply IH.
Qed.

Lemma os_walk_fuel_complete (fuel : nat) (m : fs) (top k : path) :
  closed m → m !! (k ++ top) = Some Dir → (length k < fuel)%nat →
  (k ++ top, dir_names (entries m (k ++ top)), file_names (entries m (k ++ top)))
    ∈ os_walk_fuel fuel m top.
Proof.
  intros Hc. revert top k. induction fuel as [|fuel IH]; intros top k Hk Hlen; [lia|].
  assert (m !! top = Some Dir) as Htop.
  { destruct k as [|n k]; [done|].
    eapply closed_ancestor; [done|by rewrite Hk|by apply suffix_app_r|].
    intros Heq. apply (f_equal length) in Heq.
    rewrite length_app in Heq. simpl in Heq. lia. }
  simpl. unfold scandir at 1. rewrite Htop.
  destruct (decide (k = [])) as [->|Hne]; [apply list_elem_of_here|].
  apply list_elem_of_further.
  destruct (exists_last Hne) as (k' & n & ->).
  rewrite <- app_assoc in *. simpl in *.
  apply list_elem_of_join. eexists. split.
  - apply IH; [done|]. rewrite length_app in Hlen. simpl in Hlen. lia.
  - apply list_elem_of_fmap. exists n. split; [done|].
    apply elem_of_dir_names.
    destruct k' as [|n' k'']; [done|].
    eapply closed_ancestor; [done|by rewrite Hk|by apply suffix_app_r|].
    intros Heq. apply (f_equal length) in Heq.
    rewrite length_app in Heq. simpl in Heq. lia.
Qed.

Lemma os_walk_dir (m : fs) (d : path) (dirs files : list string) :
  (d, dirs, files) ∈ os_walk m [] →
  m !! d = Some Dir ∧ ∀ n, n ∈ files ↔ is_file (m !! (n :: d)) = true.
Proof.
  intros Hin%os_walk_fuel_scandir. apply scandir_Some in Hin as (Hd & -> & ->).
  split; [done|]. intros n. apply elem_of_file_names.
Qed.

Lemma os_walk_visits_dir (m : fs) (d : path) :
  closed m → m !! d = Some Dir →
  ∃ dirs files, (d, dirs, files) ∈ os_walk m [].
Proof.
  intros Hc Hd. do 2 eexists. unfold os_walk.
  rewrite <- (app_nil_r d) at 1.
  apply os_walk_fuel_complete; [done|by rewrite app_nil_r|].
  assert (length d ≤ depth m)%nat by (apply depth_bound; by rewrite Hd). lia.
Qed.

Lemma os_walk_visits_file (m : fs) (n : string) (d : path) :
  closed m → is_file (m !! (n :: d)) = true →
  ∃ dirs files, (d, dirs, files) ∈ os_walk m [] ∧ n ∈ files.
Proof.
  intros Hc Hf.
  assert (m !! d = Some Dir) as Hd.
  { apply is_file_Some in Hf as (r & w & t & c & Hf).
    eapply closed_parent; [done|by rewrite Hf]. }
  destruct (os_walk_visits_dir m d Hc Hd) as (dirs & files & Hin).
  exists dirs, files. split; [done|]. by apply (os_walk_dir m d dirs files).
Qed.

(* ===================================================================== *)
(** * The file operations *)
(* ===================================================================== *)

Lemma suffix_cons_cases {A} (q p : list A) (n : A) :
  q `suffix_of` n :: p → q = n :: p ∨ q `suffix_of` p.
Proof.
  intros [[|x k] Hk]; simplify_eq/=; [by left|right]. by exists k.
Qed.

Lemma creatable_None (m : fs) (p : path) :
  creatable m p = None ↔ parent_is_dir m p = true.
Proof.
  destruct p as [|n q]; simpl; [done|].
  destruct (m !! q) as [[]|]; simpl; split; congruence.
Qed.

Lemma makedirs_spec (m : fs) (p : path) :
  closed m → m !! p = None →
  match makedirs m p with
  | inr m' =>
      (∀ q, q `suffix_of` p → dir_or_absent (m !! q) = true)
      ∧ (∀ q, m' !! q = if decide (q `suffix_of` p ∧ m !! q = None)
                        then Some Dir else m !! q)
  | inl e => ∃ q, q `suffix_of` p ∧ is_file (m !! q) = true
  end.
Proof.
  intros Hc. induction p as [|n p IH]; intros Hp.
  - simpl. unfold mkdir. rewrite Hp. simpl. split.
    + intros q ->%suffix_nil_inv. by rewrite Hp.
    + intros q. destruct (decide _) as [[->%suffix_nil_inv _]|Hd].
      * apply lookup_insert_eq.
      * rewrite lookup_insert_ne; [done|]. intros <-. by apply Hd.
  - simpl. destruct (path_exists m p) eqn:He.
    + unfold mkdir. rewrite Hp. unfold creatable.
      apply path_exists_true in He as [v Hv]. rewrite Hv.
      destruct v as [r w t d|].
      * exists p. split; [by apply suffix_cons_r|by rewrite Hv].
      * assert (∀ q, q `suffix_of` p → m !! q = Some Dir) as Hanc.
        { intros q Hq. destruct (decide (q = p)) as [->|Hne]; [done|].
          eapply closed_ancestor; [done|by rewrite Hv|done..]. }
        split.
        -- intros q [->|Hq]%suffix_cons_cases; [by rewrite Hp|].
           by rewrite (Hanc q Hq).
        -- intros q. destruct (decide (q = n :: p)) as [->|Hne].
           ++ rewrite lookup_insert_eq. by rewrite decide_True.
           ++ rewrite lookup_insert_ne by done.
              destruct (decide _) as [[Hq Hnone]|Hd]; [|done].
              apply suffix_cons_cases in Hq as [->|Hq]; [done|].
              rewrite (Hanc q Hq) in Hnone. done.
    + apply path_exists_false in He. specialize (IH He).
      destruct (makedirs m p) as [e|m1].
      * destruct IH as (q & Hq & Hf).
        assert (∃ e', mkdir m (n :: p) = inl e') as [e' He'].
        { unfold mkdir, creatable. rewrite Hp, He. eauto. }
        destruct e; rewrite ?He'; exists q; (split; [by apply suffix_cons_r|done]).
      * destruct IH as [Hanc Hlk].
        assert (m1 !! (n :: p) = None) as Hp1.
        { rewrite Hlk, decide_False; [done|].
          intros [Hs _]. by apply suffix_cons_not in Hs. }
        assert (m1 !! p = Some Dir) as Hpar.
        { by rewrite Hlk, decide_True. }
        unfold mkdir, creatable. rewrite Hp1, Hpar. split.
        -- intros q [->|Hq]%suffix_cons_cases; [by rewrite Hp|by apply Hanc].
        -- intros q. destruct (decide (q = n :: p)) as [->|Hne].
           ++ rewrite lookup_insert_eq. by rewrite decide_True.
           ++ rewrite lookup_insert_ne by done. rewrite Hlk.
              destruct (decide (q `suffix_of` p ∧ m !! q = None)) as [[Hq Hn]|Hd].
              ** rewrite decide_True; [done|]. split; [by apply suffix_cons_r|done].
              ** rewrite decide_False; [done|]. intros [Hq Hn]. apply Hd.
                 apply suffix_cons_cases in Hq as [->|Hq]; done.
Qed.

(* ===================================================================== *)
(** * The steps of a pass *)
(* ===================================================================== *)

Lemma ensure_dir_spec (p : path) (st : state) :
  closed (replica st) → ensure_dir_outcome p st (ensure_dir p st).
Proof.
  intros Hc. unfold ensure_dir, bind, os_path_exists, os_makedirs, on_replica,
    logging_info, ret.
  destruct (path_exists (replica st) p) eqn:He; simpl.
  - apply ed_exists. by apply path_exists_true.
  - apply path_exists_false in He.
    pose proof (makedirs_spec (replica st) p Hc He) as Hm.
    destruct (makedirs (replica st) p) as [e|m'].
    + destruct Hm as (q & Hq & Hf). by eapply ed_raised.
    + destruct Hm as [Hanc Hlk]. simpl. by apply ed_created.
Qed.

Lemma copy2_file (source m : fs) (p : path) :
  is_dir (m !! p) = false →
  copy2 source m p p =
    match source !! p with
    | Some (File true w t d) =>
        if writable_of (m !! p) then
          if is_file (m !! p) || parent_is_dir m p
          then inr (<[p := File true w t d]> m)
          else inl (missing_error m p)
        else inl PermissionError
    | Some (File false _ _ _) => inl PermissionError
    | Some Dir => inl IsADirectoryError
    | None => inl (missing_error source p)
    end.
Proof.
  intros Hd. unfold copy2, open_rb, write_file. rewrite Hd.
  destruct (source !! p) as [[[] w t d|]|]; try done. simpl.
  destruct (m !! p) as [[r' [] t' d'|]|] eqn:Hp; simpl; try done.
  destruct (creatable m p) as [e|] eqn:Hcr.
  - destruct (parent_is_dir m p) eqn:Hpar.
    + apply creatable_None in Hpar. congruence.
    + destruct p as [|n q]; simpl in *; [done|].
      destruct (m !! q) as [[]|]; simpl in *; congruence.
  - apply creatable_None in Hcr. by rewrite Hcr.
Qed.

Lemma sync_file_spec (source : fs) (p : path) (st : state) :
  sync_file_outcome source p st (sync_file source p st).
Proof.
  unfold sync_file, bind, os_path_exists, shutil_copy2, on_replica,
    calculate_hash_replica, calculate_hash, logging_info, ret, path_exists.
  destruct (replica st !! p) as [v|] eqn:Hp; simpl.
  - unfold open_rb at 1.
    destruct (source !! p) as [[[] w t d|]|] eqn:Hs; simpl;
      try (apply sf_raised; intros [(?&?&?&?&?) _]; congruence).
    unfold open_rb. rewrite Hp.
    destruct v as [[] w' t' d'|]; simpl;
      try (apply sf_raised; intros [(?&?&?&?&Hr) _]; rewrite Hp in Hr; done).
    rewrite <- !app_assoc. simpl.
    destruct (bool_decide (hash_content d ≠ hash_content d')) eqn:Hh; simpl.
    + apply bool_decide_eq_true in Hh.
      rewrite copy2_file by (by rewrite Hp). rewrite Hs, Hp. simpl.
      destruct w'; simpl.
      * by eapply sf_updated.
      * apply sf_raised. intros [(w2 & t2 & d2 & Hs2 & Hr) _].
        rewrite Hp in Hr. simplify_eq. simpl in Hr.
        by apply bool_decide_eq_true in Hr.
    + apply bool_decide_eq_false in Hh. apply dec_stable in Hh.
      by eapply sf_unchanged.
  - rewrite copy2_file by (by rewrite Hp). rewrite Hp. simpl.
    destruct (source !! p) as [[[] w t d|]|] eqn:Hs; simpl;
      try (destruct st; apply sf_raised; intros [(?&?&?&?&?) _]; simpl in *;
           congruence).
    destruct (parent_is_dir (replica st) p) eqn:Hpar; simpl.
    + by apply sf_copied.
    + destruct st; apply sf_raised. intros [_ Hc]. simpl in *.
      specialize (Hc Hp). congruence.
Qed.

Lemma restore_file_spec (source : fs) (p : path) (st : state) :
  restore_file_outcome source p st (restore_file source p st).
Proof.
  unfold restore_file, bind, os_path_exists, shutil_copy2, on_replica,
    logging_info, ret, path_exists.
  destruct (replica st !! p) as [v|] eqn:Hp; simpl.
  - apply rf_exists. by rewrite Hp.
  - rewrite copy2_file by (by rewrite Hp). rewrite Hp. simpl.
    destruct (source !! p) as [[[] w t d|]|] eqn:Hs; simpl;
      try (apply rf_raised; [done|]; intros [(?&?&?&?&?) _]; congruence).
    destruct (parent_is_dir (replica st) p) eqn:Hpar; simpl.
    + by apply rf_restored.
    + apply rf_raised; [done|]. intros [_ Hc].
      specialize (Hc Hp). congruence.
Qed.

Lemma prune_file_spec (source_files : gmap path path) (p : path) (st : state) :
  prune_file_outcome source_files p st (prune_file source_files p st).
Proof.
  unfold prune_file, bind, os_path_exists, os_remove, on_replica, remove,
    logging_info, ret, path_exists.
  destruct (bool_decide (source_files !! p = None)) eqn:Hsf.
  - apply bool_decide_eq_true in Hsf.
    destruct (replica st !! p) as [[r w t d|]|] eqn:Hp; simpl; rewrite ?Hp; simpl.
    + apply pf_deleted; [done|by rewrite Hp].
    + by apply pf_raised.
    + apply pf_kept. by right.
  - apply bool_decide_eq_false in Hsf. apply pf_kept. left.
    by apply not_eq_None_Some.
Qed.

Lemma prune_subdir_spec (source : fs) (p : path) (st : state) :
  prune_subdir_outcome source p st (prune_subdir source p st).
Proof.
  unfold prune_subdir, bind, shutil_rmtree, on_replica, rmtree, logging_info, ret.
  destruct (path_exists source p) eqn:He; simpl.
  - apply pd_kept. by apply path_exists_true.
  - apply path_exists_false in He.
    destruct (replica st !! p) as [[r w t d|]|] eqn:Hp; simpl; rewrite ?Hp; simpl.
    + apply pd_raised; [done|by rewrite Hp].
    + by apply pd_deleted.
    + apply pd_raised; [done|by rewrite Hp].
Qed.

(* ===================================================================== *)
(** * Hoare rules *)
(* ===================================================================== *)

Lemma hoare_ret {A} (a : A) (Q : A → state → Prop) E :
  hoare (Q a) (ret a) Q E.
Proof. intros st H. exact H. Qed.

Lemma hoare_bind {A B} (P : state → Prop) (c : M A) (k : A → M B)
    (R : A → state → Prop) (Q : B → state → Prop) E :
  hoare P c R E → (∀ a, hoare (R a) (k a) Q E) → hoare P (bind c k) Q E.
Proof.
  intros Hc Hk st HP. unfold bind. specialize (Hc st HP).
  destruct (c st) as [a st'|e st']; [by apply Hk|done].
Qed.

Lemma hoare_weaken {A} (P P' : state → Prop) (c : M A)
    (Q Q' : A → state → Prop) (E E' : exn → state → Prop) :
  hoare P c Q E →
  (∀ st, P' st → P st) → (∀ a st, Q a st → Q' a st) →
  (∀ e st, E e st → E' e st) →
  hoare P' c Q' E'.
Proof.
  intros Hc HP HQ HE st HP'. specialize (Hc st (HP st HP')).
  destruct (c st); eauto.
Qed.

(** A loop, with an invariant that depends on the elements dealt with. *)
Lemma hoare_for_each {A} (I : list A → state → Prop) E
    (l : list A) (body : A → M unit) :
  (∀ done x rest, l = done ++ x :: rest →
     hoare (I done) (body x) (λ _, I (done ++ [x])) E) →
  hoare (I []) (for_each l body) (λ _, I l) E.
Proof.
  intros Hbody.
  assert (∀ rest done, l = done ++ rest →
            hoare (I done) (for_each rest body) (λ _, I l) E) as Hgen.
  { induction rest as [|x rest IH]; intros done Hl.
    - rewrite app_nil_r in Hl. subst. by intros st H.
    - simpl. eapply hoare_bind; [by eapply Hbody|].
      intros []. apply IH. by rewrite <- app_assoc. }
  by apply Hgen.
Qed.

Lemma hoare_for_fold {A B} (I : list A → B → state → Prop) E
    (l : list A) (acc : B) (body : A → B → M B) :
  (∀ done x rest acc, l = done ++ x :: rest →
     hoare (I done acc) (body x acc) (λ acc', I (done ++ [x]) acc') E) →
  hoare (I [] acc) (for_fold l acc body) (λ acc', I l acc') E.
Proof.
  intros Hbody.
  assert (∀ rest done acc, l = done ++ rest →
            hoare (I done acc) (for_fold rest acc body) (λ acc', I l acc') E)
    as Hgen.
  { induction rest as [|x rest IH]; intros done acc' Hl.
    - rewrite app_nil_r in Hl. subst. by intros st H.
    - simpl. eapply hoare_bind; [by eapply Hbody|].
      intros acc''. apply IH. by rewrite <- app_assoc. }
  by apply Hgen.
Qed.

(* ===================================================================== *)
(** * How the replica changes *)
(* ===================================================================== *)

Lemma grown_refl (source m : fs) : grown source m m.
Proof. intros q. by left. Qed.

Lemma grown_trans (source m1 m2 m3 : fs) :
  grown source m1 m2 → grown source m2 m3 → grown source m1 m3.
Proof.
  intros H12 H23 q.
  destruct (H23 q) as [E|[(Hn & Hd & Hs)|(Hne & w & t & d & Hs & Hm & Hprev)]].
  - rewrite E. apply H12.
  - destruct (H12 q) as [E|[(_ & Hd' & _)|(_ & w & t & d & _ & Hm & _)]];
      [|congruence..].
    right; left. by rewrite <- E.
  - destruct (H12 q) as [E|[(_ & Hd' & _)|(_ & w2 & t2 & d2 & Hs2 & Hm2 & _)]].
    + right; right. split; [done|]. exists w, t, d. by rewrite <- E.
    + destruct Hprev as [?|(?&?&?&?)]; congruence.
    + destruct Hprev as [?|(?&?&?&?)]; [congruence|]. by simplify_eq.
Qed.

Lemma grown_mono (source m m' : fs) (q : path) :
  grown source m m' → is_Some (m !! q) → is_Some (m' !! q).
Proof.
  intros H Hq.
  destruct (H q) as [E|[(Hn & _)|(_ & w & t & d & _ & Hm & _)]];
    [by rewrite E|by rewrite Hn in Hq; destruct Hq|by rewrite Hm].
Qed.

Lemma grown_None (source m m' : fs) (q : path) :
  grown source m m' → m' !! q = None → m !! q = None.
Proof.
  intros H Hq. destruct (m !! q) eqn:Hm; [|done].
  destruct (grown_mono source m m' q H) as [? ?]; [by rewrite Hm|congruence].
Qed.

Lemma grown_dir (source m m' : fs) (q : path) :
  grown source m m' → m !! q = Some Dir → m' !! q = Some Dir.
Proof.
  intros H Hq.
  destruct (H q) as [E|[(Hn & _)|(_ & w & t & d & _ & _ & [?|(?&?&?&?)])]];
    congruence.
Qed.

Lemma grown_mirrored (source m m' : fs) (p : path) :
  grown source m m' → mirrored source m p → mirrored source m' p.
Proof.
  intros H (w & t & d & w' & t' & d' & Hs & Hm & Hh).
  destruct (H p) as [E|[(Hn & _)|(_ & w2 & t2 & d2 & Hs2 & Hm2 & _)]].
  - exists w, t, d, w', t', d'. by rewrite E.
  - congruence.
  - simplify_eq. by exists w, t, d, w, t, d.
Qed.

Lemma compatible_lookup (log_file : string) (source m : fs) (p : path) (v : node) :
  compatible log_file source m → source !! p = Some v →
  compatible_entry log_file m p v = true.
Proof. intros Hc Hp. exact (map_Forall_lookup_1 _ _ _ _ Hc Hp). Qed.

Lemma compatible_dir (log_file : string) (source m : fs) (p : path) :
  compatible log_file source m → source !! p = Some Dir →
  m !! p = None ∨ m !! p = Some Dir.
Proof.
  intros Hc Hp. pose proof (compatible_lookup _ _ _ _ _ Hc Hp) as H.
  simpl in H. destruct (m !! p) as [[]|]; simpl in H; eauto; done.
Qed.

Lemma compatible_grown (log_file : string) (source m m' : fs) :
  compatible log_file source m → source !! [] = Some Dir →
  grown source m m' → compatible log_file source m'.
Proof.
  intros Hc Hroot Hg. apply map_Forall_lookup_2. intros p v Hp.
  pose proof (compatible_lookup _ _ _ _ _ Hc Hp) as H.
  destruct (Hg p) as [E|[(Hn & Hd & Hs)|(Hne & w & t & d & Hs & Hm & _)]].
  - destruct v; simpl in *; by rewrite E.
  - assert (v = Dir) as -> by (destruct Hs as [->|?]; congruence).
    simpl. by rewrite Hd.
  - rewrite Hp in Hs. simplify_eq. simpl in *. rewrite Hm. simpl.
    rewrite (bool_decide_eq_true_2 (hash_content d = hash_content d)) by done.
    by rewrite !orb_true_r.
Qed.

Lemma grown_insert_file (source m : fs) (p : path) (w : bool) (t : Z)
    (d : list byte) :
  p ≠ [] → source !! p = Some (File true w t d) →
  (m !! p = None
   ∨ ∃ t' d', m !! p = Some (File true true t' d')
              ∧ hash_content d ≠ hash_content d') →
  grown source m (<[p := File true w t d]> m).
Proof.
  intros Hne Hs Hprev q. destruct (decide (q = p)) as [->|Hq].
  - right; right. split; [done|]. exists w, t, d. by rewrite lookup_insert_eq.
  - left. by rewrite lookup_insert_ne.
Qed.

Lemma grown_makedirs (source m m' : fs) (p : path) :
  closed source → p = [] ∨ source !! p = Some Dir →
  (∀ q, m' !! q = if decide (q `suffix_of` p ∧ m !! q = None)
                  then Some Dir else m !! q) →
  grown source m m'.
Proof.
  intros Hc Hp Hlk q. rewrite Hlk.
  destruct (decide _) as [[Hq Hn]|_]; [|by left].
  right; left. split; [done|]. split; [done|].
  destruct Hp as [->|Hp]; [left; by apply suffix_nil_inv|].
  destruct (decide (q = p)) as [->|Hne]; [by right|].
  right. eapply closed_ancestor; [done|by rewrite Hp|done..].
Qed.

Lemma closed_makedirs (m m' : fs) (p : path) :
  closed m →
  (∀ q, q `suffix_of` p → dir_or_absent (m !! q) = true) →
  (∀ q, m' !! q = if decide (q `suffix_of` p ∧ m !! q = None)
                  then Some Dir else m !! q) →
  closed m'.
Proof.
  intros Hc Hanc Hlk. apply closed_intro. intros n q [v Hv].
  rewrite Hlk in Hv. rewrite Hlk.
  destruct (decide (n :: q `suffix_of` p ∧ m !! (n :: q) = None)) as [[Hs _]|_].
  - apply suffix_cons_l in Hs.
    destruct (decide _) as [|Hd]; [done|].
    specialize (Hanc q Hs). destruct (m !! q) as [[]|] eqn:Hq; try done.
    destruct Hd. done.
  - assert (m !! q = Some Dir) as Hq by (eapply closed_parent; eauto).
    rewrite decide_False; [done|]. intros [_ ?]. congruence.
Qed.

Lemma closed_insert_file (m : fs) (p : path) (r w : bool) (t : Z)
    (d : list byte) :
  closed m →
  is_file (m !! p) = true ∨ (m !! p = None ∧ parent_is_dir m p = true) →
  closed (<[p := File r w t d]> m).
Proof.
  intros Hc Hp. apply closed_intro. intros n q [v Hv].
  assert (m !! q = Some Dir ∧ q ≠ p) as [Hq Hne].
  { destruct (decide (n :: q = p)) as [<-|Hne].
    - split; [|by intros Heq; apply (f_equal length) in Heq; simpl in Heq; lia].
      destruct Hp as [Hf|[_ Hpar]]; [|by apply is_dir_Some].
      apply is_file_Some in Hf as (?&?&?&?&Hf).
      eapply closed_parent; [done|by rewrite Hf].
    - rewrite lookup_insert_ne in Hv by done.
      assert (m !! q = Some Dir) as Hq by (eapply closed_parent; eauto).
      split; [done|]. intros ->.
      destruct Hp as [Hf|[Hn _]]; [|congruence].
      apply is_file_Some in Hf as (?&?&?&?&Hf). congruence. }
  by rewrite lookup_insert_ne.
Qed.

Lemma closed_delete_file (m : fs) (p : path) :
  closed m → is_file (m !! p) = true → closed (delete p m).
Proof.
  intros Hc (r & w & t & d & Hf)%is_file_Some. apply closed_intro.
  intros n q [v Hv]. apply lookup_delete_Some in Hv as [Hne Hv].
  assert (m !! q = Some Dir) as Hq by (eapply closed_parent; eauto).
  rewrite lookup_delete_ne; [done|]. congruence.
Qed.

Lemma lookup_rmtree (m : fs) (p q : path) :
  filter (λ kv : path * node, ¬ p `suffix_of` kv.1) m !! q
  = if decide (p `suffix_of` q) then None else m !! q.
Proof.
  destruct (decide (p `suffix_of` q)) as [Hs|Hs].
  - apply map_lookup_filter_None. right. intros v _ Hn. by apply Hn.
  - destruct (m !! q) as [v|] eqn:Hq.
    + by apply map_lookup_filter_Some.
    + apply map_lookup_filter_None. by left.
Qed.

Lemma closed_rmtree (m : fs) (p : path) :
  closed m → closed (filter (λ kv : path * node, ¬ p `suffix_of` kv.1) m).
Proof.
  intros Hc. apply closed_intro. intros n q [v Hv].
  rewrite lookup_rmtree in Hv. rewrite lookup_rmtree.
  destruct (decide (p `suffix_of` n :: q)) as [|Hs]; [done|].
  rewrite decide_False by (intros ?; apply Hs; by apply suffix_cons_r).
  eapply closed_parent; eauto.
Qed.

(* ===================================================================== *)
(** * The first loop: create and update *)
(* ===================================================================== *)

Section first_loop.

Context (source : fs) (log_file : string) (m0 : fs) (l0 : list log_entry).
Hypothesis Hsrc : closed source.

Lemma visited_snoc_nil (done : list (path * list string * list string))
    (d : path) (dirs : list string) (p : path) :
  visited log_file (done ++ [(d, dirs, [])]) p ↔ visited log_file done p.
Proof.
  split.
  - intros (d' & dirs' & files' & n & Hin & Hn & Hne & ->).
    apply elem_of_app in Hin as [Hin|Hin%list_elem_of_singleton].
    + by exists d', dirs', files', n.
    + simplify_eq. by apply elem_of_nil in Hn.
  - intros (d' & dirs' & files' & n & Hin & Hn & Hne & ->).
    exists d', dirs', files', n. split; [|done]. apply elem_of_app. by left.
Qed.

Lemma visited_snoc_file (done : list (path * list string * list string))
    (d : path) (dirs fdone : list string) (n : string) (p : path) :
  visited log_file (done ++ [(d, dirs, fdone ++ [n])]) p ↔
  visited log_file (done ++ [(d, dirs, fdone)]) p
  ∨ (n ≠ os_path_basename log_file ∧ p = n :: d).
Proof.
  split.
  - intros (d' & dirs' & files' & n' & Hin & Hn & Hne & ->).
    apply elem_of_app in Hin as [Hin|Hin%list_elem_of_singleton].
    + left. exists d', dirs', files', n'. split; [|done].
      apply elem_of_app. by left.
    + simplify_eq. apply elem_of_app in Hn as [Hn|Hn%list_elem_of_singleton].
      * left. exists d, dirs, fdone, n'. split; [|done].
        apply elem_of_app. right. by apply list_elem_of_singleton.
      * subst. by right.
  - intros [(d' & dirs' & files' & n' & Hin & Hn & Hne & ->)|[Hne ->]].
    + apply elem_of_app in Hin as [Hin|Hin%list_elem_of_singleton].
      * exists d', dirs', files', n'. split; [|done]. apply elem_of_app. by left.
      * simplify_eq. exists d, dirs, (fdone ++ [n]), n'.
        split; [apply elem_of_app; right; by apply list_elem_of_singleton|].
        split; [apply elem_of_app; by left|done].
    + exists d, dirs, (fdone ++ [n]), n.
      split; [apply elem_of_app; right; by apply list_elem_of_singleton|].
      split; [apply elem_of_app; right; by apply list_elem_of_singleton|done].
Qed.

Lemma dirs_snoc (P : path → Prop) (done : list (path * list string * list string))
    (d : path) (dirs files : list string) :
  (∀ d' dirs' files', (d', dirs', files') ∈ done ++ [(d, dirs, files)] → P d')
  ↔ (∀ d' dirs' files', (d', dirs', files') ∈ done → P d') ∧ P d.
Proof.
  split.
  - intros H. split.
    + intros d' dirs' files' Hin. eapply H. apply elem_of_app. by left.
    + eapply H. apply elem_of_app. right. by apply list_elem_of_singleton.
  - intros [H1 H2] d' dirs' files' [Hin|Hin%list_elem_of_singleton]%elem_of_app.
    + by eapply H1.
    + by simplify_eq.
Qed.

Lemma source_ancestor_dir (d q : path) :
  source !! d = Some Dir → q `suffix_of` d → source !! q = Some Dir.
Proof.
  intros Hd Hq. destruct (decide (q = d)) as [->|Hne]; [done|].
  eapply closed_ancestor; [done|by rewrite Hd|done..].
Qed.

Lemma aborted_of_inv1 done sf (st st' : state) :
  inv1 log_file source m0 l0 done sf st →
  replica st' = replica st → log st' = log st →
  ¬ good log_file source m0 →
  aborted log_file source m0 l0 st'.
Proof.
  intros (Hc & Hg & (new & Hlog & _) & _) Hr Hl Hbad. unfold aborted.
  rewrite Hr, Hl. split; [done|]. split; [done|]. split; [by exists new|done].
Qed.

Lemma ensure_dir_inv1 done sf (d : path) :
  d = [] ∨ source !! d = Some Dir →
  hoare (inv1 log_file source m0 l0 done sf) (ensure_dir d)
    (λ _ st, inv1 log_file source m0 l0 done sf st ∧ is_Some (replica st !! d))
    (λ _, aborted log_file source m0 l0).
Proof.
  intros Hd st Hinv.
  pose proof Hinv as (Hc & Hg & (new & Hlog & Hok & Hcomp) & Hsf & Hmir & Hdirs).
  destruct (ensure_dir_spec d st Hc) as [Hex|m' Hn Hanc Hlk|e q Hq Hf].
  - done.
  - assert (grown source (replica st) m') as Hg'
      by (by eapply grown_makedirs).
    split; [|by rewrite Hlk, decide_True].
    split; [by eapply closed_makedirs|].
    split; [by eapply grown_trans|].
    split.
    { exists (new ++ [DirCreated d]). simpl. rewrite Hlog, <- app_assoc.
      split; [done|]. split.
      - apply Forall_app. split; [done|]. apply Forall_singleton. simpl.
        split; [by eapply grown_None|done].
      - intros q Hfile Hne. simpl in *. rewrite Hlk in Hfile, Hne.
        destruct (decide _); [done|].
        destruct (Hcomp q Hfile Hne) as [[? ?]|[? ?]]; [left|right];
          (split; [done|]); apply elem_of_app; by left. }
    split; [done|]. split.
    + intros p Hp. eapply grown_mirrored; [done|by apply Hmir].
    + intros d' dirs files Hin. eapply grown_mono; [done|by eapply Hdirs].
  - eapply (aborted_of_inv1 _ _ st); [done..|].
    intros [Hcompat Hroot].
    assert (source !! q = Some Dir) as Hsq.
    { destruct Hd as [->|Hd]; [by apply suffix_nil_inv in Hq as ->|].
      exact (source_ancestor_dir d q Hd Hq). }
    pose proof (compatible_grown _ _ _ _ Hcompat Hroot Hg) as Hcompat'.
    destruct (compatible_dir _ _ _ _ Hcompat' Hsq) as [E|E];
      rewrite E in Hf; done.
Qed.

Lemma inv1_start done sf (d : path) (dirs : list string) (st : state) :
  inv1 log_file source m0 l0 done sf st → is_Some (replica st !! d) →
  inv1 log_file source m0 l0 (done ++ [(d, dirs, [])]) sf st.
Proof.
  intros (Hc & Hg & Hlog & Hsf & Hmir & Hdirs) Hd.
  split; [done|]. split; [done|]. split; [done|]. split; [|split].
  - intros p. rewrite visited_snoc_nil. apply Hsf.
  - intros p Hp%visited_snoc_nil. by apply Hmir.
  - by apply (dirs_snoc (λ d, is_Some (replica st !! d))).
Qed.

Lemma sync_file_inv1 done sf (d : path) (dirs fdone : list string) (n : string) :
  source !! d = Some Dir → is_file (source !! (n :: d)) = true →
  hoare (inv1 log_file source m0 l0 (done ++ [(d, dirs, fdone)]) sf)
    (if bool_decide (n = os_path_basename log_file) then ret sf
     else sync_file source (n :: d) ;;; ret (<[n :: d := n :: d]> sf))
    (λ sf' st, inv1 log_file source m0 l0 (done ++ [(d, dirs, fdone ++ [n])]) sf' st)
    (λ _, aborted log_file source m0 l0).
Proof.
  intros Hd Hfile st Hinv.
  pose proof Hinv as (Hc & Hg & (new & Hlog & Hok & Hcomp) & Hsf & Hmir & Hdirs).
  assert (is_Some (replica st !! d)) as Hrd.
  { eapply Hdirs. apply elem_of_app. right. by apply list_elem_of_singleton. }
  assert (∀ m : fs, (∀ d' dirs' files', (d', dirs', files') ∈ done ++ [(d, dirs, fdone)]
                  → is_Some (m !! d')) →
               (∀ d' dirs' files', (d', dirs', files') ∈ done ++ [(d, dirs, fdone ++ [n])]
                  → is_Some (m !! d'))) as Hdirs_step.
  { intros m H. apply (dirs_snoc (λ d, is_Some (m !! d))).
    by apply (dirs_snoc (λ d, is_Some (m !! d))) in H. }
  destruct (bool_decide (n = os_path_basename log_file)) eqn:Hlogname.
  { apply bool_decide_eq_true in Hlogname. unfold ret.
    split; [done|]. split; [done|]. split; [by exists new|]. split; [|split].
    - intros p. rewrite visited_snoc_file, Hsf. tauto.
    - intros p [Hp|[? _]]%visited_snoc_file; [by apply Hmir|done].
    - by apply Hdirs_step. }
  apply bool_decide_eq_false in Hlogname.
  unfold bind, ret.
  destruct (sync_file_spec source (n :: d) st)
    as [w t c Hn Hs Hpar|w t c t' c' Hs Hr Hh|w t c w' t' c' Hs Hr Hh|e h Hcant].
  - (* copied *)
    assert (grown source (replica st) (<[n :: d := File true w t c]> (replica st)))
      as Hg' by (apply grown_insert_file; eauto).
    split; [apply closed_insert_file; eauto|].
    split; [by eapply grown_trans|].
    split.
    { exists (new ++ [FileCopied (n :: d)]). simpl. rewrite Hlog, <- app_assoc.
      split; [done|]. split.
      - apply Forall_app. split; [done|]. apply Forall_singleton. simpl.
        split; [by eapply grown_None|done].
      - intros q Hf Hne. simpl in *.
        destruct (decide (q = n :: d)) as [->|Hq].
        + left. split; [by eapply grown_None|].
          apply elem_of_app. right. by apply list_elem_of_singleton.
        + rewrite lookup_insert_ne in Hf, Hne by done.
          destruct (Hcomp q Hf Hne) as [[? ?]|[? ?]]; [left|right];
            (split; [done|]); apply elem_of_app; by left. }
    split; [|split].
    + intros p. rewrite visited_snoc_file, lookup_insert_is_Some, Hsf.
      destruct (decide (n :: d = p)) as [<-|?]; intuition eauto.
    + intros p [Hp|[_ ->]]%visited_snoc_file; simpl.
      * eapply grown_mirrored; [done|by apply Hmir].
      * exists w, t, c, w, t, c. by rewrite lookup_insert_eq.
    + apply Hdirs_step. intros d' dirs' files' Hin. simpl.
      eapply grown_mono; [done|by eapply Hdirs].
  - (* updated *)
    assert (grown source (replica st) (<[n :: d := File true w t c]> (replica st)))
      as Hg' by (apply grown_insert_file; eauto 10).
    assert (m0 !! (n :: d) = Some (File true true t' c')) as Hm0.
    { destruct (Hg (n :: d)) as [E|[(_ & Hd' & _)|(_ & w2 & t2 & c2 & Hs2 & Hm2 & _)]];
        [congruence|congruence|]. by simplify_eq. }
    split; [apply closed_insert_file; [done|left; by rewrite Hr]|].
    split; [by eapply grown_trans|].
    split.
    { exists (new ++ [FileUpdated (n :: d)]). simpl. rewrite Hlog, <- app_assoc.
      split; [done|]. split.
      - apply Forall_app. split; [done|]. apply Forall_singleton. simpl.
        by exists w, t, c, t', c'.
      - intros q Hf Hne. simpl in *.
        destruct (decide (q = n :: d)) as [->|Hq].
        + right. split; [by rewrite Hm0|].
          apply elem_of_app. right. by apply list_elem_of_singleton.
        + rewrite lookup_insert_ne in Hf, Hne by done.
          destruct (Hcomp q Hf Hne) as [[? ?]|[? ?]]; [left|right];
            (split; [done|]); apply elem_of_app; by left. }
    split; [|split].
    + intros p. rewrite visited_snoc_file, lookup_insert_is_Some, Hsf.
      destruct (decide (n :: d = p)) as [<-|?]; intuition eauto.
    + intros p [Hp|[_ ->]]%visited_snoc_file; simpl.
      * eapply grown_mirrored; [done|by apply Hmir].
      * exists w, t, c, w, t, c. by rewrite lookup_insert_eq.
    + apply Hdirs_step. intros d' dirs' files' Hin. simpl.
      eapply grown_mono; [done|by eapply Hdirs].
  - (* unchanged *)
    split; [done|]. split; [done|]. split; [by exists new|]. split; [|split].
    + intros p. rewrite visited_snoc_file, lookup_insert_is_Some, Hsf.
      destruct (decide (n :: d = p)) as [<-|?]; intuition eauto.
    + intros p [Hp|[_ ->]]%visited_snoc_file; simpl.
      * by apply Hmir.
      * by exists w, t, c, w', t', c'.
    + by apply Hdirs_step.
  - (* raised *)
    eapply (aborted_of_inv1 _ _ st); [done..|]. intros [Hcompat Hroot]. apply Hcant.
    pose proof (compatible_grown _ _ _ _ Hcompat Hroot Hg) as Hcompat'.
    apply is_file_Some in Hfile as (r & w & t & c & Hs).
    pose proof (compatible_lookup _ _ _ _ _ Hcompat' Hs) as Hent. simpl in Hent.
    apply andb_true_iff in Hent as [-> Hent].
    rewrite bool_decide_eq_false_2 in Hent by done. simpl in Hent.
    split; [by eauto 10|]. intros _. simpl. apply is_dir_Some.
    destruct Hrd as [v Hv].
    destruct (compatible_dir _ _ _ _ Hcompat' Hd); congruence.
Qed.

Lemma create_update_inv1 done sf (d : path) (dirs files : list string) :
  source !! d = Some Dir →
  (∀ n, n ∈ files → is_file (source !! (n :: d)) = true) →
  hoare (inv1 log_file source m0 l0 done sf)
    (create_update source log_file (d, dirs, files) sf)
    (λ sf' st, inv1 log_file source m0 l0 (done ++ [(d, dirs, files)]) sf' st)
    (λ _, aborted log_file source m0 l0).
Proof.
  intros Hd Hfiles. unfold create_update.
  eapply hoare_bind; [apply ensure_dir_inv1; by right|].
  intros [].
  eapply hoare_weaken;
    [apply (hoare_for_fold
              (λ fdone sf' st,
                 inv1 log_file source m0 l0 (done ++ [(d, dirs, fdone)]) sf' st))
    |..].
  - intros fdone n rest sf' Hsplit. apply sync_file_inv1; [done|].
    apply Hfiles. rewrite Hsplit. apply elem_of_app. right. apply list_elem_of_here.
  - intros st [Hinv Hsome]. by apply inv1_start.
  - done.
  - done.
Qed.

Lemma first_loop_spec (pre : list (path * list string * list string)) sf0 :
  hoare (inv1 log_file source m0 l0 pre sf0)
    (for_fold (os_walk source []) sf0 (create_update source log_file))
    (λ sf st, inv1 log_file source m0 l0 (pre ++ os_walk source []) sf st)
    (λ _, aborted log_file source m0 l0).
Proof.
  eapply hoare_weaken;
    [apply (hoare_for_fold
              (λ done sf st, inv1 log_file source m0 l0 (pre ++ done) sf st))
    |..]; try done.
  - intros done [[d dirs] files] rest sf Hsplit.
    assert ((d, dirs, files) ∈ os_walk source []) as Hin.
    { rewrite Hsplit. apply elem_of_app. right. apply list_elem_of_here. }
    apply os_walk_dir in Hin as [Hd Hfiles].
    rewrite app_assoc.
    apply create_update_inv1; [done|]. intros n Hn. by apply Hfiles.
  - intros st. by rewrite app_nil_r.
  - by intros e st.
Qed.

Lemma visited_cons_nil (ts : list (path * list string * list string))
    (d : path) (dirs : list string) (p : path) :
  visited log_file ((d, dirs, []) :: ts) p ↔ visited log_file ts p.
Proof.
  split.
  - intros (d' & dirs' & files' & n & Hin & Hn & Hne & ->).
    apply elem_of_cons in Hin as [Hin|Hin].
    + simplify_eq. by apply elem_of_nil in Hn.
    + by exists d', dirs', files', n.
  - intros (d' & dirs' & files' & n & Hin & Hn & Hne & ->).
    exists d', dirs', files', n. split; [|done]. by apply list_elem_of_further.
Qed.

End first_loop.

(* ===================================================================== *)
(** * The second loop: restore *)
(* ===================================================================== *)

Section second_loop.

Context (source : fs) (log_file : string) (m1 : fs) (l1 : list log_entry).
Hypothesis Hsrc : closed source.

Lemma aborted_of_inv2 (st st' : state) :
  inv2 source m1 l1 st →
  replica st' = replica st → log st' = log st →
  ¬ good log_file source m1 →
  aborted log_file source m1 l1 st'.
Proof.
  intros (Hc & Hg & (new & Hlog & _)) Hr Hl Hbad. unfold aborted.
  rewrite Hr, Hl. split; [done|]. split; [done|]. split; [by exists new|done].
Qed.

Lemma ensure_dir_inv2 (d : path) :
  source !! d = Some Dir →
  hoare (inv2 source m1 l1) (ensure_dir d)
    (λ _ st, inv2 source m1 l1 st ∧ is_Some (replica st !! d))
    (λ _, aborted log_file source m1 l1).
Proof.
  intros Hd st Hinv.
  pose proof Hinv as (Hc & Hg & (new & Hlog & Hok)).
  destruct (ensure_dir_spec d st Hc) as [Hex|m' Hn Hanc Hlk|e q Hq Hf].
  - done.
  - assert (grown source (replica st) m') as Hg'
      by (eapply grown_makedirs; eauto).
    split; [|by rewrite Hlk, decide_True].
    split; [by eapply closed_makedirs|].
    split; [by eapply grown_trans|].
    exists (new ++ [DirCreated d]). simpl. rewrite Hlog, <- app_assoc.
    split; [done|]. apply Forall_app. split; [done|].
    apply Forall_singleton. simpl. split; [by eapply grown_None|done].
  - eapply (aborted_of_inv2 st); [done..|].
    intros [Hcompat Hroot].
    assert (source !! q = Some Dir) as Hsq.
    { destruct (decide (q = d)) as [->|Hne]; [done|].
      eapply closed_ancestor; [done|by rewrite Hd|done..]. }
    pose proof (compatible_grown _ _ _ _ Hcompat Hroot Hg) as Hcompat'.
    destruct (compatible_dir _ _ _ _ Hcompat' Hsq) as [E|E];
      rewrite E in Hf; done.
Qed.

Lemma restore_file_inv2 (d : path) (n : string) :
  source !! d = Some Dir → is_file (source !! (n :: d)) = true →
  hoare (λ st, inv2 source m1 l1 st ∧ is_Some (replica st !! d))
    (restore_file source (n :: d))
    (λ _ st, inv2 source m1 l1 st ∧ is_Some (replica st !! d))
    (λ _, aborted log_file source m1 l1).
Proof.
  intros Hd Hfile st [Hinv Hrd].
  pose proof Hinv as (Hc & Hg & (new & Hlog & Hok)).
  destruct (restore_file_spec source (n :: d) st) as [Hex|w t c Hn Hs Hpar|e Hn Hcant].
  - done.
  - assert (grown source (replica st) (<[n :: d := File true w t c]> (replica st)))
      as Hg' by (apply grown_insert_file; eauto).
    split; [|simpl; by eapply grown_mono].
    split; [apply closed_insert_file; eauto|].
    split; [by eapply grown_trans|].
    exists (new ++ [FileRestored (n :: d)]). simpl. rewrite Hlog, <- app_assoc.
    split; [done|]. apply Forall_app. split; [done|].
    apply Forall_singleton. simpl. split; [by eapply grown_None|by rewrite Hs].
  - eapply (aborted_of_inv2 st); [done..|].
    intros [Hcompat Hroot]. apply Hcant.
    pose proof (compatible_grown _ _ _ _ Hcompat Hroot Hg) as Hcompat'.
    apply is_file_Some in Hfile as (r & w & t & c & Hs).
    pose proof (compatible_lookup _ _ _ _ _ Hcompat' Hs) as Hent. simpl in Hent.
    apply andb_true_iff in Hent as [-> _].
    split; [exists w, t, c; by rewrite Hn|]. intros _. simpl.
    apply is_dir_Some. destruct Hrd as [v Hv].
    destruct (compatible_dir _ _ _ _ Hcompat' Hd); congruence.
Qed.

Lemma restore_inv2 (d : path) (dirs files : list string) :
  source !! d = Some Dir →
  (∀ n, n ∈ files → is_file (source !! (n :: d)) = true) →
  hoare (inv2 source m1 l1) (restore source (d, dirs, files))
    (λ _, inv2 source m1 l1) (λ _, aborted log_file source m1 l1).
Proof.
  intros Hd Hfiles. unfold restore.
  eapply hoare_bind; [by apply ensure_dir_inv2|].
  intros [].
  eapply hoare_weaken;
    [apply (hoare_for_each
              (λ _ st, inv2 source m1 l1 st ∧ is_Some (replica st !! d)))
    |..].
  - intros fdone n rest Hsplit. apply restore_file_inv2; [done|].
    apply Hfiles. rewrite Hsplit. apply elem_of_app. right. apply list_elem_of_here.
  - done.
  - by intros _ st [? _].
  - done.
Qed.

Lemma second_loop_spec :
  hoare (inv2 source m1 l1) (for_each (os_walk source []) (restore source))
    (λ _, inv2 source m1 l1) (λ _, aborted log_file source m1 l1).
Proof.
  apply (hoare_for_each (λ _ st, inv2 source m1 l1 st)).
  intros done [[d dirs] files] rest Hsplit.
  assert ((d, dirs, files) ∈ os_walk source []) as Hin.
  { rewrite Hsplit. apply elem_of_app. right. apply list_elem_of_here. }
  apply os_walk_dir in Hin as [Hd Hfiles].
  apply restore_inv2; [done|]. intros n Hn. by apply Hfiles.
Qed.

End second_loop.

(* ===================================================================== *)
(** * The third loop: prune *)
(* ===================================================================== *)

Lemma below_length (top q : path) : below top q → (length top < length q)%nat.
Proof.
  intros [Hs Hne]. pose proof (suffix_length _ _ Hs).
  destruct (decide (length q ≤ length top)%nat) as [Hle|]; [|lia].
  by destruct Hne; symmetry; apply suffix_length_eq.
Qed.

Lemma below_child (top q : path) :
  below top q → ∃ c, (c :: top) `suffix_of` q.
Proof.
  intros [[k ->] Hne].
  destruct (decide (k = [])) as [->|Hk]; [done|].
  destruct (exists_last Hk) as (k' & c & ->).
  exists c, k'. by rewrite <- app_assoc.
Qed.

Lemma below_cons (top q : path) (c : string) :
  (c :: top) `suffix_of` q → below top q.
Proof.
  intros Hs. split; [by eapply suffix_cons_l|].
  intros ->. by apply suffix_cons_not in Hs.
Qed.

Lemma sibling_not_suffix (top : path) (c d : string) :
  (c :: top) `suffix_of` (d :: top) → c = d.
Proof.
  intros Hs. apply suffix_length_eq in Hs; [by simplify_eq|done].
Qed.

Section third_loop.

Context (source : fs) (source_files : gmap path path).

Lemma shrunk_refl (m : fs) : shrunk source source_files m m.
Proof. intros q. by left. Qed.

Lemma shrunk_Some (m m' : fs) (q : path) (v : node) :
  shrunk source source_files m m' → m' !! q = Some v → m !! q = Some v.
Proof. intros H Hq. destruct (H q) as [E|[? _]]; congruence. Qed.

Lemma shrunk_trans (m1 m2 m3 : fs) :
  shrunk source source_files m1 m2 → shrunk source source_files m2 m3 →
  shrunk source source_files m1 m3.
Proof.
  intros H12 H23 q. destruct (H23 q) as [E|(Hn & Hne & Hwhy)].
  - rewrite E. apply H12.
  - right. split; [done|]. split; [done|].
    destruct Hwhy as [[Hf Hsf]|(a & Ha & Hd & Hs)].
    + left. split; [|done]. apply is_file_Some in Hf as (r & w & t & d & Hf).
      by rewrite (shrunk_Some _ _ _ _ H12 Hf).
    + right. exists a. split; [done|]. split; [|done].
      by apply (shrunk_Some _ _ _ _ H12).
Qed.

Lemma shrunk_delete (m : fs) (p : path) :
  p ≠ [] → is_file (m !! p) = true → source_files !! p = None →
  shrunk source source_files m (delete p m).
Proof.
  intros Hne Hf Hsf q. destruct (decide (q = p)) as [->|Hq].
  - right. rewrite lookup_delete_eq. split; [done|]. split; [done|]. by left.
  - left. by rewrite lookup_delete_ne.
Qed.

Lemma shrunk_rmtree (m : fs) (p : path) :
  p ≠ [] → m !! p = Some Dir → source !! p = None →
  shrunk source source_files m
    (filter (λ kv : path * node, ¬ p `suffix_of` kv.1) m).
Proof.
  intros Hne Hd Hs q. rewrite lookup_rmtree.
  destruct (decide (p `suffix_of` q)) as [Hsuf|]; [right|by left].
  split; [done|]. split.
  - intros ->. by apply suffix_nil_inv in Hsuf.
  - right. by exists p.
Qed.

Lemma pruned_shrunk (fuel : nat) (top : path) (m m' : fs) :
  pruned source source_files fuel top m → shrunk source source_files m m' →
  pruned source source_files fuel top m'.
Proof.
  intros Hp Hs q Hb Hlen. specialize (Hp q Hb Hlen).
  destruct (m' !! q) as [v|] eqn:Hq; [|done].
  by rewrite (shrunk_Some m m' q v Hs Hq) in Hp.
Qed.

Lemma pruning_refl (touched : path → Prop) (st : state) :
  closed (replica st) → pruning source source_files touched st st.
Proof.
  intros Hc. split; [done|]. split; [apply shrunk_refl|]. split; [done|].
  exists []. by rewrite app_nil_r.
Qed.

Lemma entry_ok3_shrunk (m m' : fs) (e : log_entry) :
  shrunk source source_files m m' →
  entry_ok3 source source_files m' e → entry_ok3 source source_files m e.
Proof.
  intros Hs. destruct e as [| | | |q|q]; simpl; try done.
  - intros [(r & w & t & d & Hf)%is_file_Some Hsf]. split; [|done].
    by rewrite (shrunk_Some _ _ _ _ Hs Hf).
  - intros [Hd Hsrc]. split; [|done]. by apply (shrunk_Some _ _ _ _ Hs).
Qed.

Lemma pruning_trans (t1 t2 t : path → Prop) (st st1 st2 : state) :
  pruning source source_files t1 st st1 → pruning source source_files t2 st1 st2 →
  (∀ q, t1 q → t q) → (∀ q, t2 q → t q) →
  pruning source source_files t st st2.
Proof.
  intros (_ & Hs1 & Hf1 & new1 & Hl1 & Hok1) (Hc2 & Hs2 & Hf2 & new2 & Hl2 & Hok2)
    Ht1 Ht2.
  split; [done|]. split; [by eapply shrunk_trans|]. split.
  - intros q Hq. rewrite Hf2, Hf1; [done|..]; intros ?; apply Hq; eauto.
  - exists (new1 ++ new2). rewrite Hl2, Hl1, <- app_assoc. split; [done|].
    apply Forall_app. split; [done|].
    eapply Forall_impl; [exact Hok2|]. intros e. by apply entry_ok3_shrunk.
Qed.

Lemma prune_files_spec (top : path) (files : list string) (st : state) :
  closed (replica st) →
  (∀ n, n ∈ files → replica st !! (n :: top) ≠ Some Dir) →
  match for_each files (λ n, prune_file source_files (n :: top)) st with
  | Ok _ st' =>
      pruning source source_files (λ q, ∃ n, n ∈ files ∧ q = n :: top) st st'
      ∧ ∀ n, n ∈ files → is_file (replica st' !! (n :: top)) = true →
             is_Some (source_files !! (n :: top))
  | Raise _ _ => False
  end.
Proof.
  revert st. induction files as [|n files IH]; intros st Hc Hfiles.
  { simpl. split; [by apply pruning_refl|]. by intros n ?%elem_of_nil. }
  simpl. unfold bind.
  destruct (prune_file_spec source_files (n :: top) st) as [Hkept|Hsf Hf|e Hsf Hd].
  - specialize (IH st Hc).
    destruct (for_each files _ st) as [[] st'|e st'].
    + destruct IH as [Hpr Hrest].
      { intros n' Hn'. apply Hfiles. by apply list_elem_of_further. }
      split.
      * eapply pruning_trans; [by apply (pruning_refl (λ _, False))|done|done|].
        intros q (n' & Hn' & ->). exists n'. split; [|done].
        by apply list_elem_of_further.
      * intros n' [->|Hn']%elem_of_cons Hf'; [|by apply Hrest].
        destruct Hkept as [?|Hnone]; [done|].
        apply is_file_Some in Hf' as (r & w & t & c & Hf').
        destruct Hpr as (_ & Hs & _).
        rewrite (shrunk_Some _ _ _ _ Hs Hf') in Hnone. done.
    + apply IH. intros n' Hn'. apply Hfiles. by apply list_elem_of_further.
  - set (st1 := mkState (delete (n :: top) (replica st))
                        (log st ++ [FileDeleted (n :: top)]) (hashed st)).
    assert (pruning source source_files (λ q, q = n :: top) st st1) as Hstep.
    { split; [by apply closed_delete_file|].
      split; [by apply shrunk_delete|]. split.
      - intros q Hq. simpl. by rewrite lookup_delete_ne.
      - exists [FileDeleted (n :: top)]. split; [done|].
        by apply Forall_singleton. }
    specialize (IH st1 (proj1 Hstep)).
    destruct (for_each files _ st1) as [[] st'|e st'].
    + destruct IH as [Hpr Hrest].
      { intros n' Hn' Hdir. apply (Hfiles n'); [by apply list_elem_of_further|].
        destruct Hstep as (_ & Hs & _). by eapply shrunk_Some. }
      split.
      * eapply pruning_trans; [done..| |].
        -- intros q ->. exists n. split; [apply list_elem_of_here|done].
        -- intros q (n' & Hn' & ->). exists n'. split; [|done].
           by apply list_elem_of_further.
      * intros n' [->|Hn']%elem_of_cons Hf'; [|by apply Hrest].
        apply is_file_Some in Hf' as (r & w & t & c & Hf').
        destruct Hpr as (_ & Hs & _).
        pose proof (shrunk_Some _ _ _ _ Hs Hf') as Hf1. simpl in Hf1.
        by rewrite lookup_delete_eq in Hf1.
    + apply IH. intros n' Hn' Hdir. apply (Hfiles n'); [by apply list_elem_of_further|].
      destruct Hstep as (_ & Hs & _). by eapply shrunk_Some.
  - destruct (Hfiles n); [apply list_elem_of_here|done].
Qed.

Lemma prune_subdirs_spec (top : path) (dirs : list string) (st : state) :
  NoDup dirs → closed (replica st) →
  (∀ d, d ∈ dirs → replica st !! (d :: top) = Some Dir) →
  match for_each dirs (λ d, prune_subdir source (d :: top)) st with
  | Ok _ st' =>
      pruning source source_files (λ q, ∃ d, d ∈ dirs ∧ (d :: top) `suffix_of` q) st st'
      ∧ ∀ d, d ∈ dirs → replica st' !! (d :: top) = Some Dir →
             is_Some (source !! (d :: top))
  | Raise _ _ => False
  end.
Proof.
  revert st. induction dirs as [|d dirs IH]; intros st Hnd Hc Hdirs.
  { simpl. split; [by apply pruning_refl|]. by intros d ?%elem_of_nil. }
  apply NoDup_cons in Hnd as [Hd Hnd].
  simpl. unfold bind.
  destruct (prune_subdir_spec source (d :: top) st) as [Hkept|Hs Hdir|e Hs Hdir].
  - specialize (IH st Hnd Hc).
    destruct (for_each dirs _ st) as [[] st'|e st'].
    + destruct IH as [Hpr Hrest].
      { intros d' Hd'. apply Hdirs. by apply list_elem_of_further. }
      split.
      * eapply pruning_trans; [by apply (pruning_refl (λ _, False))|done|done|].
        intros q (d' & Hd' & Hq). exists d'. split; [|done].
        by apply list_elem_of_further.
      * intros d' [->|Hd']%elem_of_cons Hdir'; [done|by apply Hrest].
    + apply IH. intros d' Hd'. apply Hdirs. by apply list_elem_of_further.
  - set (st1 := mkState (filter (λ kv : path * node, ¬ (d :: top) `suffix_of` kv.1)
                                (replica st))
                        (log st ++ [DirDeleted (d :: top)]) (hashed st)).
    assert (pruning source source_files (λ q, (d :: top) `suffix_of` q) st st1) as Hstep.
    { split; [by apply closed_rmtree|].
      split; [by apply shrunk_rmtree|]. split.
      - intros q Hq. simpl. by rewrite lookup_rmtree, decide_False.
      - exists [DirDeleted (d :: top)]. split; [done|].
        by apply Forall_singleton. }
    assert (∀ d', d' ∈ dirs → replica st1 !! (d' :: top) = Some Dir) as Hdirs1.
    { intros d' Hd'. simpl. rewrite lookup_rmtree, decide_False.
      - apply Hdirs. by apply list_elem_of_further.
      - intros ->%sibling_not_suffix. done. }
    specialize (IH st1 Hnd (proj1 Hstep) Hdirs1).
    destruct (for_each dirs _ st1) as [[] st'|e st'].
    + destruct IH as [Hpr Hrest]. split.
      * eapply pruning_trans; [done..| |].
        -- intros q Hq. exists d. split; [apply list_elem_of_here|done].
        -- intros q (d' & Hd' & Hq). exists d'. split; [|done].
           by apply list_elem_of_further.
      * intros d' [->|Hd']%elem_of_cons Hdir'; [|by apply Hrest].
        destruct Hpr as (_ & Hsh & _).
        pose proof (shrunk_Some _ _ _ _ Hsh Hdir') as Hf1. simpl in Hf1.
        by rewrite lookup_rmtree, decide_True in Hf1.
    + done.
  - destruct Hdir. apply Hdirs. apply list_elem_of_here.
Qed.

Lemma walk_children_spec (fuel : nat) (top : path) (dirs : list string) (st : state) :
  (∀ top st, closed (replica st) →
     walked source source_files fuel top st
       (walk_bottomup fuel (prune source source_files) top st)) →
  closed (replica st) →
  match for_each dirs
          (λ d, walk_bottomup fuel (prune source source_files) (d :: top)) st with
  | Ok _ st' =>
      pruning source source_files (λ q, ∃ d, d ∈ dirs ∧ below (d :: top) q) st st'
      ∧ ∀ d, d ∈ dirs → pruned source source_files fuel (d :: top) (replica st')
  | Raise _ _ => False
  end.
Proof.
  intros Hwalk. revert st. induction dirs as [|d dirs IH]; intros st Hc.
  { simpl. split; [by apply pruning_refl|]. by intros d ?%elem_of_nil. }
  simpl. unfold bind.
  pose proof (Hwalk (d :: top) st Hc) as Hd.
  destruct (walk_bottomup fuel _ (d :: top) st) as [[] st1|e st1]; [|done].
  destruct Hd as [Hpr1 Hpruned1].
  specialize (IH st1 (proj1 Hpr1)).
  destruct (for_each dirs _ st1) as [[] st'|e st']; [|done].
  destruct IH as [Hpr Hrest]. split.
  - eapply pruning_trans; [done..| |].
    + intros q Hq. exists d. split; [apply list_elem_of_here|done].
    + intros q (d' & Hd' & Hq). exists d'. split; [|done].
      by apply list_elem_of_further.
  - intros d' [->|Hd']%elem_of_cons; [|by apply Hrest].
    eapply pruned_shrunk; [done|]. by destruct Hpr as (_ & ? & _).
Qed.

Lemma walk_bottomup_spec (fuel : nat) (top : path) (st : state) :
  closed (replica st) →
  walked source source_files fuel top st
    (walk_bottomup fuel (prune source source_files) top st).
Proof.
  revert top st. induction fuel as [|fuel IH]; intros top st Hc.
  { simpl. split; [by apply pruning_refl|].
    intros q Hb%below_length Hlen. lia. }
  simpl. destruct (scandir (replica st) top) as [[dirs files]|] eqn:Hscan.
  2:{ split; [by apply pruning_refl|]. intros q [Hs Hne] Hlen.
      destruct (replica st !! q) as [v|] eqn:Hq; [|done].
      apply scandir_None in Hscan. destruct Hscan.
      eapply closed_ancestor; [done|by rewrite Hq|done..]. }
  apply scandir_Some in Hscan as (Htop & Hdirs & Hfiles).
  assert (∀ d, d ∈ dirs ↔ replica st !! (d :: top) = Some Dir) as Hdir_iff.
  { intros d. rewrite Hdirs. apply elem_of_dir_names. }
  assert (∀ n, n ∈ files ↔ is_file (replica st !! (n :: top)) = true) as Hfile_iff.
  { intros n. rewrite Hfiles. apply elem_of_file_names. }
  assert (NoDup dirs) as Hnd by (rewrite Hdirs; apply NoDup_dir_names).
  clear Hdirs Hfiles.
  unfold bind.
  pose proof (walk_children_spec fuel top dirs st IH Hc) as HA.
  destruct (for_each dirs _ st) as [[] st1|e st1]; [|done].
  destruct HA as [HprA HprunedA].
  assert (∀ q, (length q ≤ S (length top))%nat → replica st1 !! q = replica st !! q)
    as Hshallow.
  { intros q Hlen. destruct HprA as (_ & _ & Hf & _). apply Hf.
    intros (d & _ & Hb%below_length). simpl in Hb. lia. }
  assert (∀ n, n ∈ files → replica st1 !! (n :: top) ≠ Some Dir) as HfilesA.
  { intros n Hn. rewrite Hshallow by (simpl; lia).
    apply Hfile_iff, is_file_Some in Hn as (?&?&?&?&Hn). congruence. }
  unfold prune, bind.
  pose proof (prune_files_spec top files st1 (proj1 HprA) HfilesA) as HB.
  destruct (for_each files _ st1) as [[] st2|e st2]; [|done].
  destruct HB as [HprB HfilesB].
  assert (∀ d, d ∈ dirs → replica st2 !! (d :: top) = Some Dir) as HdirsB.
  { intros d Hd. destruct HprB as (_ & _ & Hf & _). rewrite Hf.
    - rewrite Hshallow by (simpl; lia). by apply Hdir_iff.
    - intros (n & Hn & Heq). assert (d = n) as -> by congruence.
      apply Hfile_iff in Hn. apply Hdir_iff in Hd. rewrite Hd in Hn. done. }
  pose proof (prune_subdirs_spec top dirs st2 Hnd (proj1 HprB) HdirsB) as HC.
  destruct (for_each dirs _ st2) as [[] st3|e st3]; [|done].
  destruct HC as [HprC HdirsC].
  assert (pruning source source_files (below top) st st2) as HprAB.
  { eapply (pruning_trans _ _ (below top)); [exact HprA|exact HprB|..].
    - intros q (d & _ & [Hs Hne]). split; [by eapply suffix_cons_l|].
      intros ->. by apply suffix_cons_not in Hs.
    - intros q (n & _ & ->). by apply (below_cons _ _ n). }
  assert (pruning source source_files (below top) st st3) as Hpr.
  { eapply (pruning_trans _ _ (below top)); [exact HprAB|exact HprC|done|].
    intros q (d & _ & Hs). by apply below_cons in Hs. }
  split; [done|].
  intros q Hb Hlen. destruct (replica st3 !! q) as [v|] eqn:Hq; [|done].
  destruct (below_child top q Hb) as [c Hc'].
  destruct Hpr as (Hc3 & Hsh & _).
  destruct (decide (q = c :: top)) as [->|Hne].
  - pose proof (shrunk_Some _ _ _ _ Hsh Hq) as Hq0.
    destruct v as [r w t d|].
    + apply (HfilesB c).
      * apply Hfile_iff. by rewrite Hq0.
      * destruct HprC as (_ & HshC & _).
        by rewrite (shrunk_Some _ _ _ _ HshC Hq).
    + apply (HdirsC c); [|done]. by apply Hdir_iff.
  - assert (replica st3 !! (c :: top) = Some Dir) as Hcdir.
    { eapply closed_ancestor; [done|by rewrite Hq|done|done]. }
    pose proof (shrunk_Some _ _ _ _ Hsh Hcdir) as Hc0.
    assert (c ∈ dirs) as Hcin by (by apply Hdir_iff).
    assert (pruned source source_files fuel (c :: top) (replica st3)) as Hpruned.
    { eapply pruned_shrunk; [by apply HprunedA|].
      eapply shrunk_trans; [by destruct HprB as (_ & ? & _)|by destruct HprC as (_ & ? & _)]. }
    specialize (Hpruned q). rewrite Hq in Hpruned. apply Hpruned.
    + by split.
    + simpl. lia.
Qed.

End third_loop.

(* ===================================================================== *)
(** * A whole pass *)
(* ===================================================================== *)

Lemma inv1_initial (log_file : string) (source m0 : fs) (st : state) :
  closed (replica st) → replica st = m0 →
  inv1 log_file source m0 (log st) [] ∅ st.
Proof.
  intros Hc <-. split; [done|]. split; [apply grown_refl|]. split.
  { exists []. rewrite app_nil_r. split; [done|]. split; [done|].
    by intros q _ ?. }
  split; [|split].
  - intros p. split; [by intros [? ?]|].
    by intros (?&?&?&?&?%elem_of_nil&_).
  - by intros p (?&?&?&?&?%elem_of_nil&_).
  - by intros ??? ?%elem_of_nil.
Qed.

Lemma good_grown (log_file : string) (source m m' : fs) :
  grown source m m' → good log_file source m → good log_file source m'.
Proof.
  intros Hg [Hcompat Hroot]. split; [|done]. by eapply compatible_grown.
Qed.

Lemma aborted_rebase (log_file : string) (source m0 m1 : fs)
    (l0 new : list log_entry) (st : state) :
  grown source m0 m1 →
  aborted log_file source m1 (l0 ++ new) st →
  aborted log_file source m0 l0 st.
Proof.
  intros Hg (Hc & Hg' & (new' & Hlog) & Hbad).
  split; [done|]. split; [by eapply grown_trans|]. split.
  - exists (new ++ new'). by rewrite Hlog, <- app_assoc.
  - intros Hgood. apply Hbad. by eapply good_grown.
Qed.

(** The outcome of a pass started from the replica [m0] and the log
    [l0]. *)
Lemma sync_folders_spec (source : fs) (log_file : string)
    (m0 : fs) (l0 : list log_entry) (h0 : list (tree_id * path)) :
  closed source → closed m0 →
  match sync_folders source log_file (mkState m0 l0 h0) with
  | Ok _ st' => pass_ok log_file source m0 l0 st'
  | Raise _ st' => aborted log_file source m0 l0 st'
  end.
Proof.
  intros Hsrc Hm0. unfold sync_folders, bind.
  set (st0 := mkState m0 l0 h0).
  pose proof (ensure_dir_inv1 source log_file m0 l0 Hsrc [] ∅ [] (or_introl eq_refl)
                st0 (inv1_initial log_file source m0 st0 Hm0 eq_refl)) as H0.
  destruct (ensure_dir [] st0) as [[] sta|e sta]; [|done].
  destruct H0 as [H0 Hroot].
  pose proof (first_loop_spec source log_file m0 l0 Hsrc [([], [], [])] ∅ sta
                (inv1_start source log_file m0 l0 [] ∅ [] [] sta H0 Hroot)) as H1.
  destruct (for_fold _ _ _ sta) as [sf st1|e st1]; [|done].
  destruct H1 as (Hc1 & Hg1 & (new1 & Hlog1 & Hok1 & Hcomp1) & Hsf & Hmir & Hdirs).
  simpl in Hsf, Hmir, Hdirs.
  setoid_rewrite visited_cons_nil in Hsf.
  setoid_rewrite visited_cons_nil in Hmir.
  assert (inv2 source (replica st1) (log st1) st1) as Hinv2.
  { split; [done|]. split; [apply grown_refl|].
    exists []. by rewrite app_nil_r. }
  pose proof (second_loop_spec source log_file (replica st1) (log st1) Hsrc st1 Hinv2)
    as H2.
  destruct (for_each _ _ st1) as [[] st2|e st2].
  2:{ rewrite Hlog1 in H2. by eapply aborted_rebase. }
  destruct H2 as (Hc2 & Hg2 & (new2 & Hlog2 & Hok2)).
  pose proof (walk_bottomup_spec source sf (S (depth (replica st2))) [] st2 Hc2) as H3.
  destruct (walk_bottomup _ _ _ st2) as [[] st3|e st3]; [|done].
  destruct H3 as [(Hc3 & Hsh & _ & new3 & Hlog3 & Hok3) Hpruned].
  exists sf, (replica st1), (replica st2), new1, new2, new3.
  repeat (split; [done|]).
  split; [intros d dirs files Hin; eapply Hdirs; by apply list_elem_of_further|].
  split; [eapply Hdirs; apply list_elem_of_here|].
  split; [by rewrite Hlog3, Hlog2, Hlog1, <- !app_assoc|].
  done.
Qed.

(** ** What a pass that returns leaves behind *)

Lemma elem_of_file_paths (m : fs) (p : path) :
  p ∈ file_paths m ↔ is_file (m !! p) = true.
Proof.
  unfold file_paths. rewrite elem_of_dom. split.
  - intros [v [Hv Hf]%map_lookup_filter_Some]. simpl in Hf. by rewrite Hv.
  - intros Hf. destruct (m !! p) as [v|] eqn:Hv; [|done].
    exists v. by apply map_lookup_filter_Some.
Qed.

Lemma visited_iff (log_file : string) (source : fs) (p : path) :
  closed source →
  visited log_file (os_walk source []) p ↔
  p ≠ [] ∧ is_file (source !! p) = true ∧ ¬ log_named log_file p.
Proof.
  intros Hc. split.
  - intros (d & dirs & files & n & Hin & Hn & Hne & ->).
    apply os_walk_dir in Hin as [_ Hfiles]. split; [done|].
    split; [by apply Hfiles|done].
  - intros (Hne & Hf & Hlog). destruct p as [|n d]; [done|].
    destruct (os_walk_visits_file source n d Hc Hf) as (dirs & files & Hin & Hn).
    by exists d, dirs, files, n.
Qed.

Lemma no_log_named_file (log_file : string) (source : fs) (p : path) :
  no_log_named log_file source → is_file (source !! p) = true →
  ¬ log_named log_file p.
Proof.
  intros Hno (r & w & t & d & Hp)%is_file_Some Hlog.
  pose proof (map_Forall_lookup_1 _ _ _ _ Hno Hp) as H. simpl in H.
  by rewrite bool_decide_eq_true_2 in H.
Qed.

Lemma mirrored_grown_eq (source m m' : fs) (p : path) :
  grown source m m' → mirrored source m p → m' !! p = m !! p.
Proof.
  intros Hg (w & t & d & w' & t' & d' & Hs & Hm & Hh).
  destruct (Hg p) as [E|[(Hn & _)|(_ & w2 & t2 & d2 & Hs2 & _ & [?|(?&?&?&?)])]];
    [done|congruence..].
Qed.

Lemma Forall_absurd {A} (P : A → Prop) (l : list A) :
  Forall P l → (∀ x, ¬ P x) → l = [].
Proof. intros [|x l' Hx _] Hn; [done|]. by destruct (Hn x). Qed.

Section pass_facts.

Context (source : fs) (log_file : string) (m0 : fs) (l0 : list log_entry).
Hypothesis Htree : tree source.
Hypothesis Hcompat : compatible log_file source m0.

Lemma good_start : good log_file source m0.
Proof. split; [done|apply Htree]. Qed.

Lemma source_file_not_root (p : path) : is_file (source !! p) = true → p ≠ [].
Proof. intros Hf ->. destruct Htree as [_ Hroot]. by rewrite Hroot in Hf. Qed.

(** The files of the source survive the third loop as the first loop left
    them. *)
Lemma pass_ok_file (st' : state) :
  pass_ok log_file source m0 l0 st' →
  ∃ m1 new1 new2 new3,
    grown source m0 m1
    ∧ log st' = l0 ++ new1 ++ new2 ++ new3
    ∧ Forall (entry_ok1 source m0) new1 ∧ log_complete1 m0 m1 new1
    ∧ Forall (entry_ok2 source m1) new2
    ∧ Forall (deletion_sound log_file source) new3
    ∧ ∀ p, is_file (source !! p) = true → ¬ log_named log_file p →
           mirrored source m1 p ∧ replica st' !! p = m1 !! p.
Proof.
  intros (sf & m1 & m2 & new1 & new2 & new3 & Hc2 & Hc' & Hg1 & Hg2 & Hsh & Hsf
          & Hmir & Hdirs & Hroot & Hlog & Hok1 & Hcomp1 & Hok2 & Hok3 & Hpruned).
  destruct Htree as [Hsrc Hsroot].
  exists m1, new1, new2, new3. repeat (split; [done|]). split.
  { eapply Forall_impl; [exact Hok3|]. intros e He.
    destruct e as [q|q|q|q|q|q]; simpl in *; try done; [|by destruct He].
    destruct He as [_ Hnone]. intros [Hf Hn].
    assert (is_Some (sf !! q)) as [? ?]; [|congruence].
    apply Hsf, visited_iff; [done|]. split; [by apply source_file_not_root|done]. }
  intros p Hf Hlogn.
  assert (visited log_file (os_walk source []) p) as Hv.
  { apply visited_iff; [done|]. split; [by apply source_file_not_root|done]. }
  pose proof (Hmir p Hv) as Hm1. split; [done|].
  rewrite <- (mirrored_grown_eq source m1 m2 p Hg2 Hm1).
  destruct (Hsh p) as [E|(_ & _ & [[_ Hnone]|(a & Ha & Hd & Hs)])]; [done|..].
  - apply Hsf in Hv as [? ?]. congruence.
  - apply is_file_Some in Hf as (r & w & t & d & Hf).
    destruct (closed_prefix_exists source p a Hsrc) as [? ?];
      [by rewrite Hf|done|congruence].
Qed.

Lemma pass_settles (st' : state) :
  pass_ok log_file source m0 l0 st' → settled log_file source (replica st').
Proof.
  intros Hok. pose proof (pass_ok_file st' Hok) as Hfiles.
  destruct Hok as (sf & m1 & m2 & new1 & new2 & new3 & Hc2 & Hc' & Hg1 & Hg2 & Hsh
                   & Hsf & Hmir & Hdirs & Hroot & Hlog & Hok1 & Hcomp1 & Hok2 & Hok3
                   & Hpruned).
  destruct Hfiles as (m1' & _ & _ & _ & _ & _ & _ & _ & _ & _ & Hfiles).
  destruct Htree as [Hsrc Hsroot].
  assert (good log_file source m2) as [Hcompat2 _].
  { eapply good_grown; [exact Hg2|]. eapply good_grown; [exact Hg1|].
    apply good_start. }
  assert (∀ q, q ≠ [] → is_Some (replica st' !! q) → below [] q
               ∧ (length q < length ([] : path) + S (depth m2))%nat) as Hdeep.
  { intros q Hne [v Hv]. split; [split; [apply suffix_nil|done]|].
    pose proof (shrunk_Some _ _ _ _ _ _ Hsh Hv) as Hv2.
    assert (length q ≤ depth m2)%nat by (apply depth_bound; by rewrite Hv2).
    simpl. lia. }
  assert (∀ d, source !! d = Some Dir → replica st' !! d = Some Dir) as Hdir.
  { intros d Hd.
    assert (m2 !! d = Some Dir) as Hd2.
    { destruct (compatible_dir _ _ _ _ Hcompat2 Hd) as [Hn|?]; [|done].
      assert (is_Some (m1 !! d)) as Hd1.
      { destruct (os_walk_visits_dir source d Hsrc Hd) as (dirs & files & Hin).
        by eapply Hdirs. }
      destruct (grown_mono source m1 m2 d Hg2 Hd1). congruence. }
    destruct (Hsh d) as [E|(_ & _ & [[Hf _]|(a & Ha & Hda & Hs)])].
    - by rewrite E.
    - by rewrite Hd2 in Hf.
    - destruct (closed_prefix_exists source d a Hsrc) as [? ?];
        [by rewrite Hd|done|congruence]. }
  split; [done|]. split.
  { apply map_Forall_lookup_2. intros p v Hp.
    pose proof (compatible_lookup _ _ _ _ _ Hcompat2 Hp) as Hent.
    destruct (Hsh p) as [E|(E & _)]; rewrite ?E in *.
    - destruct v; simpl in *; by rewrite E.
    - destruct v; simpl in *; rewrite E; simpl; [|done].
      apply andb_true_iff in Hent as [-> _]. by rewrite orb_true_r. }
  split; [by apply Hdir|]. split; [|split; [|split]].
  - intros p Hf.
    assert (p ≠ []) as Hne by (intros ->; by rewrite (Hdir [] Hsroot) in Hf).
    apply is_file_Some in Hf as (r & w & t & d & Hf).
    destruct (Hdeep p Hne) as [Hb Hlen]; [by rewrite Hf|].
    specialize (Hpruned p Hb Hlen). rewrite Hf in Hpruned.
    apply Hsf, visited_iff in Hpruned as (_ & ? & ?); done.
  - intros p Hf Hlogn. destruct (Hfiles p Hf Hlogn) as [Hm E].
    destruct Hm as (w & t & d & w' & t' & d' & Hs & Hm & Hh).
    exists w, t, d, w', t', d'. by rewrite E.
  - done.
  - intros q Hq. destruct (decide (q = [])) as [->|Hne]; [by rewrite Hsroot|].
    destruct (Hdeep q Hne) as [Hb Hlen]; [by rewrite Hq|].
    specialize (Hpruned q Hb Hlen). by rewrite Hq in Hpruned.
Qed.

(** A pass on a replica that can be processed returns. *)
Lemma pass_returns (h0 : list (tree_id * path)) :
  closed m0 →
  ∃ st', sync_folders source log_file (mkState m0 l0 h0) = Ok tt st'
         ∧ pass_ok log_file source m0 l0 st'.
Proof.
  intros Hm0.
  pose proof (sync_folders_spec source log_file m0 l0 h0 (proj1 Htree) Hm0) as H.
  destruct (sync_folders _ _ _) as [[] st'|e st'].
  - by exists st'.
  - destruct H as (_ & _ & _ & Hbad). destruct Hbad. apply good_start.
Qed.

End pass_facts.

(** A second pass on a settled replica changes nothing. *)
Lemma settled_noop (source : fs) (log_file : string) (m : fs)
    (l : list log_entry) (h : list (tree_id * path)) :
  tree source → no_log_named log_file source → settled log_file source m →
  ∃ h', sync_folders source log_file (mkState m l h) = Ok tt (mkState m l h').
Proof.
  intros Htree Hno (Hc & Hcompat & Hroot & Hfiles & Hmir & Hdirs & Hdsrc).
  destruct (pass_returns source log_file m l Htree Hcompat h Hc) as (st' & Hrun & Hok).
  destruct Hok as (sf & m1 & m2 & new1 & new2 & new3 & Hc2 & Hc' & Hg1 & Hg2 & Hsh
                   & Hsf & _ & _ & _ & Hlog & Hok1 & _ & Hok2 & Hok3 & _).
  assert (∀ p, is_file (source !! p) = true → mirrored source m p) as Hmir'.
  { intros p Hf. apply Hmir; [done|]. by eapply no_log_named_file. }
  assert (∀ m', grown source m m' → m' = m) as Hfix.
  { intros m' Hg. apply map_eq. intros q.
    destruct (Hg q) as [E|[(Hn & _ & [->|Hd])|(_ & w & t & d & Hs & _ & Hprev)]].
    - done.
    - congruence.
    - rewrite (Hdirs q Hd) in Hn. done.
    - destruct (Hmir' q) as (w1 & t1 & d1 & w' & t' & d' & Hs1 & Hm & Hh);
        [by rewrite Hs|].
      destruct Hprev as [?|(?&?&?&?)]; [congruence|]. by simplify_eq. }
  pose proof (Hfix m1 Hg1) as ->. pose proof (Hfix m2 Hg2) as ->.
  assert (∀ q, is_file (m !! q) = true → is_Some (sf !! q)) as Hrec.
  { intros q Hf. apply Hsf, visited_iff; [apply Htree|].
    destruct (Hfiles q Hf) as [Hfs Hlogn]. split; [|done].
    intros ->. destruct Htree as [_ Hsroot]. by rewrite Hsroot in Hfs. }
  assert (replica st' = m) as Hrep.
  { apply map_eq. intros q.
    destruct (Hsh q) as [E|(_ & _ & [[Hf Hnone]|(a & Ha & Hd & Hs)])]; [done|..].
    - destruct (Hrec q Hf). congruence.
    - destruct (Hdsrc a Hd). congruence. }
  assert (new1 = []) as ->.
  { eapply Forall_absurd; [exact Hok1|]. intros [q|q|q|q|q|q]; simpl; try tauto.
    - intros [Hn [->|Hd]]; [congruence|]. rewrite (Hdirs q Hd) in Hn. done.
    - intros [Hn Hf]. destruct (Hmir' q Hf) as (?&?&?&?&?&?&?&?&?). congruence.
    - intros (w & t & d & t' & d' & Hs & Hm & Hh).
      destruct (Hmir' q) as (?&?&?&?&?&?&?&?&?); [by rewrite Hs|]. by simplify_eq. }
  assert (new2 = []) as ->.
  { eapply Forall_absurd; [exact Hok2|]. intros [q|q|q|q|q|q]; simpl; try tauto.
    - intros [Hn Hd]. rewrite (Hdirs q Hd) in Hn. done.
    - intros [Hn Hf]. destruct (Hmir' q Hf) as (?&?&?&?&?&?&?&?&?). congruence. }
  assert (new3 = []) as ->.
  { eapply Forall_absurd; [exact Hok3|]. intros [q|q|q|q|q|q]; simpl; try tauto.
    - intros [Hf Hnone]. destruct (Hrec q Hf). congruence.
    - intros [Hd Hs]. destruct (Hdsrc q Hd). congruence. }
  rewrite !app_nil_r in Hlog.
  exists (hashed st'). rewrite Hrun. f_equal. destruct st'; simpl in *; congruence.
Qed.

(* ===================================================================== *)
(** * The claims *)
(* ===================================================================== *)

(** ** The content fingerprint *)

(** C8 (amended).  For every byte sequence and every positive chunk size,
    the loop of [calculate_hash] feeds the whole sequence, in order, to the
    hash object, and the digest is the one of hashing the whole sequence
    at once; in particular with the chunk size 4096 of the program.  The
    digest has 32 hexadecimal characters whatever the content.  On a
    readable file [calculate_hash] returns that digest of the content,
    whatever the modification time, so files with identical contents have
    equal digests.  (The converse fails: see [md5_collision].) *)
Theorem calculate_hash_whole_stream (data : list byte) :
  (∀ n, (0 < n)%nat → hash_chunked n data = md5_hex data)
  ∧ hash_content data = md5_hex data
  ∧ String.length (hash_content data) = 32%nat
  ∧ (∀ which m p w t st, m !! p = Some (File true w t data) →
       ∃ st', calculate_hash which m p st = Ok (md5_hex data) st'
              ∧ same_effects st st').
Proof.
  split; [intros n Hn; by apply hash_chunked_whole|].
  split; [apply hash_content_whole|].
  split; [apply length_hexdigest|].
  intros which m p w t st Hp. unfold calculate_hash, open_rb. rewrite Hp.
  eexists. split; [by rewrite hash_content_whole|done].
Qed.

(** C8, as stated, fails: two files with different contents and equal
    digests. *)
Lemma md5_collision :
  collision_a ≠ collision_b
  ∧ hash_content collision_a = hash_content collision_b.
Proof. split; [vm_compute; discriminate|vm_compute; reflexivity]. Qed.

(** ** The entry point *)

(** C9.  When the source folder does not exist, [main] prints the message
    and returns: the logging module is not configured, nothing is logged,
    the replica is not created or touched, no pass is run. *)
Theorem main_without_source (source_folder : string) (ticks : nat) (w : world) :
  path_exists (source_tree w) [] = false →
  main source_folder ticks w =
    (Returned,
     mkWorld (source_tree w) (disk w) (logging_file w)
       (stdout w ++ [("Source folder does not exist: " +:+ source_folder)%string])).
Proof. intros H. unfold main. by rewrite H. Qed.

Lemma main_without_source_witness :
  path_exists (∅ : fs) [] = false
  ∧ main "/data/src" 3 (mkWorld ∅ (fresh ∅) None []) =
      (Returned,
       mkWorld ∅ (fresh ∅) None ["Source folder does not exist: /data/src"%string]).
Proof.
  split; [reflexivity|].
  apply (main_without_source "/data/src" 3 (mkWorld ∅ (fresh ∅) None [])).
  reflexivity.
Defined.

(** ** The log-file name *)

(** C4 fails on the code.  A source file with the name of the log file is
    passed over by the first loop but not by the second, which copies it
    into the replica and logs a restoration; the third loop then deletes it
    as a file the first loop did not record.  A file of that name in the
    replica is deleted as stale. *)
Theorem log_named_file_restored_then_deleted :
  (∃ st', sync_folders logfile_source log_path (fresh ∅) = Ok tt st'
          ∧ log st' = [DirCreated []; FileRestored ["sync.log"];
                       FileDeleted ["sync.log"]]
          ∧ replica st' !! ["sync.log"] = None)
  ∧ (∃ st', sync_folders empty_source log_path (fresh logfile_source) = Ok tt st'
            ∧ log st' = [FileDeleted ["sync.log"]]).
Proof.
  split; eexists; (split; [vm_compute; reflexivity|]);
    repeat split; vm_compute; reflexivity.
Qed.

(** ** Mirror equivalence *)

Lemma pass_ok_root (source : fs) (log_file : string) (m0 : fs)
    (l0 : list log_entry) (st' : state) :
  is_file (m0 !! []) = false →
  pass_ok log_file source m0 l0 st' → replica st' !! [] = Some Dir.
Proof.
  intros Hroot0 (sf & m1 & m2 & new1 & new2 & new3 & _ & _ & Hg1 & Hg2 & Hsh & _
                 & _ & _ & Hroot & _).
  assert (m1 !! [] = Some Dir) as H1.
  { destruct (Hg1 []) as [E|[(_ & ? & _)|(? & _)]]; [|done..].
    destruct Hroot as [v Hv]. rewrite E in Hv. rewrite Hv in Hroot0.
    destruct v; [done|congruence]. }
  pose proof (grown_dir _ _ _ _ Hg2 H1) as H2.
  destruct (Hsh []) as [E|(_ & ? & _)]; [congruence|done].
Qed.

Lemma pass_mirror (source : fs) (log_file : string) (m0 : fs)
    (l0 : list log_entry) (st' : state) :
  tree source → is_file (m0 !! []) = false →
  pass_ok log_file source m0 l0 st' →
  (∀ p, is_file (replica st' !! p) = true ↔
        is_file (source !! p) = true ∧ ¬ log_named log_file p)
  ∧ (∀ p, is_file (source !! p) = true → ¬ log_named log_file p →
          mirrored source (replica st') p).
Proof.
  intros Htree Hroot0 Hok.
  pose proof (pass_ok_root _ _ _ _ _ Hroot0 Hok) as Hroot.
  pose proof (pass_ok_file source log_file m0 l0 Htree st' Hok)
    as (m1 & _ & _ & _ & _ & _ & _ & _ & _ & _ & Hfiles).
  assert (∀ p, is_file (source !! p) = true → ¬ log_named log_file p →
               mirrored source (replica st') p) as Hmir.
  { intros p Hf Hlogn. destruct (Hfiles p Hf Hlogn) as [Hm E].
    destruct Hm as (w & t & d & w' & t' & d' & Hs & Hm & Hh).
    exists w, t, d, w', t', d'. by rewrite E. }
  split; [|done]. intros p. split.
  - intros Hf.
    destruct Hok as (sf & m1' & m2 & _ & _ & _ & _ & _ & _ & _ & Hsh & Hsf & _ & _
                     & _ & _ & _ & _ & _ & _ & Hpruned).
    assert (p ≠ []) as Hne by (intros ->; by rewrite Hroot in Hf).
    apply is_file_Some in Hf as (r & w & t & d & Hf).
    pose proof (shrunk_Some _ _ _ _ _ _ Hsh Hf) as Hf2.
    assert (length p ≤ depth m2)%nat by (apply depth_bound; by rewrite Hf2).
    specialize (Hpruned p). rewrite Hf in Hpruned.
    destruct Hpruned as [v Hv].
    + split; [apply suffix_nil|done].
    + simpl. lia.
    + assert (is_Some (sf !! p)) as Hsome by (by rewrite Hv).
      apply Hsf, visited_iff in Hsome as (_ & ? & ?); [done|apply Htree].
  - intros [Hf Hlogn]. destruct (Hmir p Hf Hlogn) as (?&?&?&?&?&?&_&Hm&_).
    by rewrite Hm.
Qed.

(** C1 (amended).  For every source tree and every initial replica that is
    absent or a directory: when a run of [sync_folders] returns, the set of
    the relative paths of the files of the replica is the set of those of
    the source without the files that bear the name of the log file, and
    every file present in both has the fingerprint of its source file; and
    the run returns whenever the replica is compatible with the source (no
    source directory faces a file, every source file can be read, and a
    mirrored source file faces nothing, or a readable file that has the
    same fingerprint or can be written: the copy of a read-only source
    file is read-only, and a pass cannot update it). *)
Theorem mirror_after_pass (source : fs) (log_file : string) (m0 : fs)
    (l0 : list log_entry) (h0 : list (tree_id * path)) :
  tree source → closed m0 → is_file (m0 !! []) = false →
  (∀ st', sync_folders source log_file (mkState m0 l0 h0) = Ok tt st' →
     file_paths (replica st')
     = filter (λ p, ¬ log_named log_file p) (file_paths source)
     ∧ ∀ p, p ∈ file_paths source → p ∈ file_paths (replica st') →
            fingerprint (replica st') p = fingerprint source p)
  ∧ (compatible log_file source m0 →
     returns (sync_folders source log_file (mkState m0 l0 h0))).
Proof.
  intros Htree Hm0 Hroot0.
  pose proof (sync_folders_spec source log_file m0 l0 h0 (proj1 Htree) Hm0) as Hspec.
  split.
  - intros st' Hrun. rewrite Hrun in Hspec.
    destruct (pass_mirror _ _ _ _ _ Htree Hroot0 Hspec) as [Hiff Hmir].
    split.
    + apply set_eq. intros p.
      rewrite elem_of_filter, !elem_of_file_paths, Hiff. tauto.
    + intros p _ Hp. apply elem_of_file_paths, Hiff in Hp as [Hf Hlogn].
      destruct (Hmir p Hf Hlogn) as (w & t & d & w' & t' & d' & Hs & Hm & Hh).
      unfold fingerprint, content. rewrite Hs, Hm. simpl. by rewrite Hh.
  - intros Hcompat.
    destruct (sync_folders _ _ _) as [[] st'|e st']; [done|].
    destruct Hspec as (_ & _ & _ & Hbad). apply Hbad. split; [done|apply Htree].
Qed.

Lemma mirror_after_pass_witness :
  tree demo_source ∧ closed (∅ : fs) ∧ is_file ((∅ : fs) !! []) = false
  ∧ compatible log_path demo_source ∅
  ∧ returns (sync_folders demo_source log_path (fresh ∅)).
Proof.
  assert (tree demo_source) as H1 by (apply (bool_decide_unpack _); vm_compute; exact I).
  assert (closed (∅ : fs)) as H2 by (apply (bool_decide_unpack _); vm_compute; exact I).
  assert (compatible log_path demo_source ∅) as H3
    by (apply (bool_decide_unpack _); vm_compute; exact I).
  split; [exact H1|]. split; [exact H2|]. split; [reflexivity|]. split; [exact H3|].
  exact (proj2 (mirror_after_pass demo_source log_path ∅ [] [] H1 H2 eq_refl) H3).
Defined.

(** C1, as stated, fails: the pass returns and leaves in the replica a file
    whose bytes differ from those of the source file at the same path. *)
Lemma mirror_bytes_counterexample :
  ∃ st', sync_folders collision_source log_path (fresh collision_replica) = Ok tt st'
         ∧ ["a.bin"] ∈ file_paths collision_source
         ∧ ["a.bin"] ∈ file_paths (replica st')
         ∧ content (replica st') ["a.bin"] ≠ content collision_source ["a.bin"].
Proof.
  eexists. split; [vm_compute; reflexivity|].
  split; [apply elem_of_file_paths; vm_compute; reflexivity|].
  split; [apply elem_of_file_paths; vm_compute; reflexivity|].
  vm_compute. discriminate.
Qed.

(** ** Idempotence *)

(** C2 (amended).  For every source tree without a file that bears the
    name of the log file and every initial replica that is compatible with
    it (no source directory faces a file, every source file can be read,
    and a source file faces nothing, or a readable file that has the same
    fingerprint or can be written), a first run of [sync_folders] returns,
    and a second run right after it returns with the replica and the log
    as the first run left them: it copies, restores and deletes nothing
    and logs nothing. *)
Theorem second_pass_changes_nothing (source : fs) (log_file : string) (m0 : fs)
    (l0 : list log_entry) (h0 : list (tree_id * path)) :
  tree source → closed m0 → compatible log_file source m0 →
  no_log_named log_file source →
  ∃ st1 st2,
    sync_folders source log_file (mkState m0 l0 h0) = Ok tt st1
    ∧ sync_folders source log_file st1 = Ok tt st2
    ∧ replica st2 = replica st1 ∧ log st2 = log st1.
Proof.
  intros Htree Hm0 Hcompat Hno.
  destruct (pass_returns source log_file m0 l0 Htree Hcompat h0 Hm0)
    as (st1 & Hrun1 & Hok1).
  pose proof (pass_settles source log_file m0 l0 Htree Hcompat st1 Hok1) as Hset.
  destruct st1 as [m1 l1 h1]. simpl in Hset.
  destruct (settled_noop source log_file m1 l1 h1 Htree Hno Hset) as [h2 Hrun2].
  by exists (mkState m1 l1 h1), (mkState m1 l1 h2).
Qed.

Lemma second_pass_changes_nothing_witness :
  tree demo_source ∧ closed (∅ : fs) ∧ compatible log_path demo_source ∅
  ∧ no_log_named log_path demo_source
  ∧ ∃ st1 st2,
      sync_folders demo_source log_path (fresh ∅) = Ok tt st1
      ∧ sync_folders demo_source log_path st1 = Ok tt st2
      ∧ replica st2 = replica st1 ∧ log st2 = log st1.
Proof.
  assert (tree demo_source) as H1 by (apply (bool_decide_unpack _); vm_compute; exact I).
  assert (closed (∅ : fs)) as H2 by (apply (bool_decide_unpack _); vm_compute; exact I).
  assert (compatible log_path demo_source ∅) as H3
    by (apply (bool_decide_unpack _); vm_compute; exact I).
  assert (no_log_named log_path demo_source) as H4
    by (apply (bool_decide_unpack _); vm_compute; exact I).
  split; [exact H1|]. split; [exact H2|]. split; [exact H3|]. split; [exact H4|].
  exact (second_pass_changes_nothing demo_source log_path ∅ [] [] H1 H2 H3 H4).
Defined.

(** C2, as stated, fails: where an empty source directory faces a regular
    file, the first run deletes the file and the second run creates the
    directory and logs it. *)
Lemma second_pass_counterexample :
  ∃ st1 st2,
    sync_folders conflict_source log_path (fresh conflict_replica) = Ok tt st1
    ∧ sync_folders conflict_source log_path st1 = Ok tt st2
    ∧ log st1 = [FileDeleted ["d"]]
    ∧ log st2 = [FileDeleted ["d"]; DirCreated ["d"]]
    ∧ replica st1 !! ["d"] = None ∧ replica st2 !! ["d"] = Some Dir.
Proof.
  eexists. eexists. split; [vm_compute; reflexivity|].
  split; [vm_compute; reflexivity|]. repeat split; vm_compute; reflexivity.
Qed.

(** ** Files of the source, one at a time *)

(** What a pass that returns did with a source file that does not bear the
    name of the log file, according to what it faced in the replica the
    pass started from. *)
Lemma pass_file (source : fs) (log_file : string) (m0 : fs)
    (l0 : list log_entry) (st' : state) (p : path) (w : bool) (t : Z)
    (d : list byte) :
  tree source → pass_ok log_file source m0 l0 st' →
  source !! p = Some (File true w t d) → ¬ log_named log_file p →
  ∃ new, log st' = l0 ++ new ∧ (FileRestored p ∉ new)
    ∧ (∀ e, e ∈ new → entry_path e = p → e = FileCopied p ∨ e = FileUpdated p)
    ∧ match m0 !! p with
      | None =>
          replica st' !! p = Some (File true w t d)
          ∧ FileCopied p ∈ new ∧ (FileUpdated p ∉ new)
      | Some (File true w' t' d') =>
          if decide (hash_content d = hash_content d')
          then replica st' !! p = Some (File true w' t' d')
               ∧ (FileCopied p ∉ new) ∧ (FileUpdated p ∉ new)
          else w' = true ∧ replica st' !! p = Some (File true w t d)
               ∧ (FileCopied p ∉ new) ∧ FileUpdated p ∈ new
      | Some (File false _ _ _) | Some Dir => False
      end.
Proof.
  intros Htree Hok Hs Hlogn.
  destruct (pass_ok_file source log_file m0 l0 Htree st' Hok)
    as (m1 & new1 & new2 & new3 & Hg1 & Hlog & Hok1 & Hcomp1 & Hok2 & Hok3 & Hfiles).
  assert (p ≠ []) as Hnr by (intros ->; destruct Htree; congruence).
  destruct (Hfiles p) as [Hm E]; [by rewrite Hs|done|].
  destruct Hm as (w0 & t0 & d0 & w1 & t1 & d1 & Hs0 & Hm1 & Hh). simplify_eq.
  exists (new1 ++ new2 ++ new3). split; [done|].
  assert (∀ e, e ∈ new1 ++ new2 ++ new3 →
               (e ∈ new1 ∧ entry_ok1 source m0 e)
               ∨ (e ∈ new2 ∧ entry_ok2 source m1 e)
               ∨ (e ∈ new3 ∧ deletion_sound log_file source e)) as Hwhere.
  { intros e [He|[He|He]%elem_of_app]%elem_of_app.
    - left. split; [done|]. by eapply (proj1 (Forall_forall _ _) Hok1).
    - right; left. split; [done|]. by eapply (proj1 (Forall_forall _ _) Hok2).
    - right; right. split; [done|]. by eapply (proj1 (Forall_forall _ _) Hok3). }
  assert (FileRestored p ∉ new1 ++ new2 ++ new3) as Hrest.
  { intros [[_ He]|[[_ [He _]]|[_ He]]]%Hwhere; simpl in He; [done|congruence|done]. }
  assert (∀ q, FileCopied q ∈ new1 ++ new2 ++ new3 → m0 !! q = None) as Hcopied.
  { intros q [[_ [He _]]|[[_ He]|[_ He]]]%Hwhere; simpl in He; done. }
  assert (∀ q, FileUpdated q ∈ new1 ++ new2 ++ new3 →
               ∃ w t d t' d', source !! q = Some (File true w t d)
                              ∧ m0 !! q = Some (File true true t' d')
                              ∧ hash_content d ≠ hash_content d') as Hupdated.
  { intros q [[_ He]|[[_ He]|[_ He]]]%Hwhere; simpl in He; done. }
  split; [done|]. split.
  { intros e He Hpath.
    destruct e as [q|q|q|q|q|q]; simpl in Hpath; subst q; [|by left|by right|done|..].
    - exfalso.
      destruct (Hwhere _ He) as [[_ Hk]|[[_ Hk]|[_ Hk]]]; simpl in Hk; [| |done].
      + destruct Hk as [_ [?|?]]; congruence.
      + destruct Hk as [_ ?]. congruence.
    - exfalso.
      destruct (Hwhere _ He) as [[_ Hk]|[[_ Hk]|[_ Hk]]]; simpl in Hk; [done..|].
      apply Hk. by rewrite Hs.
    - exfalso.
      destruct (Hwhere _ He) as [[_ Hk]|[[_ Hk]|[_ Hk]]]; simpl in Hk; [done..|].
      congruence. }
  rewrite E, Hm1.
  destruct (Hg1 p) as [E0|[(_ & ? & _)|(_ & w2 & t2 & d2 & Hs2 & Hm2 & Hprev)]];
    [|congruence|].
  - rewrite <- E0, Hm1. rewrite decide_True by done.
    split; [done|]. split.
    + intros ?%Hcopied. congruence.
    + intros (?&?&?&?&?&Hs'&Hm0'&Hne)%Hupdated.
      rewrite <- E0, Hm1 in Hm0'. congruence.
  - simplify_eq.
    assert (m1 !! p ≠ m0 !! p) as Hchanged.
    { rewrite Hm1. destruct Hprev as [->|(t' & d' & -> & Hne)]; [done|].
      intros ?. by simplify_eq. }
    assert (is_file (m1 !! p) = true) as Hf1 by (by rewrite Hm1).
    destruct Hprev as [Hn|(t' & d' & Hm0 & Hne)].
    + rewrite Hn. split; [done|]. split.
      * destruct (Hcomp1 p Hf1 Hchanged) as [[_ ?]|[Hf0 _]];
          [apply elem_of_app; by left|by rewrite Hn in Hf0].
      * intros (?&?&?&?&?&?&?&?)%Hupdated. congruence.
    + rewrite Hm0. rewrite decide_False by done.
      split; [done|]. split; [done|]. split.
      * intros ?%Hcopied. congruence.
      * destruct (Hcomp1 p Hf1 Hchanged) as [[? _]|[_ ?]];
          [congruence|apply elem_of_app; by left].
Qed.

Lemma compatible_delete (log_file : string) (source m : fs) (p : path) :
  compatible log_file source m → compatible log_file source (delete p m).
Proof.
  intros Hc. apply map_Forall_lookup_2. intros q v Hq.
  pose proof (compatible_lookup _ _ _ _ _ Hc Hq) as H.
  destruct (decide (q = p)) as [->|Hne].
  - destruct v; simpl in *; rewrite lookup_delete_eq; simpl; [|done].
    apply andb_true_iff in H as [-> _]. by rewrite orb_true_r.
  - destruct v; simpl in *; by rewrite lookup_delete_ne.
Qed.

(** ** Self-healing *)

(** C3 fails on the code.  The loop of lines 61-75 is there to restore
    the files that are missing from the replica and to log "File restored",
    but it never finds one to restore: the first loop has copied every such
    file already and has logged "File copied".  So for every file of the
    source (not of the log file's name) that is deleted from the replica,
    and from the replica only, after a pass: the next run of
    [sync_folders] puts the file back as the source has it, and it logs the
    action as "File copied", not as "File restored". *)
Theorem deleted_replica_file_is_copied_back (source : fs) (log_file : string)
    (m0 : fs) (l0 : list log_entry) (h0 : list (tree_id * path)) (p : path) :
  tree source → closed m0 → compatible log_file source m0 →
  is_file (source !! p) = true → ¬ log_named log_file p →
  ∃ st1,
    sync_folders source log_file (mkState m0 l0 h0) = Ok tt st1
    ∧ is_file (replica st1 !! p) = true
    ∧ ∃ st2 new,
        sync_folders source log_file
          (mkState (delete p (replica st1)) (log st1) (hashed st1)) = Ok tt st2
        ∧ replica st2 !! p = source !! p
        ∧ log st2 = log st1 ++ new
        ∧ FileCopied p ∈ new ∧ FileRestored p ∉ new.
Proof.
  intros Htree Hm0 Hcompat Hf Hlogn.
  destruct (pass_returns source log_file m0 l0 Htree Hcompat h0 Hm0)
    as (st1 & Hrun1 & Hok1).
  pose proof (pass_settles source log_file m0 l0 Htree Hcompat st1 Hok1)
    as (Hc1 & Hcompat1 & _ & _ & Hmir & _).
  destruct (Hmir p Hf Hlogn) as (w & t & d & w' & t' & d' & Hs & Hm & Hh).
  assert (is_file (replica st1 !! p) = true) as Hf1 by (by rewrite Hm).
  exists st1. split; [done|]. split; [done|].
  destruct (pass_returns source log_file (delete p (replica st1)) (log st1) Htree
              (compatible_delete _ _ _ p Hcompat1) (hashed st1)
              (closed_delete_file _ _ Hc1 Hf1)) as (st2 & Hrun2 & Hok2).
  destruct (pass_file source log_file _ _ st2 p w t d Htree Hok2 Hs Hlogn)
    as (new & Hlog & Hrest & _ & Hcase).
  rewrite lookup_delete_eq in Hcase. destruct Hcase as (Hp & Hcopied & _).
  exists st2, new. by rewrite Hs.
Qed.

Lemma deleted_replica_file_is_copied_back_witness :
  tree demo_source ∧ closed (∅ : fs) ∧ compatible log_path demo_source ∅
  ∧ is_file (demo_source !! ["a.txt"]) = true ∧ ¬ log_named log_path ["a.txt"]
  ∧ ∃ st1,
      sync_folders demo_source log_path (fresh ∅) = Ok tt st1
      ∧ is_file (replica st1 !! ["a.txt"]) = true
      ∧ ∃ st2 new,
          sync_folders demo_source log_path
            (mkState (delete ["a.txt"] (replica st1)) (log st1) (hashed st1))
          = Ok tt st2
          ∧ replica st2 !! ["a.txt"] = demo_source !! ["a.txt"]
          ∧ log st2 = log st1 ++ new
          ∧ FileCopied ["a.txt"] ∈ new ∧ FileRestored ["a.txt"] ∉ new.
Proof.
  assert (tree demo_source) as H1 by (apply (bool_decide_unpack _); vm_compute; exact I).
  assert (closed (∅ : fs)) as H2 by (apply (bool_decide_unpack _); vm_compute; exact I).
  assert (compatible log_path demo_source ∅) as H3
    by (apply (bool_decide_unpack _); vm_compute; exact I).
  assert (is_file (demo_source !! ["a.txt"]) = true) as H4 by (vm_compute; reflexivity).
  assert (¬ log_named log_path ["a.txt"]) as H5 by (vm_compute; discriminate).
  split; [exact H1|]. split; [exact H2|]. split; [exact H3|]. split; [exact H4|].
  split; [exact H5|].
  exact (deleted_replica_file_is_copied_back demo_source log_path ∅ [] [] ["a.txt"]
           H1 H2 H3 H4 H5).
Defined.

(** On the trees of the example: after the file [a.txt] is deleted from
    the replica, the next pass logs "File copied" for it, and no "File
    restored". *)
Example restore_logged_as_copy :
  ∃ st1 st2,
    sync_folders demo_source log_path (fresh ∅) = Ok tt st1
    ∧ sync_folders demo_source log_path
        (mkState (delete ["a.txt"] (replica st1)) [] []) = Ok tt st2
    ∧ log st2 = [FileCopied ["a.txt"]]
    ∧ replica st2 !! ["a.txt"] = demo_source !! ["a.txt"].
Proof.
  eexists. eexists. split; [vm_compute; reflexivity|].
  split; [vm_compute; reflexivity|]. split; vm_compute; reflexivity.
Qed.

(** ** Change propagation *)

(** C6 (amended).  For every source file (not of the log file's name) whose
    replica counterpart exists, in a replica that is compatible with the
    source (so the counterpart can be read, and can be written unless the
    fingerprints are equal), the pass overwrites the replica copy if and
    only if the fingerprints of the two contents differ: when they differ
    the replica holds the content, the permission bits and the
    modification time of the source file afterwards, and "File updated"
    is the one line logged about it; when they are equal, in particular
    when the bytes are identical, the replica file is left as it was, with
    its own modification time, whatever the two modification times are,
    and no line at all is logged about it. *)
Theorem overwrite_iff_fingerprints_differ (source : fs) (log_file : string)
    (m0 : fs) (l0 : list log_entry) (h0 : list (tree_id * path)) (p : path)
    (w w' : bool) (t t' : Z) (d d' : list byte) :
  tree source → closed m0 → compatible log_file source m0 →
  source !! p = Some (File true w t d) → ¬ log_named log_file p →
  m0 !! p = Some (File true w' t' d') →
  ∃ st' new,
    sync_folders source log_file (mkState m0 l0 h0) = Ok tt st'
    ∧ log st' = l0 ++ new
    ∧ (hash_content d ≠ hash_content d' →
       replica st' !! p = Some (File true w t d) ∧ FileUpdated p ∈ new
       ∧ ∀ e, e ∈ new → entry_path e = p → e = FileUpdated p)
    ∧ (hash_content d = hash_content d' →
       replica st' !! p = Some (File true w' t' d')
       ∧ ∀ e, e ∈ new → entry_path e ≠ p)
    ∧ (d = d' → replica st' !! p = Some (File true w' t' d')).
Proof.
  intros Htree Hm0 Hcompat Hs Hlogn Hp.
  destruct (pass_returns source log_file m0 l0 Htree Hcompat h0 Hm0)
    as (st' & Hrun & Hok).
  destruct (pass_file source log_file m0 l0 st' p w t d Htree Hok Hs Hlogn)
    as (new & Hlog & _ & Hkinds & Hcase).
  rewrite Hp in Hcase. exists st', new. split; [done|]. split; [done|].
  destruct (decide (hash_content d = hash_content d')) as [Heq|Hne].
  - destruct Hcase as (Hr & Hcopied & Hupd).
    assert (∀ e, e ∈ new → entry_path e ≠ p) as Hnone.
    { intros e He Hpath. destruct (Hkinds e He Hpath) as [->| ->]; done. }
    split; [done|]. split; [done|]. done.
  - destruct Hcase as (_ & Hr & Hcopied & Hupd). split; [|split; [done|]].
    + intros _. split; [done|]. split; [done|]. intros e He Hpath.
      destruct (Hkinds e He Hpath) as [->| ->]; done.
    + intros ->. done.
Qed.

Lemma overwrite_iff_fingerprints_differ_witness :
  tree demo_source ∧ closed outdated_replica
  ∧ compatible log_path demo_source outdated_replica
  ∧ demo_source !! ["a.txt"] = Some (File true true 0 (bytes_of_string "hello"))
  ∧ ¬ log_named log_path ["a.txt"]
  ∧ outdated_replica !! ["a.txt"] = Some (File true true 7 (bytes_of_string "HELLO"))
  ∧ ∃ st' new,
      sync_folders demo_source log_path (fresh outdated_replica) = Ok tt st'
      ∧ log st' = [] ++ new
      ∧ (hash_content (bytes_of_string "hello") ≠ hash_content (bytes_of_string "HELLO") →
         replica st' !! ["a.txt"] = Some (File true true 0 (bytes_of_string "hello"))
         ∧ FileUpdated ["a.txt"] ∈ new
         ∧ ∀ e, e ∈ new → entry_path e = ["a.txt"] → e = FileUpdated ["a.txt"])
      ∧ (hash_content (bytes_of_string "hello") = hash_content (bytes_of_string "HELLO") →
         replica st' !! ["a.txt"] = Some (File true true 7 (bytes_of_string "HELLO"))
         ∧ ∀ e, e ∈ new → entry_path e ≠ ["a.txt"])
      ∧ (bytes_of_string "hello" = bytes_of_string "HELLO" →
         replica st' !! ["a.txt"] = Some (File true true 7 (bytes_of_string "HELLO"))).
Proof.
  assert (tree demo_source) as H1 by (apply (bool_decide_unpack _); vm_compute; exact I).
  assert (closed outdated_replica) as H2
    by (apply (bool_decide_unpack _); vm_compute; exact I).
  assert (compatible log_path demo_source outdated_replica) as H3
    by (apply (bool_decide_unpack _); vm_compute; exact I).
  assert (¬ log_named log_path ["a.txt"]) as H5 by (vm_compute; discriminate).
  split; [exact H1|]. split; [exact H2|]. split; [exact H3|].
  split; [reflexivity|]. split; [exact H5|]. split; [reflexivity|].
  exact (overwrite_iff_fingerprints_differ demo_source log_path outdated_replica
           [] [] ["a.txt"] true true 0 7 (bytes_of_string "hello")
           (bytes_of_string "HELLO") H1 H2 H3 eq_refl H5 eq_refl).
Defined.

(** C6, as stated, fails: a replica file with the same path as a source
    file and different bytes, but the same fingerprint, is not rewritten. *)
Lemma different_bytes_not_rewritten_counterexample :
  ∃ st', sync_folders collision_source log_path (fresh collision_replica) = Ok tt st'
         ∧ content collision_source ["a.bin"] ≠ content collision_replica ["a.bin"]
         ∧ replica st' !! ["a.bin"] = collision_replica !! ["a.bin"]
         ∧ log st' = [].
Proof.
  eexists. split; [vm_compute; reflexivity|].
  split; [vm_compute; discriminate|]. split; vm_compute; reflexivity.
Qed.

(** ** Errors during a pass *)


(** ** The replica root *)

Lemma bind_same_start {A B} (c : M A) (k : A → M B) (st1 st2 st' : state) (a : A) :
  c st1 = Ok a st' → c st2 = Ok a st' → bind c k st1 = bind c k st2.
Proof. unfold bind. by intros -> ->. Qed.

Lemma sync_folders_missing_root (source : fs) (log_file : string) (m0 : fs)
    (l0 : list log_entry) (h0 : list (tree_id * path)) :
  m0 !! [] = None →
  sync_folders source log_file (mkState m0 l0 h0)
  = sync_folders source log_file
      (mkState (<[[] := Dir]> m0) (l0 ++ [DirCreated []]) h0).
Proof.
  intros Hroot. unfold sync_folders.
  apply (bind_same_start _ _ _ _
           (mkState (<[[] := Dir]> m0) (l0 ++ [DirCreated []]) h0) tt).
  - unfold ensure_dir, bind, os_path_exists, os_makedirs, on_replica, logging_info,
      path_exists. simpl. rewrite Hroot. simpl. unfold mkdir. by rewrite Hroot.
  - unfold ensure_dir, bind, os_path_exists, path_exists. simpl.
    by rewrite lookup_insert_eq.
Qed.

(** C10 (amended).  For every call of [sync_folders] on a replica path that
    is absent or a directory, the replica root is a directory when the call
    ends, whether it returns or raises, and also when the source has no
    entries or does not exist: a missing root is created first, and logged
    before anything else; the prune phase removes only below the root. *)
Theorem replica_root_is_kept (source : fs) (log_file : string) (m0 : fs)
    (l0 : list log_entry) (h0 : list (tree_id * path)) :
  closed source → closed m0 → is_file (m0 !! []) = false →
  replica (final (sync_folders source log_file (mkState m0 l0 h0))) !! [] = Some Dir
  ∧ (m0 !! [] = None →
     ∃ rest, log (final (sync_folders source log_file (mkState m0 l0 h0)))
             = l0 ++ DirCreated [] :: rest).
Proof.
  intros Hsrc Hm0 Hroot0.
  assert (∀ m l h, closed m → m !! [] = Some Dir →
            replica (final (sync_folders source log_file (mkState m l h))) !! []
            = Some Dir
            ∧ ∃ rest, log (final (sync_folders source log_file (mkState m l h)))
                      = l ++ rest) as Hgen.
  { intros m l h Hm Hroot.
    pose proof (sync_folders_spec source log_file m l h Hsrc Hm) as Hspec.
    destruct (sync_folders _ _ _) as [[] st'|e st']; simpl.
    - split.
      + eapply pass_ok_root; [|exact Hspec]. by rewrite Hroot.
      + destruct Hspec as (sf & m1 & m2 & new1 & new2 & new3 & _ & _ & _ & _ & _
                           & _ & _ & _ & _ & Hlog & _).
        by exists (new1 ++ new2 ++ new3).
    - destruct Hspec as (_ & Hg & Hlog & _). split; [|done].
      by eapply grown_dir. }
  destruct (m0 !! []) as [[r t d|]|] eqn:Hroot; [done| |].
  - destruct (Hgen m0 l0 h0 Hm0 Hroot) as [H1 _]. split; [done|]. done.
  - rewrite (sync_folders_missing_root source log_file m0 l0 h0 Hroot).
    destruct (Hgen (<[[] := Dir]> m0) (l0 ++ [DirCreated []]) h0) as [H1 [rest H2]].
    + apply closed_intro. intros n q [v Hv].
      rewrite lookup_insert_ne in Hv by done.
      by rewrite (closed_no_root m0 (n :: q) Hm0 Hroot) in Hv.
    + apply lookup_insert_eq.
    + split; [done|]. intros _. exists rest. by rewrite H2, <- app_assoc.
Qed.

Lemma replica_root_is_kept_witness :
  closed empty_source ∧ closed (∅ : fs) ∧ is_file ((∅ : fs) !! []) = false
  ∧ replica (final (sync_folders empty_source log_path (fresh ∅))) !! [] = Some Dir
  ∧ ((∅ : fs) !! [] = None →
     ∃ rest, log (final (sync_folders empty_source log_path (fresh ∅)))
             = [] ++ DirCreated [] :: rest).
Proof.
  assert (closed empty_source) as H1
    by (apply (bool_decide_unpack _); vm_compute; exact I).
  assert (closed (∅ : fs)) as H2 by (apply (bool_decide_unpack _); vm_compute; exact I).
  split; [exact H1|]. split; [exact H2|]. split; [reflexivity|].
  exact (replica_root_is_kept empty_source log_path ∅ [] [] H1 H2 eq_refl).
Defined.

(** C10, as stated, fails: when the replica path is a regular file the call
    returns and no replica root directory exists. *)
Lemma replica_root_counterexample :
  ∃ st', sync_folders empty_source log_path (fresh file_at_root) = Ok tt st'
         ∧ replica st' !! [] = Some (text "not a directory")
         ∧ log st' = [].
Proof.
  eexists. split; [vm_compute; reflexivity|]. split; vm_compute; reflexivity.
Qed.

(** ** The decision for a new file *)








Lemma sim_hash (which : tree_id) (m : fs) (p : path) :
  sim (calculate_hash which m p) (calculate_hash which m p).
Proof.
  intros st1 st2 [Hr Hl]. unfold calculate_hash.
  destruct (open_rb m p) as [e|[t d]]; simpl; by rewrite Hr, Hl.
Qed.

Lemma sim_hash_replica (p : path) :
  sim (calculate_hash_replica p) (calculate_hash_replica p).
Proof.
  intros st1 st2 [Hr Hl]. unfold calculate_hash_replica, calculate_hash.
  rewrite Hr. destruct (open_rb (replica st2) p) as [e|[t d]]; simpl; by rewrite Hl.
Qed.











(* ===================================================================== *)
(** * Further properties *)
(* ===================================================================== *)

(** ** The folder names computed by [main] *)

Lemma chars_append (a b : string) :
  String.list_ascii_of_string (a +:+ b)
  = String.list_ascii_of_string a ++ String.list_ascii_of_string b.
Proof. induction a as [|c a IH]; simpl; [done|by rewrite IH]. Qed.

Lemma string_eq_chars (a b : string) :
  String.list_ascii_of_string a = String.list_ascii_of_string b → a = b.
Proof.
  intros H. rewrite <- (String.string_of_list_ascii_of_string a),
    <- (String.string_of_list_ascii_of_string b). by rewrite H.
Qed.

Lemma take_until_slash_free (l : list ascii) :
  Forall (λ c, c ≠ slash) l → take_until_slash l = l.
Proof.
  induction 1 as [|c l Hc _ IH]; simpl; [done|].
  apply Ascii.eqb_neq in Hc. by rewrite Hc, IH.
Qed.

Lemma take_until_slash_app (a b : list ascii) :
  Forall (λ c, c ≠ slash) a → take_until_slash (a ++ slash :: b) = a.
Proof.
  induction 1 as [|c l Hc _ IH]; simpl.
  - by rewrite ?Ascii.eqb_refl.
  - apply Ascii.eqb_neq in Hc. by rewrite Hc, IH.
Qed.

Lemma take_until_slash_is_free (l : list ascii) :
  Forall (λ c, c ≠ slash) (take_until_slash l).
Proof.
  induction l as [|c l IH]; simpl; [constructor|].
  destruct (Ascii.eqb c slash) eqn:E; [constructor|].
  constructor; [by apply Ascii.eqb_neq|done].
Qed.

Lemma drop_until_slash_free (l : list ascii) :
  Forall (λ c, c ≠ slash) l → drop_until_slash l = [].
Proof.
  induction 1 as [|c l Hc _ IH]; simpl; [done|].
  apply Ascii.eqb_neq in Hc. by rewrite Hc.
Qed.

Lemma drop_until_slash_app (a b : list ascii) :
  Forall (λ c, c ≠ slash) a → drop_until_slash (a ++ slash :: b) = slash :: b.
Proof.
  induction 1 as [|c l Hc _ IH]; simpl.
  - by rewrite ?Ascii.eqb_refl.
  - apply Ascii.eqb_neq in Hc. by rewrite Hc.
Qed.

Lemma drop_slashes_head (c : ascii) (l : list ascii) :
  c ≠ slash → drop_slashes (c :: l) = c :: l.
Proof. intros Hc. apply Ascii.eqb_neq in Hc. simpl. by rewrite Hc. Qed.

Lemma rev_no_trailing_slash (s : string) :
  no_trailing_slash s →
  rev (String.list_ascii_of_string s) = []
  ∨ ∃ c r, rev (String.list_ascii_of_string s) = c :: r ∧ c ≠ slash.
Proof.
  unfold no_trailing_slash. intros H.
  rewrite <- head_reverse in H. unfold reverse in H. rewrite <- rev_alt in H.
  destruct (rev _) as [|c r]; [by left|right].
  exists c, r. split; [done|]. intros ->. by apply H.
Qed.

Lemma chars_basename (p : string) :
  String.list_ascii_of_string (os_path_basename p)
  = rev (take_until_slash (rev (String.list_ascii_of_string p))).
Proof. unfold os_path_basename. apply String.list_ascii_of_string_of_list_ascii. Qed.

Lemma slash_free_rev (l : list ascii) :
  Forall (λ c, c ≠ slash) l → Forall (λ c, c ≠ slash) (rev l).
Proof. apply List.Forall_rev. Qed.

Lemma slash_free_basename (p : string) : slash_free (os_path_basename p).
Proof.
  unfold slash_free. rewrite chars_basename.
  apply slash_free_rev, take_until_slash_is_free.
Qed.

(** The name that follows the last slash. *)
Lemma basename_after_slash (x y : list ascii) (p : string) :
  Forall (λ c, c ≠ slash) y →
  String.list_ascii_of_string p = x ++ slash :: y →
  os_path_basename p = String.string_of_list_ascii y.
Proof.
  intros Hy Hp. unfold os_path_basename. rewrite Hp, rev_app_distr. simpl.
  rewrite <- app_assoc. simpl.
  rewrite take_until_slash_app by (by apply slash_free_rev).
  by rewrite rev_involutive.
Qed.

Lemma basename_slash_free (p : string) : slash_free p → os_path_basename p = p.
Proof.
  intros Hp. unfold os_path_basename.
  rewrite take_until_slash_free by (by apply slash_free_rev).
  rewrite rev_involutive. apply String.string_of_list_ascii_of_string.
Qed.

Lemma dirname_slash_free (p : string) : slash_free p → os_path_dirname p = ""%string.
Proof.
  intros Hp. unfold os_path_dirname.
  by rewrite drop_until_slash_free by (by apply slash_free_rev).
Qed.

(** What precedes the last slash, when it does not end with a slash. *)
Lemma dirname_before_slash (d : string) (y : list ascii) (p : string) :
  Forall (λ c, c ≠ slash) y → no_trailing_slash d →
  String.list_ascii_of_string p = String.list_ascii_of_string d ++ slash :: y →
  os_path_dirname p = if decide (d = ""%string) then "/"%string else d.
Proof.
  intros Hy Hd Hp. unfold os_path_dirname. rewrite Hp, rev_app_distr. simpl.
  rewrite <- app_assoc. simpl.
  rewrite drop_until_slash_app by (by apply slash_free_rev).
  cbn [drop_slashes]. rewrite Ascii.eqb_refl.
  destruct (rev_no_trailing_slash d Hd) as [E|(c & r & E & Hc)].
  - rewrite E. simpl.
    assert (d = ""%string) as ->.
    { apply string_eq_chars. simpl.
      rewrite <- (rev_involutive (String.list_ascii_of_string d)). by rewrite E. }
    done.
  - rewrite E, drop_slashes_head by done. rewrite <- E, rev_involutive.
    rewrite String.string_of_list_ascii_of_string.
    destruct (decide (d = ""%string)) as [->|]; [done|done].
Qed.

Lemma join_name (a b : string) (c : ascii) (r : list ascii) :
  String.list_ascii_of_string b = c :: r → c ≠ slash → no_trailing_slash a →
  os_path_join a b = if decide (a = ""%string) then b else (a +:+ "/" +:+ b)%string.
Proof.
  intros Hb Hc Ha. unfold os_path_join. rewrite Hb.
  apply Ascii.eqb_neq in Hc. rewrite Hc.
  destruct (rev_no_trailing_slash a Ha) as [E|(x & y & E & Hx)].
  - rewrite E.
    assert (a = ""%string) as ->.
    { apply string_eq_chars. simpl.
      rewrite <- (rev_involutive (String.list_ascii_of_string a)). by rewrite E. }
    done.
  - rewrite E. apply Ascii.eqb_neq in Hx. rewrite Hx.
    destruct (decide (a = ""%string)) as [->|]; [done|done].
Qed.

Lemma basename_join (a b : string) :
  b ≠ ""%string → slash_free b → os_path_basename (os_path_join a b) = b.
Proof.
  intros Hne Hb. unfold os_path_join.
  destruct (String.list_ascii_of_string b) as [|c r] eqn:Eb.
  { destruct Hne. apply string_eq_chars. by rewrite Eb. }
  assert (c ≠ slash) as Hc.
  { unfold slash_free in Hb. rewrite Eb in Hb. by inversion Hb. }
  apply Ascii.eqb_neq in Hc. rewrite Hc.
  destruct (rev (String.list_ascii_of_string a)) as [|x y] eqn:Ea.
  - by apply basename_slash_free.
  - assert (String.list_ascii_of_string a = rev y ++ [x]) as Ha.
    { rewrite <- (rev_involutive (String.list_ascii_of_string a)), Ea. done. }
    rewrite <- (String.string_of_list_ascii_of_string b) at 3.
    destruct (Ascii.eqb x slash) eqn:Ex.
    + apply Ascii.eqb_eq in Ex. subst x.
      apply (basename_after_slash (rev y)); [done|].
      rewrite chars_append, Ha, <- app_assoc. done.
    + apply (basename_after_slash (rev y ++ [x])); [done|].
      rewrite !chars_append, Ha. done.
Qed.

Lemma chars_nonempty (s : string) :
  s ≠ ""%string → ∃ c r, String.list_ascii_of_string s = c :: r.
Proof. destruct s as [|c s]; [done|]. intros _. by exists c, (String.list_ascii_of_string s). Qed.

(** X1.  Lines 143 and 146, for a source folder [d/n] (or [/n], with [d]
    empty): the replica folder is the sibling [d/n_sync] and the log file
    is the sibling [d/sync.log]. *)
Theorem sibling_folder_names (d n : string) :
  n ≠ ""%string → slash_free n → no_trailing_slash d →
  replica_folder_of (d +:+ "/" +:+ n) = (d +:+ "/" +:+ n +:+ "_sync")%string
  ∧ log_file_path_of (d +:+ "/" +:+ n) = (d +:+ "/" +:+ "sync.log")%string.
Proof.
  intros Hn Hfree Hd.
  assert (String.list_ascii_of_string (d +:+ "/" +:+ n)
          = String.list_ascii_of_string d ++ slash :: String.list_ascii_of_string n) as Hp
    by (by rewrite !chars_append).
  pose proof (dirname_before_slash d _ _ Hfree Hd Hp) as Hdir.
  pose proof (basename_after_slash _ _ _ Hfree Hp) as Hbase.
  rewrite String.string_of_list_ascii_of_string in Hbase.
  destruct (chars_nonempty n Hn) as (c & r & Hc).
  assert (c ≠ slash) as Hcs.
  { unfold slash_free in Hfree. rewrite Hc in Hfree. by inversion Hfree. }
  unfold replica_folder_of, log_file_path_of. rewrite Hdir, Hbase.
  destruct (decide (d = ""%string)) as [->|Hne].
  - split.
    + unfold os_path_join. rewrite chars_append, Hc. simpl.
      apply Ascii.eqb_neq in Hcs. by rewrite Hcs.
    + done.
  - split.
    + rewrite (join_name d (n +:+ "_sync") c (r ++ String.list_ascii_of_string "_sync"));
        [|by rewrite chars_append, Hc|done..].
      by destruct (decide (d = ""%string)).
    + rewrite (join_name d "sync.log" "s"%char (String.list_ascii_of_string "ync.log"));
        [|done|by vm_compute|done].
      by destruct (decide (d = ""%string)).
Qed.

Lemma sibling_folder_names_witness :
  "src"%string ≠ ""%string ∧ slash_free "src" ∧ no_trailing_slash "/data"
  ∧ replica_folder_of "/data/src" = "/data/src_sync"%string
  ∧ log_file_path_of "/data/src" = "/data/sync.log"%string.
Proof.
  assert ("src"%string ≠ ""%string) as H1 by discriminate.
  assert (slash_free "src") as H2 by (apply (bool_decide_unpack _); vm_compute; exact I).
  assert (no_trailing_slash "/data") as H3
    by (apply (bool_decide_unpack _); vm_compute; exact I).
  split; [exact H1|]. split; [exact H2|]. split; [exact H3|].
  exact (sibling_folder_names "/data" "src" H1 H2 H3).
Defined.

(** X2.  Lines 143 and 146, for a source folder given with a trailing slash:
    its last component is empty, and both the replica folder and the log
    file are placed inside the source folder, as [_sync] and [sync.log]. *)
Theorem trailing_slash_folder_names (s : string) :
  s ≠ ""%string → no_trailing_slash s →
  os_path_basename (s +:+ "/") = ""%string
  ∧ replica_folder_of (s +:+ "/") = (s +:+ "/_sync")%string
  ∧ log_file_path_of (s +:+ "/") = (s +:+ "/sync.log")%string.
Proof.
  intros Hne Hs.
  assert (String.list_ascii_of_string (s +:+ "/")
          = String.list_ascii_of_string s ++ slash :: []) as Hp
    by (by rewrite chars_append).
  pose proof (dirname_before_slash s [] _ (Forall_nil_2 _) Hs Hp) as Hdir.
  pose proof (basename_after_slash _ [] _ (Forall_nil_2 _) Hp) as Hbase.
  simpl in Hbase. destruct (decide (s = ""%string)) as [|_]; [done|].
  split; [done|].
  unfold replica_folder_of, log_file_path_of. rewrite Hdir, Hbase. split.
  - rewrite (join_name s ("" +:+ "_sync") "_"%char (String.list_ascii_of_string "sync"));
      [|done|by vm_compute|done].
    by destruct (decide (s = ""%string)).
  - rewrite (join_name s "sync.log" "s"%char (String.list_ascii_of_string "ync.log"));
      [|done|by vm_compute|done].
    by destruct (decide (s = ""%string)).
Qed.

Lemma trailing_slash_folder_names_witness :
  "/data/src"%string ≠ ""%string ∧ no_trailing_slash "/data/src"
  ∧ os_path_basename "/data/src/" = ""%string
  ∧ replica_folder_of "/data/src/" = "/data/src/_sync"%string
  ∧ log_file_path_of "/data/src/" = "/data/src/sync.log"%string.
Proof.
  assert ("/data/src"%string ≠ ""%string) as H1 by discriminate.
  assert (no_trailing_slash "/data/src") as H2
    by (apply (bool_decide_unpack _); vm_compute; exact I).
  split; [exact H1|]. split; [exact H2|].
  exact (trailing_slash_folder_names "/data/src" H1 H2).
Defined.

(** X3.  Whatever the source folder is called, the log file [main] passes on is
    called [sync.log], so that the first loop of every pass skips exactly
    the files of that name; and the last component of the replica folder
    is the one of the source folder followed by [_sync]. *)
Theorem log_file_is_named_sync_log (source_folder : string) :
  os_path_basename (log_file_path_of source_folder) = "sync.log"%string
  ∧ (∀ p, log_named (log_file_path_of source_folder) p ↔ basename p = "sync.log"%string)
  ∧ os_path_basename (replica_folder_of source_folder)
    = (os_path_basename source_folder +:+ "_sync")%string.
Proof.
  assert (os_path_basename (log_file_path_of source_folder) = "sync.log"%string) as H.
  { apply basename_join; [done|]. apply (bool_decide_unpack _). vm_compute. exact I. }
  split; [done|]. split.
  - intros p. unfold log_named. by rewrite H.
  - apply basename_join.
    + by destruct (os_path_basename source_folder).
    + unfold slash_free. rewrite chars_append. apply Forall_app. split.
      * apply slash_free_basename.
      * apply (bool_decide_unpack _). vm_compute. exact I.
Qed.

(** ** [main] on an existing source folder *)

(** X4.  A source folder named without a slash (a bare relative name): the log
    file is [sync.log] with an empty directory name, [setup_logging] finds
    that the directory does not exist and [os.makedirs] raises
    [FileNotFoundError] on the empty name.  [main] ends there: nothing is
    printed, logging is not configured, no pass is run. *)
Theorem main_bare_name_crashes (source_folder : string) (ticks : nat) (w : world) :
  slash_free source_folder → path_exists (source_tree w) [] = true →
  log_file_path_of source_folder = "sync.log"%string
  ∧ main source_folder ticks w = (Crashed FileNotFoundError, w).
Proof.
  intros Hfree Hex.
  assert (log_file_path_of source_folder = "sync.log"%string) as Hlog.
  { unfold log_file_path_of. by rewrite dirname_slash_free. }
  split; [done|]. unfold main. rewrite Hex, Hlog. done.
Qed.

Lemma main_bare_name_crashes_witness :
  slash_free "src" ∧ path_exists demo_source [] = true
  ∧ log_file_path_of "src" = "sync.log"%string
  ∧ main "src" 2 (mkWorld demo_source (fresh ∅) None [])
    = (Crashed FileNotFoundError, mkWorld demo_source (fresh ∅) None []).
Proof.
  assert (slash_free "src") as H1 by (apply (bool_decide_unpack _); vm_compute; exact I).
  split; [exact H1|]. split; [reflexivity|].
  exact (main_bare_name_crashes "src" 2 (mkWorld demo_source (fresh ∅) None [])
           H1 eq_refl).
Defined.

(** ** Directories *)

(** X5.  A pass from a replica that is compatible with the source returns with
    a replica that is a tree again, in which every directory of the
    source, empty or not, is a directory, and in which a directory stands
    only where the source has a directory, or has a file of the log
    file's name. *)
Theorem directories_mirrored (source : fs) (log_file : string) (m0 : fs)
    (l0 : list log_entry) (h0 : list (tree_id * path)) :
  tree source → closed m0 → compatible log_file source m0 →
  ∃ st',
    sync_folders source log_file (mkState m0 l0 h0) = Ok tt st'
    ∧ tree (replica st')
    ∧ (∀ q, source !! q = Some Dir → replica st' !! q = Some Dir)
    ∧ (∀ q, replica st' !! q = Some Dir →
            source !! q = Some Dir
            ∨ (is_file (source !! q) = true ∧ log_named log_file q)).
Proof.
  intros Htree Hm0 Hcompat.
  destruct (pass_returns source log_file m0 l0 Htree Hcompat h0 Hm0)
    as (st' & Hrun & Hok).
  pose proof (pass_settles source log_file m0 l0 Htree Hcompat st' Hok)
    as (Hc & _ & Hroot & _ & Hmir & Hdirs & Hdsrc).
  exists st'. split; [done|]. split; [done|]. split; [done|].
  intros q Hq. destruct (Hdsrc q Hq) as [v Hv].
  destruct v as [r w t d|]; [|by left].
  destruct (decide (log_named log_file q)) as [Hn|Hn].
  - right. by rewrite Hv.
  - destruct (Hmir q) as (?&?&?&?&?&?&_&Hm&_); [by rewrite Hv|done|congruence].
Qed.

Lemma directories_mirrored_witness :
  tree demo_source ∧ closed cluttered_replica
  ∧ compatible log_path demo_source cluttered_replica
  ∧ ∃ st',
      sync_folders demo_source log_path (fresh cluttered_replica) = Ok tt st'
      ∧ tree (replica st')
      ∧ (∀ q, demo_source !! q = Some Dir → replica st' !! q = Some Dir)
      ∧ (∀ q, replica st' !! q = Some Dir →
              demo_source !! q = Some Dir
              ∨ (is_file (demo_source !! q) = true ∧ log_named log_path q)).
Proof.
  assert (tree demo_source) as H1 by (apply (bool_decide_unpack _); vm_compute; exact I).
  assert (closed cluttered_replica) as H2
    by (apply (bool_decide_unpack _); vm_compute; exact I).
  assert (compatible log_path demo_source cluttered_replica) as H3
    by (apply (bool_decide_unpack _); vm_compute; exact I).
  split; [exact H1|]. split; [exact H2|]. split; [exact H3|].
  exact (directories_mirrored demo_source log_path cluttered_replica [] [] H1 H2 H3).
Defined.

(** ** The first pass *)

(** X6.  A pass into a replica folder that is absent or empty, from a
    source whose files can all be read, returns with an exact copy of the
    source, directories, contents and modification times, without the
    files of the log file's name. *)
Theorem fresh_replica_is_exact_copy (source : fs) (log_file : string) (m0 : fs)
    (l0 : list log_entry) (h0 : list (tree_id * path)) :
  tree source → compatible log_file source m0 →
  (∀ q, q ≠ [] → m0 !! q = None) →
  ∃ st',
    sync_folders source log_file (mkState m0 l0 h0) = Ok tt st'
    ∧ replica st'
      = filter (λ kv : path * node,
                  ¬ (is_file (Some kv.2) = true ∧ log_named log_file kv.1)) source.
Proof.
  intros Htree Hcompat Hempty.
  assert (closed m0) as Hm0.
  { apply closed_intro. intros n q [v Hv]. by rewrite Hempty in Hv. }
  destruct (pass_returns source log_file m0 l0 Htree Hcompat h0 Hm0)
    as (st' & Hrun & Hok).
  pose proof (pass_settles source log_file m0 l0 Htree Hcompat st' Hok)
    as (Hc & _ & Hroot & Hfiles & Hmir & Hdirs & Hdsrc).
  exists st'. split; [done|]. apply map_eq. intros q.
  destruct (source !! q) as [[r w t d|]|] eqn:Hs.
  - assert (q ≠ []) as Hne by (intros ->; destruct Htree; congruence).
    destruct (decide (log_named log_file q)) as [Hn|Hn].
    + transitivity (@None node).
      * destruct (replica st' !! q) as [[r' w' t' d'|]|] eqn:Hq; [| |done].
        -- destruct (Hfiles q) as [_ ?]; [by rewrite Hq|done].
        -- destruct Hok as (sf & m1 & m2 & _ & _ & _ & _ & _ & Hg1 & Hg2 & Hsh & _).
           pose proof (shrunk_Some _ _ _ _ _ _ Hsh Hq) as H2.
           assert (m1 !! q = None) as H1.
           { destruct (Hg1 q) as [E|[(_ & _ & [?|?])|(_ & ? & ? & ? & ? & E & _)]];
               [rewrite E; by apply Hempty|done|congruence|].
             destruct (m1 !! q) eqn:E1; [|done].
             destruct (Hg2 q) as [E2|[(? & _)|(_ & ? & ? & ? & _ & E2 & _)]];
               congruence. }
           destruct (Hg2 q) as [E|[(_ & _ & [?|?])|(_ & ? & ? & ? & _ & E & _)]];
             congruence.
      * symmetry. apply map_lookup_filter_None. right. intros v Hv.
        rewrite Hs in Hv. simplify_eq. simpl. tauto.
    + pose proof (compatible_lookup _ _ _ _ _ Hcompat Hs) as Hce. simpl in Hce.
      apply andb_true_iff in Hce as [-> _].
      destruct (pass_file source log_file m0 l0 st' q w t d Htree Hok Hs Hn)
        as (new & _ & _ & _ & Hcase).
      rewrite (Hempty q Hne) in Hcase. destruct Hcase as (-> & _).
      symmetry. apply map_lookup_filter_Some. split; [done|]. simpl. tauto.
  - rewrite (Hdirs q Hs). symmetry. apply map_lookup_filter_Some.
    split; [done|]. simpl. intros [? _]. done.
  - transitivity (@None node).
    + destruct (replica st' !! q) as [[r' w' t' d'|]|] eqn:Hq; [| |done].
      * destruct (Hfiles q) as [Hf _]; [by rewrite Hq|by rewrite Hs in Hf].
      * destruct (Hdsrc q Hq) as [? ?]. congruence.
    + symmetry. apply map_lookup_filter_None. left. done.
Qed.

Lemma fresh_replica_is_exact_copy_witness :
  tree demo_source ∧ compatible log_path demo_source ∅
  ∧ (∀ q : path, q ≠ [] → (∅ : fs) !! q = None)
  ∧ ∃ st',
      sync_folders demo_source log_path (fresh ∅) = Ok tt st'
      ∧ replica st'
        = filter (λ kv : path * node,
                    ¬ (is_file (Some kv.2) = true ∧ log_named log_path kv.1))
            demo_source.
Proof.
  assert (tree demo_source) as H1 by (apply (bool_decide_unpack _); vm_compute; exact I).
  assert (compatible log_path demo_source ∅) as H2
    by (apply (bool_decide_unpack _); vm_compute; exact I).
  assert (∀ q : path, q ≠ [] → (∅ : fs) !! q = None) as H3 by (intros q _; reflexivity).
  split; [exact H1|]. split; [exact H2|]. split; [exact H3|].
  exact (fresh_replica_is_exact_copy demo_source log_path ∅ [] [] H1 H2 H3).
Defined.

(** ** The lines of the log *)

Lemma grown_file (source m m' : fs) (q : path) :
  grown source m m' → is_file (m !! q) = true → is_file (m' !! q) = true.
Proof.
  intros Hg Hf.
  destruct (Hg q) as [E|[(E & _)|(_ & w & t & d & _ & E & _)]].
  - by rewrite E.
  - by rewrite E in Hf.
  - by rewrite E.
Qed.

Lemma grown_dir_inv (source m m' : fs) (q : path) :
  grown source m m' → m' !! q = Some Dir → source !! q = None → q ≠ [] →
  m !! q = Some Dir.
Proof.
  intros Hg Hd Hs Hne.
  destruct (Hg q) as [E|[(_ & _ & [?|?])|(_ & ? & ? & ? & ? & _)]]; congruence.
Qed.

(** A file of a replica that grew from [m] was in [m] or is the copy of
    the source file at the same path. *)
Lemma grown_file_inv (source m m' : fs) (q : path) :
  grown source m m' → is_file (m' !! q) = true →
  is_file (m !! q) = true ∨ is_file (source !! q) = true.
Proof.
  intros Hg Hf.
  destruct (Hg q) as [E|[(_ & E & _)|(_ & w & t & d & E & _)]].
  - left. by rewrite <- E.
  - by rewrite E in Hf.
  - right. by rewrite E.
Qed.

(** X7.  Every line a pass that returns has logged is true of the source and
    of the replica the pass started from: a directory or a file logged as
    created, copied or restored was not there and the source has it; a
    file logged as updated was there with another fingerprint; a file
    logged as restored bears the name of the log file; a file logged as
    deleted is not a source file other than one of the log file's name; a
    directory logged as deleted was there and the source does not have
    it. *)
Theorem log_entries_are_sound (source : fs) (log_file : string) (m0 : fs)
    (l0 : list log_entry) (h0 : list (tree_id * path)) (st' : state) :
  tree source → closed m0 →
  sync_folders source log_file (mkState m0 l0 h0) = Ok tt st' →
  ∃ new, log st' = l0 ++ new ∧ Forall (entry_sound log_file source m0) new.
Proof.
  intros Htree Hm0 Hrun.
  pose proof (sync_folders_spec source log_file m0 l0 h0 (proj1 Htree) Hm0) as Hspec.
  rewrite Hrun in Hspec.
  destruct Hspec as (sf & m1 & m2 & new1 & new2 & new3 & Hc2 & Hc' & Hg1 & Hg2 & Hsh
                     & Hsf & Hmir & Hdirs & Hroot & Hlog & Hok1 & Hcomp1 & Hok2 & Hok3
                     & Hpruned).
  destruct Htree as [Hsrc Hsroot].
  assert (∀ q, is_file (source !! q) = true → q ≠ []) as Hnr.
  { intros q Hf ->. by rewrite Hsroot in Hf. }
  assert (∀ q, is_file (source !! q) = true → sf !! q = None → log_named log_file q)
    as Hnamed.
  { intros q Hf Hnone. destruct (decide (log_named log_file q)) as [|Hn]; [done|].
    assert (is_Some (sf !! q)) as [? ?]; [|congruence].
    apply Hsf, visited_iff; [done|]. split; [by apply Hnr|done]. }
  exists (new1 ++ new2 ++ new3). split; [done|].
  apply Forall_app. split; [|apply Forall_app; split].
  - eapply Forall_impl; [exact Hok1|]. intros e He. destruct e; simpl in *; try done.
  - eapply Forall_impl; [exact Hok2|]. intros e He. destruct e as [q|q|q|q|q|q];
      simpl in *; try done.
    + destruct He as [H1 Hs]. split; [by eapply grown_None|by right].
    + destruct He as [H1 Hf]. split; [by eapply grown_None|]. split; [done|].
      destruct (decide (log_named log_file q)) as [|Hn]; [done|].
      destruct (Hmir q) as (?&?&?&?&?&?&_&Hm&_); [|congruence].
      apply visited_iff; [done|]. split; [by apply Hnr|done].
  - eapply Forall_impl; [exact Hok3|]. intros e He. destruct e as [q|q|q|q|q|q];
      simpl in *; try done.
    + destruct He as [Hf Hnone]. split.
      * intros [Hsf' Hn]. by apply Hn, Hnamed.
      * destruct (grown_file_inv _ _ _ _ Hg2 Hf) as [Hf1|Hfs];
          [|right; split; [done|by apply Hnamed]].
        destruct (grown_file_inv _ _ _ _ Hg1 Hf1) as [Hf0|Hfs];
          [by left|right; split; [done|by apply Hnamed]].
    + destruct He as [Hd Hs].
      assert (q ≠ []) as Hne by (intros ->; congruence).
      split; [|done].
      eapply grown_dir_inv; [exact Hg1| |done..].
      eapply grown_dir_inv; [exact Hg2|done..].
Qed.

Lemma log_entries_are_sound_witness :
  tree demo_source ∧ closed cluttered_replica
  ∧ ∃ st' new,
      sync_folders demo_source log_path (fresh cluttered_replica) = Ok tt st'
      ∧ log st' = [] ++ new
      ∧ Forall (entry_sound log_path demo_source cluttered_replica) new.
Proof.
  assert (tree demo_source) as H1 by (apply (bool_decide_unpack _); vm_compute; exact I).
  assert (closed cluttered_replica) as H2
    by (apply (bool_decide_unpack _); vm_compute; exact I).
  split; [exact H1|]. split; [exact H2|].
  assert (∃ st', sync_folders demo_source log_path (fresh cluttered_replica) = Ok tt st')
    as [st' Hrun] by (eexists; vm_compute; reflexivity).
  destruct (log_entries_are_sound demo_source log_path cluttered_replica [] [] st'
              H1 H2 Hrun) as (new & Hlog & Hnew).
  exists st', new. split; [exact Hrun|]. split; [exact Hlog|exact Hnew].
Defined.

(** ** A pass that raises *)

(** X8.  When a pass raises, nothing has been removed from the replica: every
    entry the replica had is still there, as it was or, for a file,
    overwritten with the source file at the same path; the replica is
    still a well-formed tree, the log has only grown, and the replica the
    pass started from was not compatible with the source, or the source
    folder is not a directory. *)
Theorem failed_pass_removes_nothing (source : fs) (log_file : string) (m0 : fs)
    (l0 : list log_entry) (h0 : list (tree_id * path)) (e : exn) (st' : state) :
  closed source → closed m0 →
  sync_folders source log_file (mkState m0 l0 h0) = Raise e st' →
  closed (replica st')
  ∧ (∀ q v, m0 !! q = Some v →
       replica st' !! q = Some v
       ∨ (is_file (Some v) = true
          ∧ ∃ w t d, source !! q = Some (File true w t d)
                     ∧ replica st' !! q = Some (File true w t d)))
  ∧ (∃ new, log st' = l0 ++ new)
  ∧ ¬ (compatible log_file source m0 ∧ source !! [] = Some Dir).
Proof.
  intros Hsrc Hm0 Hrun.
  pose proof (sync_folders_spec source log_file m0 l0 h0 Hsrc Hm0) as Hspec.
  rewrite Hrun in Hspec. destruct Hspec as (Hc & Hg & Hlog & Hbad).
  split; [done|]. split; [|done].
  intros q v Hq.
  destruct (Hg q)
    as [E|[(E & _)|(_ & w & t & d & Hs & E & [E0|(t' & d' & E0 & _)])]].
  - left. by rewrite E.
  - congruence.
  - congruence.
  - right. rewrite Hq in E0. simplify_eq. split; [done|]. by exists w, t, d.
Qed.

Lemma failed_pass_removes_nothing_witness :
  closed unreadable_source ∧ closed stale_replica
  ∧ sync_folders unreadable_source log_path (fresh stale_replica)
    = Raise PermissionError (fresh stale_replica)
  ∧ closed (replica (fresh stale_replica))
  ∧ (∀ q v, stale_replica !! q = Some v →
       replica (fresh stale_replica) !! q = Some v
       ∨ (is_file (Some v) = true
          ∧ ∃ w t d, unreadable_source !! q = Some (File true w t d)
                     ∧ replica (fresh stale_replica) !! q = Some (File true w t d)))
  ∧ (∃ new, log (fresh stale_replica) = [] ++ new)
  ∧ ¬ (compatible log_path unreadable_source stale_replica
       ∧ unreadable_source !! [] = Some Dir).
Proof.
  assert (closed unreadable_source) as H1
    by (apply (bool_decide_unpack _); vm_compute; exact I).
  assert (closed stale_replica) as H2
    by (apply (bool_decide_unpack _); vm_compute; exact I).
  assert (sync_folders unreadable_source log_path (fresh stale_replica)
          = Raise PermissionError (fresh stale_replica)) as H3
    by (vm_compute; reflexivity).
  split; [exact H1|]. split; [exact H2|]. split; [exact H3|].
  exact (failed_pass_removes_nothing unreadable_source log_path stale_replica [] []
           PermissionError (fresh stale_replica) H1 H2 H3).
Defined.

(** X9.  A source file that faces a directory in the replica, or that lies
    under a directory which faces a regular file in the replica, makes the
    pass raise, and the pass leaves the obstacle in place: every later
    pass raises as well, as long as the two trees are not changed from
    outside. *)
Theorem kind_conflict_is_never_resolved (source : fs) (log_file : string) (m0 : fs)
    (l0 : list log_entry) (h0 : list (tree_id * path)) (p : path) :
  tree source → closed m0 →
  is_file (source !! p) = true → ¬ log_named log_file p → blocked m0 p →
  ∃ e st',
    sync_folders source log_file (mkState m0 l0 h0) = Raise e st'
    ∧ closed (replica st') ∧ blocked (replica st') p.
Proof.
  intros Htree Hm0 Hf Hn Hblocked.
  pose proof (sync_folders_spec source log_file m0 l0 h0 (proj1 Htree) Hm0) as Hspec.
  destruct (sync_folders _ _ _) as [[] st'|e st'].
  - exfalso.
    destruct (pass_ok_file source log_file m0 l0 Htree st' Hspec)
      as (m1 & _ & _ & _ & Hg1 & _ & _ & _ & _ & _ & Hfiles).
    destruct (Hfiles p Hf Hn) as [(w & t & d & w' & t' & d' & Hs & Hm1 & _) E].
    destruct Hspec as (sf & m1' & m2 & _ & _ & _ & _ & Hc' & Hg1' & Hg2 & Hsh & _).
    destruct Hblocked as [Hd|(a & Ha & Hne & Hfa)].
    + pose proof (grown_dir _ _ _ _ Hg1 Hd). congruence.
    + assert (replica st' !! a = Some Dir) as Hda.
      { eapply closed_ancestor; [exact Hc'| |exact Ha|exact Hne].
        rewrite E, Hm1. done. }
      pose proof (shrunk_Some _ _ _ _ _ _ Hsh Hda) as Hd2.
      pose proof (grown_file _ _ _ _ Hg1' Hfa) as Hf1.
      pose proof (grown_file _ _ _ _ Hg2 Hf1) as Hf2.
      by rewrite Hd2 in Hf2.
  - exists e, st'. split; [done|]. destruct Hspec as (Hc & Hg & _). split; [done|].
    destruct Hblocked as [Hd|(a & Ha & Hne & Hfa)].
    + left. by eapply grown_dir.
    + right. exists a. split; [done|]. split; [done|]. by eapply grown_file.
Qed.

Lemma kind_conflict_is_never_resolved_witness :
  tree nested_source ∧ closed conflict_replica
  ∧ is_file (nested_source !! ["f.txt"; "d"]) = true
  ∧ ¬ log_named log_path ["f.txt"; "d"]
  ∧ blocked conflict_replica ["f.txt"; "d"]
  ∧ ∃ e st',
      sync_folders nested_source log_path (fresh conflict_replica) = Raise e st'
      ∧ closed (replica st') ∧ blocked (replica st') ["f.txt"; "d"].
Proof.
  assert (tree nested_source) as H1
    by (apply (bool_decide_unpack _); vm_compute; exact I).
  assert (closed conflict_replica) as H2
    by (apply (bool_decide_unpack _); vm_compute; exact I).
  assert (is_file (nested_source !! ["f.txt"; "d"]) = true) as H3
    by (vm_compute; reflexivity).
  assert (¬ log_named log_path ["f.txt"; "d"]) as H4 by (vm_compute; discriminate).
  assert (blocked conflict_replica ["f.txt"; "d"]) as H5.
  { right. exists ["d"]. split; [by exists ["f.txt"]|]. split; [discriminate|].
    vm_compute. reflexivity. }
  split; [exact H1|]. split; [exact H2|]. split; [exact H3|]. split; [exact H4|].
  split; [exact H5|].
  exact (kind_conflict_is_never_resolved nested_source log_path conflict_replica
           [] [] ["f.txt"; "d"] H1 H2 H3 H4 H5).
Defined.

(** ** A source folder that is gone *)

Lemma os_walk_missing (m : fs) : m !! [] ≠ Some Dir → os_walk m [] = [].
Proof.
  intros H. unfold os_walk. simpl.
  by rewrite (proj2 (scandir_None m []) H).
Qed.

Lemma sync_folders_missing_source (source : fs) (log_file : string) (st : state) :
  os_walk source [] = [] →
  sync_folders source log_file st
  = (ensure_dir [] ;;;
     λ st, walk_bottomup (S (depth (replica st))) (prune source ∅) [] st) st.
Proof. intros H. unfold sync_folders. rewrite H. reflexivity. Qed.

(** X10.  When the source folder does not exist (any more), a pass does not
    raise: the two walks of the source yield nothing, and the third loop
    removes every file and every directory of the replica.  What is left
    is the empty replica folder. *)
Theorem vanished_source_empties_replica (source : fs) (log_file : string) (m0 : fs)
    (l0 : list log_entry) (h0 : list (tree_id * path)) :
  closed source → path_exists source [] = false →
  closed m0 → is_file (m0 !! []) = false →
  ∃ st',
    sync_folders source log_file (mkState m0 l0 h0) = Ok tt st'
    ∧ replica st' = {[ [] := Dir ]}.
Proof.
  intros Hsrc Hgone Hm0 Hroot0.
  apply path_exists_false in Hgone.
  assert (∀ q, source !! q = None) as Hnone
    by (intros q; by apply closed_no_root).
  rewrite sync_folders_missing_source
    by (apply os_walk_missing; by rewrite Hgone).
  unfold bind.
  pose proof (ensure_dir_spec [] (mkState m0 l0 h0) Hm0) as Hdir.
  assert (∃ st1, ensure_dir [] (mkState m0 l0 h0) = Ok tt st1
                 ∧ closed (replica st1) ∧ replica st1 !! [] = Some Dir)
    as (st1 & -> & Hc1 & Hroot1).
  { inversion Hdir as [Hex|m' Hn Hok Hm' E|e q Hq Hf E]; simpl in *.
    - eexists. split; [done|]. split; [done|].
      destruct Hex as [v Hv]. simpl. rewrite Hv in Hroot0. rewrite Hv. by destruct v.
    - eexists. split; [done|]. simpl. split.
      + by eapply closed_makedirs.
      + rewrite Hm'. by rewrite decide_True.
    - apply suffix_nil_inv in Hq as ->. congruence. }
  pose proof (walk_bottomup_spec source ∅ (S (depth (replica st1))) [] st1 Hc1) as Hw.
  destruct (walk_bottomup _ _ _ _) as [[] st'|e st']; [|done].
  destruct Hw as [(Hc' & Hsh & Hframe & new & Hlog & Hnew) Hpruned].
  exists st'. split; [done|].
  apply map_eq. intros q. destruct (decide (q = [])) as [->|Hne].
  - rewrite lookup_singleton_eq, Hframe; [done|]. by intros [_ ?].
  - rewrite lookup_singleton_ne by done.
    destruct (replica st' !! q) as [v|] eqn:Hq; [exfalso|done].
    pose proof (shrunk_Some _ _ _ _ _ _ Hsh Hq) as H1.
    assert (length q ≤ depth (replica st1))%nat as Hlen
      by (apply depth_bound; by rewrite H1).
    specialize (Hpruned q). rewrite Hq in Hpruned.
    assert (below [] q) as Hb by (split; [apply suffix_nil|done]).
    destruct v as [r w t d|].
    + destruct Hpruned as [? Hv]; [done|simpl; lia|]. by rewrite lookup_empty in Hv.
    + destruct Hpruned as [? Hv]; [done|simpl; lia|]. by rewrite Hnone in Hv.
Qed.

Lemma vanished_source_empties_replica_witness :
  closed (∅ : fs) ∧ path_exists (∅ : fs) [] = false
  ∧ closed cluttered_replica ∧ is_file (cluttered_replica !! []) = false
  ∧ ∃ st',
      sync_folders ∅ log_path (fresh cluttered_replica) = Ok tt st'
      ∧ replica st' = {[ [] := Dir ]}.
Proof.
  assert (closed (∅ : fs)) as H1 by (apply (bool_decide_unpack _); vm_compute; exact I).
  assert (closed cluttered_replica) as H2
    by (apply (bool_decide_unpack _); vm_compute; exact I).
  split; [exact H1|]. split; [reflexivity|]. split; [exact H2|]. split; [reflexivity|].
  exact (vanished_source_empties_replica ∅ log_path cluttered_replica [] []
           H1 eq_refl H2 eq_refl).
Defined.

(** ** Passes on a replica that is in sync *)









(** ** The event handler *)

(** X12.  An event handled on a replica that can be processed, with no file
    called like the handler's log file in the source, the two folders of
    the handler being separate trees, as those [main] makes for a source
    folder [d/n]: whatever the event
    is, the handler returns and the replica mirrors the source; and
    whatever event follows, handling it leaves the replica and the log as
    they are, for as long as the source is not changed.  The handler
    touches neither the logging configuration nor the output. *)
Theorem events_keep_replica_in_sync {E} (self : SyncHandler.t) (event next : E)
    (w : world) :
  tree (source_tree w) → closed (replica (disk w)) →
  compatible (SyncHandler.log_file self) (source_tree w) (replica (disk w)) →
  no_log_named (SyncHandler.log_file self) (source_tree w) →
  ∃ st1 st2,
    SyncHandler.on_any_event self event w
    = (Returned, mkWorld (source_tree w) st1 (logging_file w) (stdout w))
    ∧ settled (SyncHandler.log_file self) (source_tree w) (replica st1)
    ∧ SyncHandler.on_any_event self next
        (mkWorld (source_tree w) st1 (logging_file w) (stdout w))
      = (Returned, mkWorld (source_tree w) st2 (logging_file w) (stdout w))
    ∧ same_effects st1 st2.
Proof.
  intros Htree Hc Hcompat Hno.
  destruct w as [source [m0 l0 h0] lf out]. simpl in *.
  destruct (pass_returns source _ m0 l0 Htree Hcompat h0 Hc) as (st1 & Hrun & Hok).
  pose proof (pass_settles source _ m0 l0 Htree Hcompat st1 Hok) as Hset.
  destruct st1 as [m1 l1 h1]. simpl in Hset.
  destruct (settled_noop source _ m1 l1 h1 Htree Hno Hset) as [h2 Hrun2].
  exists (mkState m1 l1 h1), (mkState m1 l1 h2).
  unfold SyncHandler.on_any_event. simpl. rewrite Hrun, Hrun2. done.
Qed.

Lemma events_keep_replica_in_sync_witness :
  tree demo_source ∧ closed cluttered_replica
  ∧ compatible (SyncHandler.log_file (handler_of "/data/src")) demo_source
      cluttered_replica
  ∧ no_log_named (SyncHandler.log_file (handler_of "/data/src")) demo_source
  ∧ ∃ st1 st2,
      SyncHandler.on_any_event (handler_of "/data/src") "modified"%string
        (mkWorld demo_source (fresh cluttered_replica) None [])
      = (Returned, mkWorld demo_source st1 None [])
      ∧ settled (SyncHandler.log_file (handler_of "/data/src")) demo_source
          (replica st1)
      ∧ SyncHandler.on_any_event (handler_of "/data/src") "opened"%string
          (mkWorld demo_source st1 None [])
        = (Returned, mkWorld demo_source st2 None [])
      ∧ same_effects st1 st2.
Proof.
  assert (tree demo_source) as H1 by (apply (bool_decide_unpack _); vm_compute; exact I).
  assert (closed cluttered_replica) as H2
    by (apply (bool_decide_unpack _); vm_compute; exact I).
  assert (compatible (SyncHandler.log_file (handler_of "/data/src")) demo_source
            cluttered_replica) as H3
    by (apply (bool_decide_unpack _); vm_compute; exact I).
  assert (no_log_named (SyncHandler.log_file (handler_of "/data/src")) demo_source) as H4
    by (apply (bool_decide_unpack _); vm_compute; exact I).
  split; [exact H1|]. split; [exact H2|]. split; [exact H3|]. split; [exact H4|].
  exact (events_keep_replica_in_sync (handler_of "/data/src")
           "modified"%string "opened"%string
           (mkWorld demo_source (fresh cluttered_replica) None []) H1 H2 H3 H4).
Defined.

(** ** The fingerprints a pass computes *)

Lemma fingerprint_calls_snoc (ps : list path) (p : path) :
  fingerprint_calls (ps ++ [p])
  = fingerprint_calls ps ++ [(Source, p); (Replica, p)].
Proof.
  unfold fingerprint_calls. by rewrite fmap_app, join_app.
Qed.

Lemma length_fingerprint_calls (ps : list path) :
  length (fingerprint_calls ps) = (2 * length ps)%nat.
Proof.
  induction ps as [|p ps IH]; [done|].
  change (fingerprint_calls (p :: ps))
    with ([(Source, p); (Replica, p)] ++ fingerprint_calls ps).
  rewrite length_app, IH. simpl. lia.
Qed.


(** *** Programs that compute no fingerprint *)

Lemma keeps_hashed_ret {A} (a : A) : keeps_hashed (ret a).
Proof. by intros st. Qed.

Lemma keeps_hashed_bind {A B} (c : M A) (k : A → M B) :
  keeps_hashed c → (∀ a, keeps_hashed (k a)) → keeps_hashed (bind c k).
Proof.
  intros Hc Hk st. unfold bind. specialize (Hc st).
  destruct (c st) as [a st1|e st1]; simpl in *; [|done].
  by rewrite Hk.
Qed.

Lemma keeps_hashed_for_each {A} (l : list A) (body : A → M unit) :
  (∀ x, keeps_hashed (body x)) → keeps_hashed (for_each l body).
Proof.
  intros Hb. induction l as [|x l IH]; simpl; [apply keeps_hashed_ret|].
  apply keeps_hashed_bind; [apply Hb|]. by intros [].
Qed.

Lemma keeps_hashed_exists (p : path) : keeps_hashed (os_path_exists p).
Proof. by intros st. Qed.

Lemma keeps_hashed_on_replica (op : fs → exn + fs) : keeps_hashed (on_replica op).
Proof. intros st. unfold on_replica. by destruct (op (replica st)). Qed.

Lemma keeps_hashed_info (e : log_entry) : keeps_hashed (logging_info e).
Proof. by intros st. Qed.

Lemma keeps_hashed_ensure_dir (p : path) : keeps_hashed (ensure_dir p).
Proof.
  unfold ensure_dir. apply keeps_hashed_bind; [apply keeps_hashed_exists|].
  intros []; [apply keeps_hashed_ret|].
  apply keeps_hashed_bind; [apply keeps_hashed_on_replica|].
  intros []. apply keeps_hashed_info.
Qed.

Lemma keeps_hashed_restore (source : fs) (t : path * list string * list string) :
  keeps_hashed (restore source t).
Proof.
  destruct t as [[d dirs] files]. unfold restore.
  apply keeps_hashed_bind; [apply keeps_hashed_ensure_dir|]. intros [].
  apply keeps_hashed_for_each. intros n. unfold restore_file.
  apply keeps_hashed_bind; [apply keeps_hashed_exists|].
  intros []; [apply keeps_hashed_ret|].
  apply keeps_hashed_bind; [apply keeps_hashed_on_replica|].
  intros []. apply keeps_hashed_info.
Qed.

Lemma keeps_hashed_prune (source : fs) (sf : gmap path path)
    (t : path * list string * list string) :
  keeps_hashed (prune source sf t).
Proof.
  destruct t as [[d dirs] files]. unfold prune.
  apply keeps_hashed_bind.
  - apply keeps_hashed_for_each. intros n. unfold prune_file.
    destruct (bool_decide _); [|apply keeps_hashed_ret].
    apply keeps_hashed_bind; [apply keeps_hashed_exists|].
    intros []; [|apply keeps_hashed_ret].
    apply keeps_hashed_bind; [apply keeps_hashed_on_replica|].
    intros []. apply keeps_hashed_info.
  - intros []. apply keeps_hashed_for_each. intros n. unfold prune_subdir.
    destruct (negb _); [|apply keeps_hashed_ret].
    apply keeps_hashed_bind; [apply keeps_hashed_on_replica|].
    intros []. apply keeps_hashed_info.
Qed.

Lemma keeps_hashed_walk_bottomup (fuel : nat)
    (body : path * list string * list string → M unit) (top : path) :
  (∀ t, keeps_hashed (body t)) → keeps_hashed (walk_bottomup fuel body top).
Proof.
  intros Hbody. revert top. induction fuel as [|fuel IH]; intros top; simpl;
    [apply keeps_hashed_ret|].
  intros st. destruct (scandir (replica st) top) as [[dirs files]|]; [|done].
  apply keeps_hashed_bind; [|by intros []].
  apply keeps_hashed_for_each. intros d. apply IH.
Qed.

(** *** The walk of the source visits a directory once *)

Lemma os_walk_fuel_suffix (fuel : nat) (m : fs) (top d : path)
    (dirs files : list string) :
  (d, dirs, files) ∈ os_walk_fuel fuel m top → top `suffix_of` d.
Proof.
  revert top. induction fuel as [|fuel IH]; intros top; simpl.
  - by intros ?%elem_of_nil.
  - destruct (scandir m top) as [[ds fs]|]; [|by intros ?%elem_of_nil].
    intros [Heq|Hin]%elem_of_cons; [by simplify_eq|].
    apply list_elem_of_join in Hin as (l & Hin & Hl).
    apply list_elem_of_fmap in Hl as (d' & -> & _).
    apply IH in Hin. eapply suffix_cons_l. exact Hin.
Qed.

Lemma NoDup_join_fmap {A B} (f : A → list B) (l : list A) :
  NoDup l → (∀ x, x ∈ l → NoDup (f x)) →
  (∀ x1 x2 y, x1 ∈ l → x2 ∈ l → y ∈ f x1 → y ∈ f x2 → x1 = x2) →
  NoDup (mjoin (f <$> l)).
Proof.
  induction 1 as [|x l Hx Hnd IH]; intros Hf Hdisj; simpl; [constructor|].
  apply NoDup_app. split; [apply Hf, list_elem_of_here|]. split.
  - intros y Hy (l' & Hin & Hl')%list_elem_of_join.
    apply list_elem_of_fmap in Hl' as (x' & -> & Hx').
    assert (x = x') as <-; [|done].
    eapply Hdisj; [apply list_elem_of_here|by apply list_elem_of_further|done..].
  - apply IH.
    + intros x' Hx'. by apply Hf, list_elem_of_further.
    + intros x1 x2 y H1 H2. apply Hdisj; by apply list_elem_of_further.
Qed.

Lemma NoDup_os_walk_fuel (fuel : nat) (m : fs) (top : path) :
  NoDup (os_walk_fuel fuel m top).
Proof.
  revert top. induction fuel as [|fuel IH]; intros top; simpl; [constructor|].
  destruct (scandir m top) as [[ds fs]|] eqn:Hscan; [|constructor].
  apply scandir_Some in Hscan as (_ & -> & _).
  constructor.
  - intros (l & Hin & Hl)%list_elem_of_join.
    apply list_elem_of_fmap in Hl as (d' & -> & _).
    apply os_walk_fuel_suffix, suffix_length in Hin. simpl in Hin. lia.
  - apply NoDup_join_fmap; [apply NoDup_dir_names|by intros|].
    intros d1 d2 [[d dirs] files] _ _ H1%os_walk_fuel_suffix H2%os_walk_fuel_suffix.
    destruct H1 as [k1 E1], H2 as [k2 E2].
    assert (length k1 = length k2) as Hlen.
    { apply (f_equal length) in E1, E2. rewrite length_app in E1, E2.
      simpl in *. lia. }
    rewrite E1 in E2. apply app_inj_1 in E2 as [_ E2]; [|done]. by simplify_eq.
Qed.

(** *** The record of the fingerprint calls through the first loop *)

Lemma hoare_both {A} (P P' : state → Prop) (c : M A)
    (Q Q' : A → state → Prop) (E : exn → state → Prop) :
  hoare P c Q E →
  hoare (λ st, P st ∧ P' st) c Q' (λ _ _, True) →
  hoare (λ st, P st ∧ P' st) c (λ a st, Q a st ∧ Q' a st) E.
Proof.
  intros H1 H2 st [HP HP']. specialize (H1 st HP). specialize (H2 st (conj HP HP')).
  destruct (c st); [by split|done].
Qed.

Section hash_accounting.

Context (source : fs) (log_file : string) (m0 : fs) (l0 : list log_entry)
        (h0 : list (tree_id * path)).
Hypothesis Htree : tree source.

Lemma ensure_dir_hashed (done : list (path * list string * list string)) (d : path) :
  d = [] ∨ source !! d = Some Dir →
  hoare (λ st, closed (replica st) ∧ inv_hashed log_file source m0 h0 done st)
    (ensure_dir d)
    (λ _ st, inv_hashed log_file source m0 h0 done st) (λ _ _, True).
Proof.
  intros Hd st [Hc (ps & Hh & Hnd & Hps & Hframe)].
  destruct (ensure_dir_spec d st Hc) as [Hex|m' Hn Hanc Hlk|e q Hq Hf]; [|..|done].
  - by exists ps.
  - exists ps. simpl. split; [done|]. split; [done|]. split; [done|].
    intros p Hf Hv. rewrite Hlk. rewrite decide_False; [by apply Hframe|].
    intros [Hsuf _].
    assert (source !! p = Some Dir) as Hp.
    { destruct Hd as [->|Hd].
      - apply suffix_nil_inv in Hsuf as ->. apply Htree.
      - exact (source_ancestor_dir source (proj1 Htree) d p Hd Hsuf). }
    by rewrite Hp in Hf.
Qed.

Lemma inv_hashed_start (done : list (path * list string * list string))
    (d : path) (dirs : list string) (st : state) :
  inv_hashed log_file source m0 h0 done st →
  inv_hashed log_file source m0 h0 (done ++ [(d, dirs, [])]) st.
Proof.
  intros (ps & Hh & Hnd & Hps & Hframe). exists ps.
  split; [done|]. split; [done|]. split.
  - intros p. rewrite visited_snoc_nil. apply Hps.
  - intros p Hf Hv. apply Hframe; [done|]. by rewrite <- visited_snoc_nil.
Qed.

Lemma visited_last_inv (done : list (path * list string * list string))
    (d : path) (dirs fdone : list string) (n : string) :
  visited log_file (done ++ [(d, dirs, fdone)]) (n :: d) →
  visited log_file done (n :: d) ∨ n ∈ fdone.
Proof.
  intros (d' & dirs' & files' & n' & Hin & Hn & Hne & Heq).
  apply elem_of_app in Hin as [Hin|Hin%list_elem_of_singleton].
  - left. by exists d', dirs', files', n'.
  - right. by simplify_eq.
Qed.

Lemma sync_file_hashed (done : list (path * list string * list string))
    (sf : gmap path path) (d : path) (dirs fdone : list string) (n : string) :
  ¬ visited log_file (done ++ [(d, dirs, fdone)]) (n :: d) →
  is_file (source !! (n :: d)) = true →
  hoare (inv_hashed log_file source m0 h0 (done ++ [(d, dirs, fdone)]))
    (if bool_decide (n = os_path_basename log_file) then ret sf
     else sync_file source (n :: d) ;;; ret (<[n :: d := n :: d]> sf))
    (λ _ st, inv_hashed log_file source m0 h0 (done ++ [(d, dirs, fdone ++ [n])]) st)
    (λ _ _, True).
Proof.
  intros Hnew Hfile st (ps & Hh & Hnd & Hps & Hframe).
  pose proof (Hframe _ Hfile Hnew) as Hsame.
  destruct (bool_decide (n = os_path_basename log_file)) eqn:Hlogname.
  { apply bool_decide_eq_true in Hlogname. unfold ret. exists ps.
    split; [done|]. split; [done|]. split.
    - intros p. rewrite visited_snoc_file, Hps. tauto.
    - intros p Hf Hv. apply Hframe; [done|].
      intros Hv'. apply Hv, visited_snoc_file. by left. }
  apply bool_decide_eq_false in Hlogname.
  assert (n :: d ∉ ps) as Hnotin by (intros [? _]%Hps; done).
  unfold bind, ret.
  destruct (sync_file_spec source (n :: d) st)
    as [w t c Hn Hs Hpar|w t c t' c' Hs Hr Hh'|w t c w' t' c' Hs Hr Hh'|e h Hcant];
    [..|done].
  - exists ps. simpl. split; [done|]. split; [done|]. split.
    + intros p. rewrite visited_snoc_file, Hps. split; [tauto|].
      intros [[Hv|[_ ->]] Hsome]; [done|].
      rewrite <- Hsame, Hn in Hsome. by destruct Hsome.
    + intros p Hf Hv.
      assert (p ≠ n :: d) as Hne.
      { intros ->. apply Hv, visited_snoc_file. by right. }
      rewrite lookup_insert_ne by done. apply Hframe; [done|].
      intros Hv'. apply Hv, visited_snoc_file. by left.
  - exists (ps ++ [n :: d]). simpl.
    split; [by rewrite Hh, fingerprint_calls_snoc, <- app_assoc|].
    split.
    { apply NoDup_app. split; [done|]. split; [|apply NoDup_singleton].
      intros p Hp ->%list_elem_of_singleton. done. }
    split.
    + intros p. rewrite elem_of_app, list_elem_of_singleton, visited_snoc_file, Hps.
      split; [|tauto].
      intros [?| ->]; [tauto|]. split; [by right|]. by rewrite <- Hsame, Hr.
    + intros p Hf Hv.
      assert (p ≠ n :: d) as Hne.
      { intros ->. apply Hv, visited_snoc_file. by right. }
      rewrite lookup_insert_ne by done. apply Hframe; [done|].
      intros Hv'. apply Hv, visited_snoc_file. by left.
  - exists (ps ++ [n :: d]). simpl.
    split; [by rewrite Hh, fingerprint_calls_snoc, <- app_assoc|].
    split.
    { apply NoDup_app. split; [done|]. split; [|apply NoDup_singleton].
      intros p Hp ->%list_elem_of_singleton. done. }
    split.
    + intros p. rewrite elem_of_app, list_elem_of_singleton, visited_snoc_file, Hps.
      split; [|tauto].
      intros [?| ->]; [tauto|]. split; [by right|]. by rewrite <- Hsame, Hr.
    + intros p Hf Hv. apply Hframe; [done|].
      intros Hv'. apply Hv, visited_snoc_file. by left.
Qed.

Lemma create_update_hashed (done : list (path * list string * list string))
    (sf : gmap path path) (d : path) (dirs files : list string) :
  source !! d = Some Dir → NoDup files →
  (∀ n, n ∈ files → is_file (source !! (n :: d)) = true) →
  (∀ n, ¬ visited log_file done (n :: d)) →
  hoare (λ st, closed (replica st) ∧ inv_hashed log_file source m0 h0 done st)
    (create_update source log_file (d, dirs, files) sf)
    (λ _ st, inv_hashed log_file source m0 h0 (done ++ [(d, dirs, files)]) st)
    (λ _ _, True).
Proof.
  intros Hd Hnd Hfiles Hfresh. unfold create_update.
  eapply hoare_bind; [apply ensure_dir_hashed; by right|].
  intros [].
  eapply hoare_weaken;
    [apply (hoare_for_fold
              (λ fdone (_ : gmap path path) st,
                 inv_hashed log_file source m0 h0 (done ++ [(d, dirs, fdone)]) st))
    |..].
  - intros fdone n rest sf' Hsplit. apply sync_file_hashed.
    + intros [Hv|Hn]%visited_last_inv.
      * by apply (Hfresh n).
      * rewrite Hsplit in Hnd. apply NoDup_app in Hnd as (_ & Hnd & _).
        apply (Hnd n Hn), list_elem_of_here.
    + apply Hfiles. rewrite Hsplit. apply elem_of_app. right. apply list_elem_of_here.
  - intros st Hinv. by apply inv_hashed_start.
  - done.
  - done.
Qed.

End hash_accounting.

Lemma visited_app_inv (log_file : string)
    (a b : list (path * list string * list string)) (p : path) :
  visited log_file (a ++ b) p → visited log_file a p ∨ visited log_file b p.
Proof.
  intros (d & dirs & files & n & Hin & Hn & Hne & ->).
  apply elem_of_app in Hin as [Hin|Hin]; [left|right]; by exists d, dirs, files, n.
Qed.

Lemma first_loop_hashed (source : fs) (log_file : string) (m0 : fs)
    (l0 : list log_entry) (h0 : list (tree_id * path))
    (pre : list (path * list string * list string)) (sf0 : gmap path path) :
  tree source → (∀ p, ¬ visited log_file pre p) →
  hoare (λ st, inv1 log_file source m0 l0 pre sf0 st
               ∧ inv_hashed log_file source m0 h0 pre st)
    (for_fold (os_walk source []) sf0 (create_update source log_file))
    (λ sf st, inv1 log_file source m0 l0 (pre ++ os_walk source []) sf st
              ∧ inv_hashed log_file source m0 h0 (pre ++ os_walk source []) st)
    (λ _, aborted log_file source m0 l0).
Proof.
  intros Htree Hpre.
  eapply hoare_weaken;
    [apply (hoare_for_fold
              (λ done sf st,
                 inv1 log_file source m0 l0 (pre ++ done) sf st
                 ∧ inv_hashed log_file source m0 h0 (pre ++ done) st))
    |..]; try done.
  - intros done [[d dirs] files] rest sf Hsplit.
    assert ((d, dirs, files) ∈ os_walk source []) as Hin.
    { rewrite Hsplit. apply elem_of_app. right. apply list_elem_of_here. }
    pose proof (os_walk_dir _ _ _ _ Hin) as [Hd Hfiles].
    pose proof (os_walk_fuel_scandir _ _ _ _ _ _ Hin) as Hscan.
    rewrite app_assoc.
    apply hoare_both.
    + apply create_update_inv1; [apply Htree|done|]. intros n Hn. by apply Hfiles.
    + eapply hoare_weaken; [apply (create_update_hashed source log_file m0 h0 Htree)|..].
      * done.
      * apply scandir_Some in Hscan as (_ & _ & ->). apply NoDup_file_names.
      * intros n Hn. by apply Hfiles.
      * intros n [Hv|Hv]%visited_app_inv; [by apply (Hpre (n :: d))|].
        destruct Hv as (d' & dirs' & files' & n' & Hin' & _ & _ & Heq).
        simplify_eq.
        assert ((d', dirs', files') ∈ os_walk source []) as Hin2.
        { rewrite Hsplit. apply elem_of_app. by left. }
        apply os_walk_fuel_scandir in Hin2. rewrite Hscan in Hin2. simplify_eq.
        pose proof (NoDup_os_walk_fuel (S (depth source)) source []) as Hnd.
        fold (os_walk source []) in Hnd. rewrite Hsplit in Hnd.
        apply NoDup_app in Hnd as (_ & Hnd & _).
        apply (Hnd _ Hin'), list_elem_of_here.
      * intros st [(Hc & _) Hh]. by split.
      * done.
      * done.
  - intros st. by rewrite app_nil_r.
  - by intros e st.
Qed.

Lemma sync_folders_hashed (source : fs) (log_file : string) (m0 : fs)
    (l0 : list log_entry) (h0 : list (tree_id * path)) :
  tree source → closed m0 →
  match sync_folders source log_file (mkState m0 l0 h0) with
  | Ok _ st' =>
      ∃ ps, hashed st' = h0 ++ fingerprint_calls ps ∧ NoDup ps
            ∧ ∀ p, p ∈ ps ↔ is_file (source !! p) = true
                           ∧ ¬ log_named log_file p ∧ is_Some (m0 !! p)
  | Raise _ _ => True
  end.
Proof.
  intros Htree Hm0. pose proof (proj1 Htree) as Hsrc. unfold sync_folders, bind.
  set (st0 := mkState m0 l0 h0).
  assert (inv_hashed log_file source m0 h0 [] st0) as Hh0.
  { exists []. split; [by rewrite app_nil_r|]. split; [constructor|]. split.
    - intros p. split; [by intros ?%elem_of_nil|].
      by intros [(?&?&?&?&?%elem_of_nil&_) _].
    - done. }
  pose proof (ensure_dir_inv1 source log_file m0 l0 Hsrc [] ∅ [] (or_introl eq_refl)
                st0 (inv1_initial log_file source m0 st0 Hm0 eq_refl)) as H0.
  pose proof (ensure_dir_hashed source log_file m0 h0 Htree [] [] (or_introl eq_refl)
                st0 (conj Hm0 Hh0)) as H0h.
  destruct (ensure_dir [] st0) as [[] sta|e sta]; [|done].
  destruct H0 as [H0 Hroot].
  assert (∀ p, ¬ visited log_file [([], [], [])] p) as Hpre.
  { intros p (d & dirs & files & n & Hin & Hn & _).
    apply list_elem_of_singleton in Hin. simplify_eq. by apply elem_of_nil in Hn. }
  pose proof (first_loop_hashed source log_file m0 l0 h0 [([], [], [])] ∅ Htree Hpre)
    as H1.
  specialize (H1 sta (conj (inv1_start source log_file m0 l0 [] ∅ [] [] sta H0 Hroot)
                           (inv_hashed_start source log_file m0 h0 [] [] [] sta H0h))).
  destruct (for_fold _ _ _ sta) as [sf st1|e st1]; [|done].
  destruct H1 as [_ (ps & Hh & Hnd & Hps & _)].
  pose proof (keeps_hashed_for_each (os_walk source []) (restore source)
                (keeps_hashed_restore source) st1) as H2.
  destruct (for_each _ _ st1) as [[] st2|e st2]; [|done]. simpl in H2.
  pose proof (keeps_hashed_walk_bottomup (S (depth (replica st2)))
                (prune source sf) [] (keeps_hashed_prune source sf) st2) as H3.
  destruct (walk_bottomup _ _ _ st2) as [[] st3|e st3]; [|done]. simpl in H3.
  exists ps. split; [by rewrite H3, H2|]. split; [done|].
  intros p. rewrite Hps. simpl. rewrite visited_cons_nil, visited_iff by done.
  split; [tauto|]. intros (Hf & Hn & Hsome). split; [|done]. split; [|done].
  intros ->. destruct Htree as [_ Hr]. by rewrite Hr in Hf.
Qed.

(** X13.  The fingerprints a pass that returns has computed: for every source
    file, other than one of the log file's name, that had a counterpart in
    the replica when the pass started, the fingerprint of the source file
    and that of the replica file, once; and none for any other file.  In
    particular a pass into an empty replica computes no fingerprint, and a
    pass over a replica that mirrors [n] files computes [2 n]. *)
Theorem fingerprints_of_a_pass (source : fs) (log_file : string) (m0 : fs)
    (l0 : list log_entry) (h0 : list (tree_id * path)) (st' : state) :
  tree source → closed m0 →
  sync_folders source log_file (mkState m0 l0 h0) = Ok tt st' →
  ∃ ps, hashed st' = h0 ++ fingerprint_calls ps ∧ NoDup ps
        ∧ (∀ p, p ∈ ps ↔ is_file (source !! p) = true
                        ∧ ¬ log_named log_file p ∧ is_Some (m0 !! p))
        ∧ length (hashed st') = (length h0 + 2 * length ps)%nat.
Proof.
  intros Htree Hm0 Hrun.
  pose proof (sync_folders_hashed source log_file m0 l0 h0 Htree Hm0) as H.
  rewrite Hrun in H. destruct H as (ps & Hh & Hnd & Hps).
  exists ps. split; [done|]. split; [done|]. split; [done|].
  by rewrite Hh, length_app, length_fingerprint_calls.
Qed.

Lemma fingerprints_of_a_pass_witness :
  tree demo_source ∧ closed cluttered_replica
  ∧ ∃ st',
      sync_folders demo_source log_path (fresh cluttered_replica) = Ok tt st'
      ∧ ∃ ps, hashed st' = [] ++ fingerprint_calls ps ∧ NoDup ps
              ∧ (∀ p, p ∈ ps ↔ is_file (demo_source !! p) = true
                              ∧ ¬ log_named log_path p
                              ∧ is_Some (cluttered_replica !! p))
              ∧ length (hashed st') = (length (@nil (tree_id * path)) + 2 * length ps)%nat.
Proof.
  assert (tree demo_source) as H1 by (apply (bool_decide_unpack _); vm_compute; exact I).
  assert (closed cluttered_replica) as H2
    by (apply (bool_decide_unpack _); vm_compute; exact I).
  split; [exact H1|]. split; [exact H2|].
  assert (∃ st', sync_folders demo_source log_path (fresh cluttered_replica) = Ok tt st')
    as [st' Hrun] by (eexists; vm_compute; reflexivity).
  exists st'. split; [exact Hrun|].
  exact (fingerprints_of_a_pass demo_source log_path cluttered_replica [] [] st'
           H1 H2 Hrun).
Defined.

(* ===================================================================== *)
(** * Permissions, and where a pass stops *)
(* ===================================================================== *)

(** ** A replica file that cannot be written *)

(** X14.  The copy of a read-only source file is read-only, and a replica
    file that cannot be written cannot be updated: when such a file has
    another fingerprint than the source file at the same path (not of the
    log file's name), the pass raises and leaves the file as it is, so
    that every later pass raises as well, until the file is made writable
    or removed. *)
Theorem read_only_copy_blocks_update (source : fs) (log_file : string) (m0 : fs)
    (l0 : list log_entry) (h0 : list (tree_id * path)) (p : path)
    (w : bool) (t t' : Z) (d d' : list byte) :
  tree source → closed m0 →
  source !! p = Some (File true w t d) → ¬ log_named log_file p →
  m0 !! p = Some (File true false t' d') →
  hash_content d ≠ hash_content d' →
  ∃ e st',
    sync_folders source log_file (mkState m0 l0 h0) = Raise e st'
    ∧ closed (replica st')
    ∧ replica st' !! p = Some (File true false t' d').
Proof.
  intros Htree Hm0 Hs Hn Hp Hne.
  pose proof (sync_folders_spec source log_file m0 l0 h0 (proj1 Htree) Hm0) as Hspec.
  destruct (sync_folders _ _ _) as [[] st'|e st'].
  - exfalso.
    destruct (pass_file source log_file m0 l0 st' p w t d Htree Hspec Hs Hn)
      as (new & _ & _ & _ & Hcase).
    rewrite Hp in Hcase. rewrite decide_False in Hcase by done.
    by destruct Hcase as [? _].
  - exists e, st'. split; [done|]. destruct Hspec as (Hc & Hg & _). split; [done|].
    destruct (Hg p)
      as [E|[(E & _)|(_ & w2 & t2 & d2 & _ & _ & [E|(t3 & d3 & E & _)])]];
      congruence.
Qed.

Lemma read_only_copy_blocks_update_witness :
  tree read_only_source ∧ closed read_only_replica
  ∧ read_only_source !! ["a.txt"] = Some (File true false 0 (bytes_of_string "hello"))
  ∧ ¬ log_named log_path ["a.txt"]
  ∧ read_only_replica !! ["a.txt"] = Some (File true false 7 (bytes_of_string "HELLO"))
  ∧ hash_content (bytes_of_string "hello") ≠ hash_content (bytes_of_string "HELLO")
  ∧ ∃ e st',
      sync_folders read_only_source log_path (fresh read_only_replica) = Raise e st'
      ∧ closed (replica st')
      ∧ replica st' !! ["a.txt"]
        = Some (File true false 7 (bytes_of_string "HELLO")).
Proof.
  assert (tree read_only_source) as H1
    by (apply (bool_decide_unpack _); vm_compute; exact I).
  assert (closed read_only_replica) as H2
    by (apply (bool_decide_unpack _); vm_compute; exact I).
  assert (¬ log_named log_path ["a.txt"]) as H4 by (vm_compute; discriminate).
  assert (hash_content (bytes_of_string "hello")
          ≠ hash_content (bytes_of_string "HELLO")) as H6
    by (vm_compute; discriminate).
  split; [exact H1|]. split; [exact H2|]. split; [reflexivity|]. split; [exact H4|].
  split; [reflexivity|]. split; [exact H6|].
  exact (read_only_copy_blocks_update read_only_source log_path read_only_replica
           [] [] ["a.txt"] false 0 7 (bytes_of_string "hello")
           (bytes_of_string "HELLO") H1 H2 eq_refl H4 eq_refl H6).
Defined.

(** On the trees of the example the exception is [PermissionError]; and a
    pass into an empty replica makes the read-only copy itself. *)
Example read_only_update_raises :
  sync_folders read_only_source log_path (fresh read_only_replica)
  = Raise PermissionError
      (mkState read_only_replica [] [(Source, ["a.txt"]); (Replica, ["a.txt"])]).
Proof. vm_compute. reflexivity. Qed.

Example read_only_file_copied_read_only :
  ∃ st', sync_folders read_only_source log_path (fresh ∅) = Ok tt st'
         ∧ replica st' = read_only_source.
Proof. eexists. split; vm_compute; reflexivity. Qed.

(** ** The files of the walk, in its order *)











(** ** The first loop up to an unreadable file *)






Section stopping.

Context (source : fs) (log_file : string) (m0 : fs) (l0 : list log_entry)
        (p : path) (w : bool) (t : Z) (c : list byte).
Hypothesis Htree : tree source.
Hypothesis Hp : source !! p = Some (File false w t c).
Hypothesis Hlogn : ¬ log_named log_file p.








End stopping.



(** The run of the example: the walk lists [c.txt], [b.txt], [a.txt]; the
    pass copies [c.txt] and raises at [b.txt]; [a.txt] is not copied and
    the stale [old.txt] is not deleted. *)
Example unreadable_file_run :
  walk_files log_path (os_walk partly_unreadable_source [])
  = [["c.txt"]; ["b.txt"]; ["a.txt"]]
  ∧ compatible log_path (delete ["b.txt"] partly_unreadable_source) stale_replica
  ∧ sync_folders partly_unreadable_source log_path (fresh stale_replica)
    = Raise PermissionError
        (mkState (<[["c.txt"] := text "last"]> stale_replica)
                 [FileCopied ["c.txt"]] []).
Proof.
  split; [vm_compute; reflexivity|].
  split; [apply (bool_decide_unpack _); vm_compute; exact I|].
  vm_compute. reflexivity.
Qed.

(* ===================================================================== *)
(** * New files and the naive decision *)
(* ===================================================================== *)

(** ** The fingerprints of the pass with the naive decision *)








(* ===================================================================== *)
(** * Folder names and relative paths *)
(* ===================================================================== *)

Lemma starts_with_app (old r : list ascii) : starts_with old (old ++ r) = true.
Proof.
  induction old as [|c old IH]; simpl; [done|]. by rewrite Ascii.eqb_refl.
Qed.

Lemma replace_first_unfold (old new s : list ascii) :
  replace_first old new s
  = if starts_with old s then new ++ drop (length old) s
    else match s with
         | [] => []
         | c :: s' => c :: replace_first old new s'
         end.
Proof. by destruct s. Qed.

Lemma replace_first_prefix (old new r : list ascii) :
  replace_first old new (old ++ r) = new ++ r.
Proof.
  by rewrite replace_first_unfold, starts_with_app, drop_app_length.
Qed.

Lemma last_entry_name (x : list ascii) (n : string) :
  entry_name n → last (x ++ slash :: String.list_ascii_of_string n) ≠ Some slash.
Proof.
  intros [Hne Hfree]. destruct (chars_nonempty n Hne) as (c & r & Hc).
  unfold slash_free in Hfree. rewrite Hc in *.
  rewrite (cons_middle slash x (c :: r)), app_assoc, last_app_cons.
  intros Hl. apply last_Some_elem_of in Hl.
  by apply (proj1 (Forall_forall _ _) Hfree slash).
Qed.

Lemma path_name_chars (top : string) (q : path) :
  top ≠ ""%string → no_trailing_slash top → Forall entry_name q →
  String.list_ascii_of_string (path_name top q)
  = String.list_ascii_of_string top ++ rel_chars q
  ∧ path_name top q ≠ ""%string ∧ no_trailing_slash (path_name top q).
Proof.
  intros Hne Hts. induction 1 as [|n d Hn _ IH]; simpl.
  - by rewrite app_nil_r.
  - destruct IH as (Hchars & Hne' & Hts').
    pose proof Hn as [Hnn Hfree].
    destruct (chars_nonempty n Hnn) as (c & r & Hc).
    assert (c ≠ slash) as Hcs.
    { unfold slash_free in Hfree. rewrite Hc in Hfree. by inversion Hfree. }
    rewrite (join_name _ n c r Hc Hcs Hts').
    destruct (decide (path_name top d = ""%string)); [done|].
    assert (String.list_ascii_of_string (path_name top d +:+ "/" +:+ n)
            = String.list_ascii_of_string top
              ++ rel_chars d ++ slash :: String.list_ascii_of_string n) as E
      by (by rewrite !chars_append, Hchars, <- app_assoc).
    split; [done|]. split.
    + intros E'. rewrite E' in E. apply (f_equal length) in E.
      rewrite !length_app in E. simpl in E. lia.
    + unfold no_trailing_slash. rewrite E, app_assoc. by apply last_entry_name.
Qed.

(** X15.  Lines 40, 63 and 88 map a name under one folder to the name at
    the same relative path under the other: for two folder names that
    are not empty and do not end with a slash, as the source folder [d/n]
    and the replica folder [d/n_sync] are, and a relative path made of
    entry names, replacing the first occurrence of the one folder name in
    the name [os.walk] and [os.path.join] give to the path yields the name
    they give to the same path under the other folder.  This is what lets
    a pass be a function of the two trees alone. *)
Theorem replace_reroots (top top' : string) (q : path) :
  top ≠ ""%string → no_trailing_slash top →
  top' ≠ ""%string → no_trailing_slash top' →
  Forall entry_name q →
  str_replace_first (path_name top q) top top' = path_name top' q.
Proof.
  intros Hne Hts Hne' Hts' Hq.
  destruct (path_name_chars top q Hne Hts Hq) as (E & _ & _).
  destruct (path_name_chars top' q Hne' Hts' Hq) as (E' & _ & _).
  apply string_eq_chars. unfold str_replace_first.
  by rewrite String.list_ascii_of_string_of_list_ascii, E, E', replace_first_prefix.
Qed.

Lemma replace_reroots_witness :
  "/data/src"%string ≠ ""%string ∧ no_trailing_slash "/data/src"
  ∧ replica_folder_of "/data/src" ≠ ""%string
  ∧ no_trailing_slash (replica_folder_of "/data/src")
  ∧ Forall entry_name ["a.txt"%string; "sub"%string]
  ∧ path_name "/data/src" ["a.txt"; "sub"] = "/data/src/sub/a.txt"%string
  ∧ str_replace_first (path_name "/data/src" ["a.txt"; "sub"]) "/data/src"
      (replica_folder_of "/data/src")
    = path_name (replica_folder_of "/data/src") ["a.txt"; "sub"].
Proof.
  assert ("/data/src"%string ≠ ""%string) as H1 by discriminate.
  assert (no_trailing_slash "/data/src") as H2
    by (apply (bool_decide_unpack _); vm_compute; exact I).
  assert (replica_folder_of "/data/src" ≠ ""%string) as H3 by (vm_compute; discriminate).
  assert (no_trailing_slash (replica_folder_of "/data/src")) as H4
    by (apply (bool_decide_unpack _); vm_compute; exact I).
  assert (Forall entry_name ["a.txt"%string; "sub"%string]) as H5.
  { repeat constructor; try discriminate;
      apply (bool_decide_unpack _); vm_compute; exact I. }
  split; [exact H1|]. split; [exact H2|]. split; [exact H3|]. split; [exact H4|].
  split; [exact H5|]. split; [vm_compute; reflexivity|].
  exact (replace_reroots "/data/src" (replica_folder_of "/data/src")
           ["a.txt"; "sub"] H1 H2 H3 H4 H5).
Defined.

(** With a trailing slash the replica folder lies inside the source folder
    and line 40 does not lead into it: the directory [sub] of the source
    is sent to a sibling of the replica folder. *)
Example trailing_slash_not_rerooted :
  replica_folder_of "/data/src/" = "/data/src/_sync"%string
  ∧ path_name "/data/src/" ["sub"] = "/data/src/sub"%string
  ∧ str_replace_first (path_name "/data/src/" ["sub"]) "/data/src/"
      (replica_folder_of "/data/src/")
    = "/data/src/_syncsub"%string
  ∧ path_name (replica_folder_of "/data/src/") ["sub"] = "/data/src/_sync/sub"%string.
Proof. repeat split; vm_compute; reflexivity. Qed.
